(** * AIVoyage: route scoring, traffic-event monitoring and reroute decision

    A shallow embedding of the algorithmic core of the application:

    - [RoutePlanEngine]      (engine/RoutePlanEngine.ts)
    - [TrafficService]       (service/TrafficService.ts, evaluateRouteTraffic
                              and the status texts)
    - [WeatherService]       (service/WeatherService.ts, evaluateWeatherImpact)
    - [TrafficEventService]  (service/TrafficEventService.ts)
    - [RouteServiceAbility]  (service/RouteServiceAbility.ts)
    - [POIService]           (service/POIService.ts, searchAlongRoute)
    - [LLMService], [DialogEngine]
                             (service/LLMService.ts, engine/DialogEngine.ts)
    - [HomeFormExtension]    (the traffic colour of the card)

    An ECMAScript number is an IEEE 754 binary64 value; it is modelled by
    Rocq's primitive [float], whose operations are specified by the
    [SpecFloat] functions of the standard library. *)

From Stdlib Require Import ZArith List Bool String Ascii DecimalString Floats Lia.
From Stdlib Require Import Permutation Sorted.
Import ListNotations.

Set Warnings "-inexact-float".

#[local] Open Scope string_scope.
#[local] Open Scope list_scope.
#[local] Open Scope bool_scope.
#[local] Open Scope float_scope.

(* ================================================================== *)
(** * ECMAScript numbers *)
(* ================================================================== *)

Module JS.

(** ** Views on the specification type *)

(** [x] is NaN.  The specification type has one NaN (no payload), so this
    is the same as [x = nan]. *)
Definition isNaN (x : float) : bool :=
  match Prim2SF x with S754_nan => true | _ => false end.

(** [x] is a finite number (a zero included). *)
Definition isFinite (x : float) : bool :=
  match Prim2SF x with
  | S754_zero _ | S754_finite _ _ _ => true
  | _ => false
  end.

Definition is_pos_zero (x : float) : bool :=
  match Prim2SF x with S754_zero false => true | _ => false end.

Definition is_neg_zero (x : float) : bool :=
  match Prim2SF x with S754_zero true => true | _ => false end.

(** ** [Math.min], [Math.max] (ECMA-262, 21.3.2.24 and 21.3.2.25)

    The arguments are scanned from left to right starting from +Infinity
    (resp. -Infinity); a NaN anywhere gives NaN; -0 counts as smaller
    than +0. *)

Definition min_step (lowest number : float) : float :=
  if is_neg_zero number && is_pos_zero lowest then number
  else if number <? lowest then number else lowest.

Definition max_step (highest number : float) : float :=
  if is_pos_zero number && is_neg_zero highest then number
  else if highest <? number then number else highest.

Definition Math_min (values : list float) : float :=
  if existsb isNaN values then nan else fold_left min_step values infinity.

Definition Math_max (values : list float) : float :=
  if existsb isNaN values then nan else fold_left max_step values neg_infinity.

Definition Math_sqrt (x : float) : float := PrimFloat.sqrt x.

Definition Math_PI : float := 0x1.921fb54442d18p+1.

(** [Math.round]: the integer closest to [x], ties towards +Infinity;
    NaN, the zeros and the infinities are returned unchanged and a
    negative argument that rounds to zero gives -0. *)
Definition Math_round (x : float) : float :=
  match Prim2SF x with
  | S754_finite s m e =>
      if (0 <=? e)%Z then x
      else
        let n := ((2 * cond_Zopp s (Zpos m) + 2 ^ (- e)) / 2 ^ (- e + 1))%Z in
        if (n =? 0)%Z then (if s then neg_zero else zero)
        else SF2Prim (binary_normalize prec emax n 0 false)
  | _ => x
  end.

(** [a || b] on numbers: [b] replaces a falsy [a] (a zero or NaN). *)
Definition or_number (a b : float) : float :=
  if isNaN a || (a =? 0) then b else a.

(** [x] is a zero or NaN. *)
Definition zero_or_nan (x : float) : Prop :=
  match Prim2SF x with
  | S754_zero _ | S754_nan => True
  | _ => False
  end.

(** ** Order key

    A number that is not NaN is ordered like the triple
    (class, exponent, mantissa) read lexicographically; the two zeros
    share one key.  All order facts below are read off this key. *)

Definition key := (Z * Z * Z)%type.

Definition sf_key (x : spec_float) : option key :=
  match x with
  | S754_nan => None
  | S754_zero _ => Some (0, 0, 0)%Z
  | S754_infinity s => Some (if s then (-2) else 2, 0, 0)%Z
  | S754_finite s m e =>
      Some (if s then (-1, - e, Zneg m) else (1, e, Zpos m))%Z
  end.

Definition fkey (x : float) : option key := sf_key (Prim2SF x).

Definition key_compare (k k' : key) : comparison :=
  let '(a, b, c) := k in
  let '(a', b', c') := k' in
  match (a ?= a')%Z with
  | Eq => match (b ?= b')%Z with Eq => (c ?= c')%Z | r => r end
  | r => r
  end.

Definition key_lt (k k' : key) : Prop :=
  let '(a, b, c) := k in
  let '(a', b', c') := k' in
  (a < a' \/ (a = a' /\ (b < b' \/ (b = b' /\ c < c'))))%Z.

End JS.

(* ================================================================== *)
(** * ECMAScript strings and arrays *)
(* ================================================================== *)

(** [s.includes(sub)] on strings.  Strings are UTF-8 byte strings; as
    UTF-8 is self-synchronising, searching bytes finds the same
    occurrences as searching code units. *)
Fixpoint str_includes (s sub : string) : bool :=
  prefix sub s ||
  match s with
  | EmptyString => false
  | String _ rest => str_includes rest sub
  end.

(** [arr.includes(x)] on arrays of strings. *)
Definition includes (arr : list string) (x : string) : bool :=
  existsb (String.eqb x) arr.

(** A string is truthy when it is not empty. *)
Definition truthy (s : string) : bool := negb (String.eqb s "").

(** [parseInt(s)] (ECMA-262, 19.2.5) as an exact integer; [None] is NaN.
    Leading white space and line terminators are skipped, a sign is
    read, a [0x] prefix selects radix 16, and the longest run of digits
    is converted.

    The characters skipped are TAB, LF, VT, FF, CR and the space, and,
    in the two and three bytes of their UTF-8 form, U+00A0, U+1680,
    U+2000 to U+200A, U+2028, U+2029, U+202F, U+205F, U+3000 and
    U+FEFF. *)
Definition is_space (c : ascii) : bool :=
  let n := nat_of_ascii c in
  (n =? 32)%nat || ((9 <=? n)%nat && (n <=? 13)%nat).

Definition is_space2 (c1 c2 : ascii) : bool :=
  ((nat_of_ascii c1 =? 194) && (nat_of_ascii c2 =? 160))%nat.

Definition is_space3 (c1 c2 c3 : ascii) : bool :=
  let a := nat_of_ascii c1 in
  let b := nat_of_ascii c2 in
  let c := nat_of_ascii c3 in
  (((a =? 225) && (b =? 154) && (c =? 128)) ||
   ((a =? 226) && (b =? 128) &&
    (((128 <=? c) && (c <=? 138)) || (c =? 168) || (c =? 169) || (c =? 175))) ||
   ((a =? 226) && (b =? 129) && (c =? 159)) ||
   ((a =? 227) && (b =? 128) && (c =? 128)) ||
   ((a =? 239) && (b =? 187) && (c =? 191)))%nat.

Fixpoint trim_left (s : string) : string :=
  match s with
  | String c1 rest1 =>
      if is_space c1 then trim_left rest1
      else
        match rest1 with
        | String c2 rest2 =>
            if is_space2 c1 c2 then trim_left rest2
            else
              match rest2 with
              | String c3 rest3 =>
                  if is_space3 c1 c2 c3 then trim_left rest3 else s
              | EmptyString => s
              end
        | EmptyString => s
        end
  | EmptyString => s
  end.

Definition digit_value (radix : Z) (c : ascii) : option Z :=
  let n := Z.of_nat (nat_of_ascii c) in
  let v :=
    (if (48 <=? n) && (n <=? 57) then n - 48
     else if (97 <=? n) && (n <=? 122) then n - 87
     else if (65 <=? n) && (n <=? 90) then n - 55
     else 99)%Z in
  if (v <? radix)%Z then Some v else None.

Fixpoint read_digits (radix : Z) (s : string) (acc : option Z) : option Z :=
  match s with
  | String c rest =>
      match digit_value radix c with
      | Some d =>
          read_digits radix rest
            (Some (match acc with Some a => a * radix + d | None => d end)%Z)
      | None => acc
      end
  | EmptyString => acc
  end.

Definition parseInt (s : string) : option Z :=
  let s := trim_left s in
  let '(neg, s) :=
    match s with
    | String "-" rest => (true, rest)
    | String "+" rest => (false, rest)
    | _ => (false, s)
    end in
  let '(radix, s) :=
    match s with
    | String "0" (String "x" rest) | String "0" (String "X" rest) => (16%Z, rest)
    | _ => (10%Z, s)
    end in
  option_map (fun n => if neg then (- n)%Z else n) (read_digits radix s None).

(** [arr.map((x, idx) => f x idx)]. *)
Fixpoint mapi_from {A B} (f : A -> nat -> B) (idx : nat) (l : list A) : list B :=
  match l with
  | [] => []
  | x :: rest => f x idx :: mapi_from f (S idx) rest
  end.

Definition mapi {A B} (f : A -> nat -> B) (l : list A) : list B :=
  mapi_from f 0 l.

(** A template literal: text interleaved with interpolated numbers.  The
    rendering of a number as text is left to the host. *)
Inductive Part :=
  | Str (s : string)
  | Num (x : float).

Definition Template := list Part.

(* ================================================================== *)
(** * Data model *)
(* ================================================================== *)

Record LngLat := mkLngLat { lng : float; lat : float }.

Record Step := mkStep {
  instruction : string;
  step_distanceMeters : float;
  step_durationSeconds : float
}.

Record ScoreDetails := mkScoreDetails {
  timeScore : float;
  distanceScore : float;
  trafficScore : float;
  weatherScore : float;
  preferenceScore : float
}.

(** An element of [RoutePlanResult.routes].  [tolls] and [trafficLights]
    are optional fields: the routes built by [planRoute] always carry
    them, the built-in result of [getMockResult] does not. *)
Record Route := mkRoute {
  id : string;
  distanceMeters : float;
  durationSeconds : float;
  score : float;
  scoreDetails : ScoreDetails;
  trafficStatus : option string;
  weatherImpact : option string;
  steps : list Step;
  points : list LngLat;
  tolls : option float;
  trafficLights : option float
}.

(** WeatherService.ts *)
Record WeatherInfo := mkWeatherInfo {
  city : string;
  weather : string;
  temperature : string;
  windDirection : string;
  windPower : string;
  humidity : string;
  reportTime : string
}.

Record WeatherResult := mkWeatherResult {
  w_success : bool;
  w_live : option WeatherInfo
}.

Record WeatherImpact := mkWeatherImpact {
  impact : float;
  level : string;
  reason : string
}.

(** TrafficService.ts *)
Record TrafficStatus := mkTrafficStatus {
  statusText : string;
  expedite : float;
  congested : float;
  blocked : float
}.

Record TrafficResult := mkTrafficResult {
  t_success : bool;
  t_status : option TrafficStatus
}.

Record TrafficEval := mkTrafficEval {
  avgStatus : string;
  congestionRate : float;
  tips : string
}.

(** The planner's result.  The decoration computed after ranking (POIs
    along the recommended route, the summary text and the time stamp)
    does not feed back into [routes] or [recommendedRouteId] and is not
    part of the model. *)
Record RoutePlanResult := mkRoutePlanResult {
  recommendedRouteId : string;
  routes : list Route;
  r_weather : option WeatherInfo
}.

(** One element of [data.route.paths] in the path source's answer, after
    the numeric conversions of [planRoute] ([parseInt], NaN included) and
    [parseRoutePoints]; [p_steps] is already cut to ten steps. *)
Record RawPath := mkRawPath {
  p_distance : float;
  p_duration : float;
  p_steps : list Step;
  p_points : list LngLat;
  p_tolls : float;
  p_traffic_lights : float
}.

Record UserPreferences := mkUserPreferences {
  avoidHighway : bool;
  avoidToll : bool
}.

(** [RoutePlanParams]: the fields that reach scoring.  An absent
    optional flag is [None]. *)
Record RoutePlanParams := mkRoutePlanParams {
  preferences : option (list string);
  considerTraffic : option bool;
  considerWeather : option bool
}.



(** [flag !== false] *)
Definition not_false (flag : option bool) : bool :=
  match flag with Some false => false | _ => true end.

(* ================================================================== *)
(** * WeatherService.evaluateWeatherImpact *)
(* ================================================================== *)

Definition evaluateWeatherImpact (w : WeatherInfo) : WeatherImpact :=
  let weatherType := weather w in
  let has := str_includes weatherType in
  let '(i1, r1) :=
    if has "暴雨" || has "大暴雨" then (0 + 0.5, ["暴雨"])
    else if has "大雨" || has "中雨" then (0 + 0.3, ["降雨"])
    else if has "雨" then (0 + 0.1, ["小雨"])
    else (0, []) in
  let '(i2, r2) :=
    if has "暴雪" || has "大雪" then (i1 + 0.6, r1 ++ ["大雪"])
    else if has "雪" then (i1 + 0.3, r1 ++ ["降雪"])
    else (i1, r1) in
  let '(i3, r3) :=
    if has "大雾" || has "浓雾" then (i2 + 0.5, r2 ++ ["大雾"])
    else if has "雾" then (i2 + 0.2, r2 ++ ["有雾"])
    else (i2, r2) in
  let '(i4, r4) :=
    if has "霾" then (i3 + 0.15, r3 ++ ["雾霾"]) else (i3, r3) in
  let wind := match parseInt (windPower w) with Some n => n | None => 0%Z end in
  let '(i5, r5) :=
    if (8 <=? wind)%Z then (i4 + 0.3, r4 ++ ["强风"])
    else if (6 <=? wind)%Z then (i4 + 0.15, r4 ++ ["大风"])
    else (i4, r4) in
  let i := JS.Math_min [i5; 1] in
  let lv :=
    if 0.5 <=? i then "严重影响"
    else if 0.3 <=? i then "中度影响"
    else if 0.1 <=? i then "轻微影响"
    else "无影响" in
  mkWeatherImpact i lv
    (match r5 with [] => "天气良好" | _ => String.concat "、" r5 end).

(* ================================================================== *)
(** * TrafficService.evaluateRouteTraffic *)
(* ================================================================== *)

Section TrafficService.

(** The traffic snapshot source ([getTrafficByRectangle], an HTTP
    round trip).  A missing credential, a refused request, a network
    or a parse error all come back as a result whose [t_success] is
    [false]: the function catches them itself. *)
Variable getTrafficByRectangle : float -> float -> float -> float -> TrafficResult.

Definition evaluateRouteTraffic (pts : list LngLat) : TrafficEval :=
  match pts with
  | [] | [_] => mkTrafficEval "unknown" 0 "路径点不足"
  | p0 :: _ =>
      let minLng := fold_left (fun m p => JS.Math_min [m; lng p]) pts (lng p0) in
      let maxLng := fold_left (fun m p => JS.Math_max [m; lng p]) pts (lng p0) in
      let minLat := fold_left (fun m p => JS.Math_min [m; lat p]) pts (lat p0) in
      let maxLat := fold_left (fun m p => JS.Math_max [m; lat p]) pts (lat p0) in
      let padding := 0.01 in
      let result :=
        getTrafficByRectangle (minLng - padding) (minLat - padding)
                              (maxLng + padding) (maxLat + padding) in
      match t_success result, t_status result with
      | true, Some status =>
          let rate := congested status + blocked status in
          let tips :=
            if 50 <? rate then "前方路段严重拥堵，建议绕行"
            else if 30 <? rate then "前方有轻微拥堵，请耐心等待"
            else "前方道路畅通" in
          mkTrafficEval (statusText status) rate tips
      | _, _ => mkTrafficEval "unknown" 0 "无法获取路况"
      end
  end.

End TrafficService.

(* ================================================================== *)
(** * RoutePlanEngine *)
(* ================================================================== *)

(** [normalizeScore(routes, field, value, lowerIsBetter)]; the field name
    is the projection [field]. *)
Definition normalizeScore (routes : list Route) (field : Route -> float)
    (value : float) (lowerIsBetter : bool) : float :=
  let values := map field routes in
  let min := JS.Math_min values in
  let max := JS.Math_max values in
  if max =? min then 1
  else
    let normalized := (value - min) / (max - min) in
    if lowerIsBetter then 1 - normalized else normalized.

(** [route.tolls > 0]; an absent field compares as NaN. *)
Definition tolls_positive (route : Route) : bool :=
  match tolls route with Some t => 0 <? t | None => false end.

Definition calculatePreferenceScore (route : Route) (prefs : list string) : float :=
  let score := 1 in
  let score :=
    if includes prefs "avoid_toll" && tolls_positive route
    then score - 0.2 else score in
  let score :=
    if includes prefs "fastest"
    then score + timeScore (scoreDetails route) * 0.1 else score in
  JS.Math_max [0; JS.Math_min [1; score]].

Record Weights := mkWeights {
  w_time : float;
  w_distance : float;
  w_traffic : float;
  w_weather : float;
  w_preference : float
}.

Definition weightProfile (prefs : list string) : Weights :=
  if includes prefs "fastest" then mkWeights 0.4 0.15 0.25 0.1 0.1
  else if includes prefs "shortest" then mkWeights 0.2 0.4 0.2 0.1 0.1
  else mkWeights 0.3 0.2 0.25 0.1 0.15.

Definition calculateFinalScore (details : ScoreDetails) (prefs : list string) : float :=
  let weights := weightProfile prefs in
  timeScore details * w_time weights +
  distanceScore details * w_distance weights +
  trafficScore details * w_traffic weights +
  weatherScore details * w_weather weights +
  preferenceScore details * w_preference weights.

(** [routes.sort((a, b) => b.score - a.score)].

    [Array.prototype.sort] is a stable sort; the comparator's value [v]
    asks for its second argument to come first when [v > 0], and a NaN
    counts as +0.  For a comparator that orders the elements
    consistently the sorted array is unique, and it is the one the
    insertion sort below builds, taking the elements in array order and
    placing each behind everything it does not beat.  The comparator
    here is consistent when all scores are numbers, and also when it
    is NaN for every pair (every score NaN, or two routes of which one
    scores NaN): nothing moves then.  For any other mix of NaN and
    numbers the standard leaves the order to the engine, and the model
    stands for one of the orders an engine may produce; what is proved
    of the order below is proved for finite scores. *)
Definition compareFn (a b : Route) : float := score b - score a.

Fixpoint sort_insert (x : Route) (sorted : list Route) : list Route :=
  match sorted with
  | [] => [x]
  | y :: rest =>
      if 0 <? compareFn y x then x :: sorted else y :: sort_insert x rest
  end.

Definition sort (l : list Route) : list Route :=
  fold_left (fun sorted x => sort_insert x sorted) l [].

(** [a] may stand directly before [b] in an array sorted by descending
    score. *)
Definition descending (a b : Route) : Prop := (score b <=? score a) = true.

(** The route in front of the sorted prefix once [x] has been inserted
    behind a prefix whose front is [front]. *)
Definition lead (front : option Route) (x : Route) : option Route :=
  match front with
  | None => Some x
  | Some y => if 0 <? compareFn y x then Some x else Some y
  end.

Definition getMockResult : RoutePlanResult :=
  mkRoutePlanResult "r1"
    [ mkRoute "r1" 12500 1500 0.92
        (mkScoreDetails 0.9 0.85 0.8 1 0.9)
        (Some "畅通") (Some "无影响")
        [ mkStep "从起点出发" 800 120;
          mkStep "上主干道行驶" 9000 1020;
          mkStep "驶入目的地区域" 2700 360 ]
        [ mkLngLat 116.397 39.908; mkLngLat 116.41 39.91;
          mkLngLat 116.43 39.92; mkLngLat 116.45 39.93 ]
        None None;
      mkRoute "r2" 11000 1620 0.88
        (mkScoreDetails 0.8 0.9 0.85 1 0.85)
        (Some "畅通") (Some "无影响")
        [ mkStep "从起点出发" 600 90;
          mkStep "途经次干道" 9400 1200;
          mkStep "驶入目的地区域" 1000 330 ]
        [ mkLngLat 116.397 39.908; mkLngLat 116.40 39.905;
          mkLngLat 116.42 39.907; mkLngLat 116.44 39.909 ]
        None None ]
    None.

(** How a call of the asynchronous [planRoute] ends: its promise is
    fulfilled with a result or rejected with an error. *)
Inductive Completion (A : Type) :=
  | Fulfilled (value : A)
  | Rejected (error : string).
Arguments Fulfilled {A} value.
Arguments Rejected {A} error.

Section RoutePlanEngine.

(** The traffic source as one planning call meets it.  The scoring loop
    awaits the traffic evaluation of a candidate before it turns to the
    next one, and an evaluation sends one request at most:
    [getTrafficByRectangle idx] is what the source answers, for every
    rectangle it could be asked about, to the request sent while the
    candidate at position [idx] of the batch is scored.  Two candidates
    that span the same rectangle may thus get different answers, and
    one request may fail while the others succeed. *)
Variable getTrafficByRectangle : nat -> float -> float -> float -> float -> TrafficResult.

(** The preferences of the call merged with the user's defaults. *)
Definition mergePreferences (userPrefs : UserPreferences)
    (params : RoutePlanParams) : list string :=
  let prefs := match preferences params with Some l => l | None => [] end in
  let prefs :=
    if avoidHighway userPrefs && negb (includes prefs "avoid_highway")
    then prefs ++ ["avoid_highway"] else prefs in
  if avoidToll userPrefs && negb (includes prefs "avoid_toll")
  then prefs ++ ["avoid_toll"] else prefs.

(** [paths.slice(0, 3).map((p, idx) => ...)] *)
Definition parseRoutes (paths : list RawPath) : list Route :=
  mapi (fun p idx =>
          mkRoute ("r" ++ NilZero.string_of_uint (Nat.to_uint (idx + 1)))%string
            (p_distance p) (p_duration p) 0
            (mkScoreDetails 0 0 0 0 0)
            None None
            (p_steps p) (p_points p)
            (Some (p_tolls p)) (Some (p_traffic_lights p)))
       (firstn 3 paths).

(** The body of [for (const route of routes)] for the route at position
    [idx] of the batch.  The loop updates the score fields of [route] in
    place; [normalizeScore] reads only [durationSeconds] and
    [distanceMeters] of the batch, which the loop never writes, so every
    route is scored against the batch as parsed. *)
Definition scoreRoute (idx : nat) (params : RoutePlanParams) (wth : option WeatherInfo)
    (prefs : list string) (batch : list Route) (route : Route) : Route :=
  let '(status, traffic) :=
    if not_false (considerTraffic params) && negb (List.length (points route) =? 0)%nat
    then
      let trafficEval :=
        evaluateRouteTraffic (getTrafficByRectangle idx) (points route) in
      (Some (avgStatus trafficEval), 1 - congestionRate trafficEval / 100)
    else (trafficStatus route, 0.8) in
  let '(wimpact, wscore) :=
    match wth with
    | Some w =>
        let weatherEval := evaluateWeatherImpact w in
        (Some (level weatherEval), 1 - impact weatherEval)
    | None => (weatherImpact route, 1)
    end in
  let time := normalizeScore batch durationSeconds (durationSeconds route) true in
  let dist := normalizeScore batch distanceMeters (distanceMeters route) true in
  let scored :=
    mkRoute (id route) (distanceMeters route) (durationSeconds route) (score route)
      (mkScoreDetails time dist traffic wscore (preferenceScore (scoreDetails route)))
      status wimpact (steps route) (points route) (tolls route) (trafficLights route) in
  let pref := calculatePreferenceScore scored prefs in
  let details := mkScoreDetails time dist traffic wscore pref in
  mkRoute (id route) (distanceMeters route) (durationSeconds route)
    (calculateFinalScore details prefs)
    details status wimpact (steps route) (points route) (tolls route)
    (trafficLights route).

(** [routes[0]?.id || 'r1'] *)
Definition recommendedId (sorted : list Route) : string :=
  match sorted with
  | r :: _ => if truthy (id r) then id r else "r1"
  | [] => "r1"
  end.

(** The weather reading the scoring uses: asked for unless
    [considerWeather] is [false], and kept only when the weather source
    succeeded and returned a live reading. *)
Definition weatherFor (params : RoutePlanParams) (weatherResult : WeatherResult)
    : option WeatherInfo :=
  if not_false (considerWeather params) then
    if w_success weatherResult then w_live weatherResult else None
  else None.

(** The candidates after the scoring loop, still in the order of the
    path source. *)
Definition scoreBatch (userPrefs : UserPreferences) (params : RoutePlanParams)
    (paths : list RawPath) (weatherResult : WeatherResult) : list Route :=
  let batch := parseRoutes paths in
  mapi (fun route idx =>
          scoreRoute idx params (weatherFor params weatherResult)
            (mergePreferences userPrefs params) batch route)
       batch.

(** [planRoute(params)].

    [key] is the map credential and [userPrefs] the stored defaults.
    [directions] is the path source's answer, [data.route.paths || []];
    it is [None] when geocoding, the request or the parsing of the
    answer throws, which the [catch] of [planRoute] swallows.
    [weatherResult] is the weather source's answer for the origin.  The
    weather and the traffic source catch their own errors and report
    them in their results. *)
Definition planRoute (key : string) (userPrefs : UserPreferences)
    (params : RoutePlanParams) (directions : option (list RawPath))
    (weatherResult : WeatherResult) : Completion RoutePlanResult :=
  if truthy key then
    match directions with
    | Some paths =>
        if (List.length (parseRoutes paths) =? 0)%nat then Fulfilled getMockResult
        else
          let sorted := sort (scoreBatch userPrefs params paths weatherResult) in
          Fulfilled (mkRoutePlanResult (recommendedId sorted) sorted
                       (weatherFor params weatherResult))
    | None => Fulfilled getMockResult
    end
  else Fulfilled getMockResult.

End RoutePlanEngine.

(* ================================================================== *)
(** * TrafficEventService *)
(* ================================================================== *)

Inductive EventType :=
  | accident | construction | control | congestion | fog | rain | other.

Inductive EventImpact := minor | moderate | severe.

Record TrafficEvent := mkTrafficEvent {
  ev_id : string;
  ev_type : EventType;
  typeText : string;
  description : string;
  startTime : string;
  endTime : option string;
  location : option LngLat;
  roadName : string;
  ev_impact : EventImpact;
  delayMinutes : option float
}.

(** [TrafficAlert], without its wall-clock [timestamp]. *)
Record TrafficAlert := mkTrafficAlert {
  event : TrafficEvent;
  affectsRoute : bool;
  alternativeAvailable : bool;
  suggestion : Template
}.

(** [lastEvents : Map<string, TrafficEvent>].  A [Map] keeps its entries
    in insertion order; [set] on a present key replaces the value in
    place. *)
Definition EventMap := list (string * TrafficEvent).

Definition map_has (m : EventMap) (k : string) : bool :=
  existsb (fun kv => String.eqb (fst kv) k) m.

Fixpoint map_set (m : EventMap) (k : string) (v : TrafficEvent) : EventMap :=
  match m with
  | [] => [(k, v)]
  | (k', v') :: rest =>
      if String.eqb k' k then (k, v) :: rest else (k', v') :: map_set rest k v
  end.

(** The expiry loop: every entry whose id is not in the latest snapshot
    is deleted. *)
Definition expire (m : EventMap) (events : list TrafficEvent) : EventMap :=
  filter (fun kv => existsb (fun e => String.eqb (ev_id e) (fst kv)) events) m.

Record Bounds := mkBounds {
  minLng : float; minLat : float; maxLng : float; maxLat : float
}.

Definition calculateBounds (pts : list LngLat) : option Bounds :=
  match pts with
  | [] => None
  | p0 :: _ =>
      let padding := 0.02 in
      Some (mkBounds
        (fold_left (fun m p => JS.Math_min [m; lng p]) pts (lng p0) - padding)
        (fold_left (fun m p => JS.Math_min [m; lat p]) pts (lat p0) - padding)
        (fold_left (fun m p => JS.Math_max [m; lng p]) pts (lng p0) + padding)
        (fold_left (fun m p => JS.Math_max [m; lat p]) pts (lat p0) + padding))
  end.

(** [event.delayMinutes || dflt] *)
Definition delay_or (e : TrafficEvent) (dflt : float) : float :=
  match delayMinutes e with
  | Some d => JS.or_number d dflt
  | None => dflt
  end.

Definition createAlert (e : TrafficEvent) : TrafficAlert :=
  let text :=
    match ev_type e with
    | accident =>
        [Str "前方"; Str (roadName e); Str "发生交通事故，预计延误";
         Num (delay_or e 15); Str "分钟，建议绕行"]
    | construction =>
        [Str "前方"; Str (roadName e); Str "道路施工，建议选择其他路线"]
    | congestion =>
        [Str "前方"; Str (roadName e); Str (typeText e); Str "，预计延误";
         Num (delay_or e 10); Str "分钟"]
    | control =>
        [Str "前方"; Str (roadName e); Str "交通管制，请注意绕行"]
    | _ =>
        [Str "前方路段有"; Str (typeText e); Str "，请注意安全"]
    end in
  mkTrafficAlert e true true text.

(** The consecutive pairs [(route[i], route[i + 1])]. *)
Fixpoint segments (route : list LngLat) : list (LngLat * LngLat) :=
  match route with
  | a :: (b :: _) as rest => (a, b) :: segments rest
  | _ => []
  end.

Section Geometry.

(** [Math.cos] of the host. *)
Variable Math_cos : float -> float.

Definition toRad (deg : float) : float := deg * JS.Math_PI / 180.

Definition pointToSegmentDistance (point segStart segEnd : LngLat) : float :=
  let R := 6371000 in
  let avgLat := (lat segStart + lat segEnd) / 2 in
  let dx := (lng point - lng segStart) * Math_cos (toRad avgLat) in
  let dy := lat point - lat segStart in
  let sx := (lng segEnd - lng segStart) * Math_cos (toRad avgLat) in
  let sy := lat segEnd - lat segStart in
  let t := JS.Math_max [0; JS.Math_min [1; (dx * sx + dy * sy) / (sx * sx + sy * sy)]] in
  let closestX := lng segStart + t * (lng segEnd - lng segStart) in
  let closestY := lat segStart + t * (lat segEnd - lat segStart) in
  let distLng := (lng point - closestX) * Math_cos (toRad avgLat) in
  let distLat := lat point - closestY in
  JS.Math_sqrt (distLng * distLng + distLat * distLat) * R * JS.Math_PI / 180.

Definition calculateMinDistanceToRoute (route : list LngLat) (point : LngLat) : float :=
  fold_left
    (fun minDist seg =>
       JS.Math_min [minDist; pointToSegmentDistance point (fst seg) (snd seg)])
    (segments route) infinity.

Definition checkEventAffectsRoute (route : list LngLat) (e : TrafficEvent) : bool :=
  match location e with
  | None => false
  | Some loc =>
      if (List.length route =? 0)%nat then false
      else calculateMinDistanceToRoute route loc <? 500
  end.

(** The [for (const event of events)] loop of [checkTrafficEvents]: the
    map after the loop and the alerts handed to [notifyAlert], in
    order. *)
Fixpoint checkNewEvents (route : list LngLat) (last : EventMap)
    (events : list TrafficEvent) : EventMap * list TrafficAlert :=
  match events with
  | [] => (last, [])
  | e :: rest =>
      let isNew := negb (map_has last (ev_id e)) in
      let affects := checkEventAffectsRoute route e in
      let alerts := if isNew && affects then [createAlert e] else [] in
      let '(last', more) := checkNewEvents route (map_set last (ev_id e) e) rest in
      (last', alerts ++ more)
  end.

Record Monitor := mkMonitor {
  isMonitoring : bool;
  monitorTimer : nat;
  currentRoute : list LngLat;
  lastEvents : EventMap
}.

(** The part of [checkTrafficEvents] that runs once the awaited
    [fetchTrafficEvents] has settled.  [Some events] is the snapshot it
    returned; [None] is a request or parse error, which the [catch]
    logs.  The monitor is read as it is at that moment. *)
Definition checkTrafficEvents_resume (m : Monitor)
    (fetched : option (list TrafficEvent)) : Monitor * list TrafficAlert :=
  match fetched with
  | None => (m, [])
  | Some events =>
      let '(last, alerts) := checkNewEvents (currentRoute m) (lastEvents m) events in
      (mkMonitor (isMonitoring m) (monitorTimer m) (currentRoute m)
         (expire last events), alerts)
  end.

(** The service and the host around it: the credential, the interval
    timers that are set, and the rectangles of the fetches under way. *)
Record Runtime := mkRuntime {
  monitor : Monitor;
  amapKey : string;
  timers : list nat;
  nextTimer : nat;
  pending : list Bounds
}.

(** The part of [checkTrafficEvents] that runs at once: the two guards,
    then the request for the padded bounds of the route is sent.
    ([calculateBounds] throws on an empty route, inside the [try]; the
    first guard excludes it.) *)
Definition checkTrafficEvents_begin (rt : Runtime) : Runtime :=
  if (List.length (currentRoute (monitor rt)) <? 2)%nat then rt
  else if negb (truthy (amapKey rt)) then rt
  else
    match calculateBounds (currentRoute (monitor rt)) with
    | Some bounds =>
        mkRuntime (monitor rt) (amapKey rt) (timers rt) (nextTimer rt)
          (pending rt ++ [bounds])
    | None => rt
    end.

Inductive Action :=
  | StartMonitoring (routePoints : list LngLat)
  | StopMonitoring
  | UpdateRoute (routePoints : list LngLat)
  | TimerFires (timer : nat)
  | FetchSettles (fetched : option (list TrafficEvent)).

Definition with_monitor (rt : Runtime) (m : Monitor) : Runtime :=
  mkRuntime m (amapKey rt) (timers rt) (nextTimer rt) (pending rt).

Definition step (rt : Runtime) (a : Action) : Runtime * list TrafficAlert :=
  match a with
  | StartMonitoring routePoints =>
      let m := monitor rt in
      let rt1 :=
        checkTrafficEvents_begin
          (with_monitor rt (mkMonitor true (monitorTimer m) routePoints (lastEvents m))) in
      let m1 := monitor rt1 in
      let t := nextTimer rt1 in
      (mkRuntime (mkMonitor (isMonitoring m1) t (currentRoute m1) (lastEvents m1))
         (amapKey rt1) (t :: timers rt1) (S t) (pending rt1), [])
  | StopMonitoring =>
      let m := monitor rt in
      let live :=
        if (monitorTimer m =? 0)%nat then timers rt
        else filter (fun t => negb (t =? monitorTimer m)%nat) (timers rt) in
      (mkRuntime (mkMonitor false 0 [] []) (amapKey rt) live (nextTimer rt) (pending rt), [])
  | UpdateRoute routePoints =>
      let m := monitor rt in
      (with_monitor rt (mkMonitor (isMonitoring m) (monitorTimer m) routePoints (lastEvents m)), [])
  | TimerFires timer =>
      if existsb (Nat.eqb timer) (timers rt) && isMonitoring (monitor rt)
      then (checkTrafficEvents_begin rt, [])
      else (rt, [])
  | FetchSettles fetched =>
      match pending rt with
      | [] => (rt, [])
      | _ :: others =>
          let '(m, alerts) := checkTrafficEvents_resume (monitor rt) fetched in
          (mkRuntime m (amapKey rt) (timers rt) (nextTimer rt) others, alerts)
      end
  end.

(** A run: the actions are taken in order, the alerts are collected. *)
Fixpoint run (rt : Runtime) (actions : list Action) : Runtime * list TrafficAlert :=
  match actions with
  | [] => (rt, [])
  | a :: rest =>
      let '(rt1, alerts) := step rt a in
      let '(rt2, more) := run rt1 rest in
      (rt2, alerts ++ more)
  end.

End Geometry.

(** A service that was just constructed, on a host whose first timer
    handle is 1. *)
Definition initialRuntime (key : string) : Runtime :=
  mkRuntime (mkMonitor false 0 [] []) key [] 1 [].

(** The alerts raised for the event id [i]. *)
Definition alerts_for (i : string) (alerts : list TrafficAlert) : list TrafficAlert :=
  filter (fun a => String.eqb (ev_id (event a)) i) alerts.

(** The snapshot reports the event id [i]. *)
Definition reports (i : string) (events : list TrafficEvent) : bool :=
  existsb (fun e => String.eqb (ev_id e) i) events.

(** Monitoring goes on and every snapshot that arrives still reports
    [i]: the action is not a stop, and a snapshot it delivers reports
    [i]. *)
Definition keeps_sighting (i : string) (a : Action) : bool :=
  match a with
  | StopMonitoring => false
  | FetchSettles (Some events) => reports i events
  | _ => true
  end.

(** Neither [startMonitoring] nor [updateRoute] is called. *)
Definition leaves_route (a : Action) : bool :=
  match a with
  | StartMonitoring _ | UpdateRoute _ => false
  | _ => true
  end.

(** [startMonitoring] is not called. *)
Definition stays_stopped (a : Action) : bool :=
  match a with
  | StartMonitoring _ => false
  | _ => true
  end.

(** The monitor is idle, holds no timer and no active event, and no
    fetch of it is under way. *)
Definition at_rest (rt : Runtime) : Prop :=
  isMonitoring (monitor rt) = false /\
  monitorTimer (monitor rt) = 0%nat /\
  lastEvents (monitor rt) = [] /\
  pending rt = [].

(* ================================================================== *)
(** * RouteServiceAbility *)
(* ================================================================== *)

Definition REROUTE_EVENT_ID : Z := 10004.

(** What [suggestReroute] sends out: an event on the bus and a
    notification. *)
Inductive Effect :=
  | Emit (eventId : Z) (reason : string) (newRoute : RoutePlanResult) (timeSaved : float)
  | Notify (title : string) (content : Template) (kind : string).

Record Service := mkService {
  routeEngine : bool;               (* the engine exists (after [onCreate]) *)
  s_currentRoute : list LngLat;
  currentDestination : string;
  isNavigating : bool
}.


Section RouteServiceAbility.

(** [Math.sin], [Math.cos] and [Math.atan2] of the host. *)
Variable Math_sin Math_cos : float -> float.
Variable Math_atan2 : float -> float -> float.

Definition calculateDistance (p1 p2 : LngLat) : float :=
  let R := 6371000 in
  let dLat := (lat p2 - lat p1) * JS.Math_PI / 180 in
  let dLng := (lng p2 - lng p1) * JS.Math_PI / 180 in
  let a :=
    Math_sin (dLat / 2) * Math_sin (dLat / 2) +
    Math_cos (lat p1 * JS.Math_PI / 180) * Math_cos (lat p2 * JS.Math_PI / 180) *
    Math_sin (dLng / 2) * Math_sin (dLng / 2) in
  R * 2 * Math_atan2 (JS.Math_sqrt a) (JS.Math_sqrt (1 - a)).

Definition estimateDuration (pts : list LngLat) : float :=
  if (List.length pts <? 2)%nat then 0
  else
    let totalDistance :=
      fold_left (fun total seg => total + calculateDistance (fst seg) (snd seg))
        (segments pts) 0 in
    (totalDistance / 1000) / 40 * 3600.

(** [oldDuration] of [suggestReroute]. *)
Definition oldDurationOf (s : Service) : float :=
  if (0 <? List.length (s_currentRoute s))%nat
  then estimateDuration (s_currentRoute s) else 0.

(** [suggestReroute(reason)], given how the awaited [planRoute] call
    ended. *)
Definition suggestReroute (s : Service) (reason : string)
    (planned : Completion RoutePlanResult) : list Effect :=
  if negb (routeEngine s) || negb (truthy (currentDestination s)) then []
  else
    match planned with
    | Rejected _ => []
    | Fulfilled newRoute =>
        match routes newRoute with
        | [] => []
        | bestRoute :: _ =>
            let oldDuration := oldDurationOf s in
            let newDuration := durationSeconds bestRoute in
            if (oldDuration =? 0) || (newDuration <? oldDuration * 0.8) then
              let timeSaved := JS.Math_round ((oldDuration - newDuration) / 60) in
              [ Emit REROUTE_EVENT_ID reason newRoute timeSaved;
                Notify "发现更优路线"
                  [Str reason; Str "，已找到替代路线，可节省"; Num timeSaved; Str "分钟"]
                  "reroute_suggestion" ]
            else []
        end
    end.



End RouteServiceAbility.

(* ================================================================== *)
(** * RoutePlanEngine: strategy and coordinates *)
(* ================================================================== *)

(** [a || b] on strings, and for an optional text [a]. *)
Definition or_string (a b : string) : string := if truthy a then a else b.

Definition text_or (a : option string) (b : string) : string :=
  match a with
  | Some s => or_string s b
  | None => b
  end.

(** An optional text is truthy when it is present and not empty. *)
Definition present (a : option string) : bool :=
  match a with Some s => truthy s | None => false end.

(** The stored addresses of [getUserPreferences()]. *)
Record Addresses := mkAddresses {
  homeAddress : option string;
  workAddress : option string
}.

Definition getRouteStrategy (preferences : list string) : string :=
  if includes preferences "avoid_highway" && includes preferences "avoid_toll" then "6"
  else if includes preferences "avoid_highway" then "5"
  else if includes preferences "avoid_toll" then "6"
  else if includes preferences "shortest" then "2"
  else if includes preferences "fastest" then "4"
  else if includes preferences "economical" then "1"
  else "0".

(** [s.split(sep)] for a separator of one ASCII character. *)
Fixpoint str_split (sep : ascii) (s : string) : list string :=
  match s with
  | EmptyString => [EmptyString]
  | String c rest =>
      if Ascii.eqb c sep then EmptyString :: str_split sep rest
      else
        match str_split sep rest with
        | piece :: pieces => String c piece :: pieces
        | [] => [String c EmptyString]
        end
  end.

(** A field of the answer that is read as text: a text, a value that
    is falsy (an absent field included), or another value. *)
Inductive Field :=
  | Text (s : string)
  | Falsy
  | Other.

(** [params.origin] and [params.destination]: an address or a pair of
    coordinates. *)
Inductive Place :=
  | Address (text : string)
  | Coordinates (p : LngLat).

(** A point whose coordinates are numbers. *)
Definition is_number (p : LngLat) : Prop := JS.isNaN (lng p) = false /\ JS.isNaN (lat p) = false.

Section Parsing.

(** [parseFloat] of the host. *)
Variable parseFloat : string -> float.

(** The body of [pl.split(';').forEach(...)]: an element that is
    missing from [pair.split(',')] is [undefined], which [parseFloat]
    reads as the text [undefined]. *)
Definition parsePair (pair : string) : list LngLat :=
  let parts := str_split "," pair in
  let lng := parseFloat (nth 0 parts "undefined") in
  let lat := parseFloat (nth 1 parts "undefined") in
  if negb (JS.isNaN lng) && negb (JS.isNaN lat) then [mkLngLat lng lat] else [].

Definition parsePolyline (pl : string) : list LngLat :=
  flat_map parsePair (str_split ";" pl).

(** [parseRoutePoints(path)], given [s?.polyline] for each step of the
    path. *)
Definition parseRoutePoints (polylines : list Field) : list LngLat :=
  flat_map (fun pl =>
              match pl with
              | Text s => parsePolyline s
              | Falsy => parsePolyline ""
              | Other => []
              end) polylines.

(** The geocoding request for an address: the [location] text of its
    first match (the empty text when there is none), or [None] when the
    request or the reading of its answer throws. *)
Variable geocode : string -> option string.

(** [toCoord(p)]; [None] when the geocoding throws. *)
Definition toCoord (userPrefs : Addresses) (p : Place) : option LngLat :=
  match p with
  | Address text =>
      let resolve (address : string) : option LngLat :=
        match geocode address with
        | Some loc =>
            let parts := str_split "," loc in
            let lng := parseFloat (nth 0 parts "undefined") in
            let lat := parseFloat (nth 1 parts "undefined") in
            if negb (JS.isNaN lng) && negb (JS.isNaN lat) then Some (mkLngLat lng lat)
            else Some (mkLngLat 116.397 39.908)
        | None => None
        end in
      if String.eqb text "家庭地址" && present (homeAddress userPrefs)
      then resolve (text_or (homeAddress userPrefs) "")
      else if String.eqb text "工作地址" && present (workAddress userPrefs)
      then resolve (text_or (workAddress userPrefs) "")
      else if String.eqb text "当前位置" then Some (mkLngLat 116.397 39.908)
      else resolve text
  | Coordinates c => Some (mkLngLat (lng c) (lat c))
  end.

End Parsing.

(* ================================================================== *)
(** * TrafficEventService: active events, callbacks and the fetch *)
(* ================================================================== *)

(** [event.impact === 'severe'] *)
Definition isSevere (e : TrafficEvent) : bool :=
  match ev_impact e with severe => true | _ => false end.

(** The entry of the map under the key [k]. *)
Definition map_get (m : EventMap) (k : string) : option TrafficEvent :=
  option_map snd (find (fun kv => String.eqb (fst kv) k) m).

(** [Array.from(this.lastEvents.values())] *)
Definition getActiveEvents (m : Monitor) : list TrafficEvent :=
  map snd (lastEvents m).

Definition hasSevereEvents (m : Monitor) : bool :=
  existsb isSevere (map snd (lastEvents m)).

(** A route of fewer than two points, and an action that does not give
    the monitor a longer one. *)
Definition short (route : list LngLat) : bool := (List.length route <? 2)%nat.

Definition keeps_short (a : Action) : bool :=
  match a with
  | StartMonitoring routePoints | UpdateRoute routePoints => short routePoints
  | _ => true
  end.

(** ** Alert callbacks

    A callback is a function; [indexOf] compares functions by identity,
    so a callback is named here by a handle. *)
Definition Callback := nat.

(** [arr.indexOf(x)]; [None] is -1. *)
Fixpoint indexOf (arr : list Callback) (x : Callback) : option nat :=
  match arr with
  | [] => None
  | y :: rest => if Nat.eqb y x then Some 0%nat else option_map S (indexOf rest x)
  end.

Definition onAlert (alertCallbacks : list Callback) (callback : Callback) : list Callback :=
  alertCallbacks ++ [callback].

Definition offAlert (alertCallbacks : list Callback) (callback : Callback) : list Callback :=
  match indexOf alertCallbacks callback with
  | Some index => firstn index alertCallbacks ++ skipn (S index) alertCallbacks
  | None => alertCallbacks
  end.

(** ** [fetchTrafficEvents]

    A road of [data.trafficinfo.roads], its fields read as text; a field
    that is absent is the empty text. *)
Record Road := mkRoad {
  rd_name : string;
  rd_status : string;
  rd_lcodes : string;
  rd_polyline : string
}.

(** The clock when a road is handled: [Date.now()] and
    [new Date().toISOString()]. *)
Record Clock := mkClock { now : N; iso : string }.

Section Fetch.
(** [parseFloat] of the host. *)
Variable parseFloat : string -> float.

Definition roadEvent (road : Road) (clock : Clock) : option TrafficEvent :=
  match parseInt (or_string (rd_status road) "0") with
  | Some status =>
      if (3 <=? status)%Z then
        let parts := str_split "," (hd "" (str_split ";" (or_string (rd_polyline road) ""))) in
        let lng := parseFloat (nth 0 parts "undefined") in
        let lat := match nth_error parts 1 with
                   | Some s => JS.or_number (parseFloat s) 0
                   | None => 0
                   end in
        let text := if (status =? 4)%Z then "严重拥堵" else "拥堵" in
        Some (mkTrafficEvent
                ("congestion_" ++
                 or_string (rd_lcodes road) (NilZero.string_of_uint (N.to_uint (now clock))))
                congestion
                text
                (or_string (rd_name road) "未知道路" ++ text)
                (iso clock)
                None
                (Some (mkLngLat (JS.or_number lng 0) lat))
                (or_string (rd_name road) "未知道路")
                (if (status =? 4)%Z then severe else moderate)
                (Some (if (status =? 4)%Z then 20 else 10)))
      else None
  | None => None
  end.

(** [answer] is [data?.trafficinfo?.roads || []] with the clock at each
    road, or [None] when the request or the parsing of its answer
    throws. *)
Definition fetchTrafficEvents (answer : option (list (Road * Clock)))
    : option (list TrafficEvent) :=
  option_map
    (flat_map (fun rc => match roadEvent (fst rc) (snd rc) with
                         | Some e => [e]
                         | None => []
                         end))
    answer.

End Fetch.

(* ================================================================== *)
(** * RouteServiceAbility: weather watch, alerts and navigation *)
(* ================================================================== *)

Definition WEATHER_CHANGE_EVENT_ID : Z := 10003.

Definition badWeathers : list string := ["暴雨"; "大雨"; "大雪"; "暴雪"; "大雾"; "浓雾"].

Definition detectWeatherChange (oldWeather newWeather : WeatherInfo) : bool :=
  if negb (String.eqb (weather oldWeather) (weather newWeather)) then
    existsb (fun bad => str_includes (weather newWeather) bad &&
                        negb (str_includes (weather oldWeather) bad))
      badWeathers
  else false.

(** What the ability sends out: the effects of a reroute suggestion and
    of [sendNotification], and the weather-change event. *)
Inductive Sent :=
  | Plain (e : Effect)
  | WeatherEvent (eventId : Z) (weather : WeatherInfo) (impact : WeatherImpact).

(** The ability once [onCreate] has run: its own fields, the weather it
    read last, and the traffic monitor it owns with the host around
    it. *)
Record Ability := mkAbility {
  service : Service;
  lastWeather : option WeatherInfo;
  trafficEventService : Runtime
}.

(** The data of a service event: [action], [destination] (the empty
    text when absent) and [JSON.parse(routePoints || '[]')], which is
    [None] when the parsing throws. *)
Record ServiceEvent := mkServiceEvent {
  action : string;
  destination : string;
  routePoints : option (list LngLat)
}.

(** The parameters of the [want] handed to [onStart]: [action] and
    [destination] (the empty text when absent) and [routePoints], which
    is [None] when it is absent.  An array is truthy, the empty one
    included. *)
Record Want := mkWant {
  want_action : string;
  want_destination : string;
  want_routePoints : option (list LngLat)
}.

(** What happens to the ability between [onCreate] and [onDestroy]: the
    framework calls [onStart] with a want, a service event arrives, an
    interval timer of the monitor fires, a fetch of the monitor settles,
    or the weather source answers a weather check ([planned] is how the
    planning call of the reroute suggestion ends if one is made). *)
Inductive Happening :=
  | Starts (want : Want)
  | Arrives (eventData : ServiceEvent)
  | Fires (timer : nat)
  | Settles (fetched : option (list TrafficEvent))
  | Reads (result : WeatherResult) (planned : Completion RoutePlanResult).

Section AbilityModel.

Variable Math_sin Math_cos : float -> float.
Variable Math_atan2 : float -> float -> float.

(** The text of a number in a template literal. *)
Variable Number_toString : float -> string.

(** [handleWeatherChange(weather)], given how the planning call of the
    reroute suggestion ends if one is made. *)
Definition handleWeatherChange (s : Service) (w : WeatherInfo)
    (planned : Completion RoutePlanResult) : list Sent :=
  let weatherEval := evaluateWeatherImpact w in
  if 0.3 <=? impact weatherEval then
    [ Plain (Notify "天气变化提醒"
               [Str "当前"; Str (weather w); Str "，"; Str (reason weatherEval);
                Str "，请注意行车安全"]
               "weather_alert");
      WeatherEvent WEATHER_CHANGE_EVENT_ID w weatherEval ] ++
    (if (0.5 <=? impact weatherEval) && isNavigating s
     then map Plain
            (suggestReroute Math_sin Math_cos Math_atan2 s
               "天气恶化，建议重新规划路线" planned)
     else [])
  else [].

(** [checkWeather()], from the moment the awaited [getLiveWeather] has
    returned [result]; [key] is the map credential. *)
Definition checkWeather (key : string) (a : Ability) (result : WeatherResult)
    (planned : Completion RoutePlanResult) : Ability * list Sent :=
  if negb (truthy key) then (a, [])
  else
    match w_success result, w_live result with
    | true, Some currentWeather =>
        let sent :=
          match lastWeather a with
          | Some last =>
              if isNavigating (service a) then
                if detectWeatherChange last currentWeather
                then handleWeatherChange (service a) currentWeather planned
                else []
              else []
          | None => []
          end in
        (mkAbility (service a) (Some currentWeather) (trafficEventService a), sent)
    | _, _ => (a, [])
    end.

Definition render (t : Template) : string :=
  String.concat ""
    (map (fun part => match part with Str s => s | Num x => Number_toString x end) t).

(** [handleTrafficAlert(alert)], given how the planning call of the
    reroute suggestion ends if one is made. *)
Definition handleTrafficAlert (s : Service) (alert : TrafficAlert)
    (planned : Completion RoutePlanResult) : list Effect :=
  Notify "路况提醒" (suggestion alert) "traffic_alert" ::
  (if isSevere (event alert) && alternativeAvailable alert
   then suggestReroute Math_sin Math_cos Math_atan2 s (render (suggestion alert)) planned
   else []).

Definition startNavigation (a : Ability) (destination : string)
    (routePoints : list LngLat) : Ability :=
  mkAbility (mkService (routeEngine (service a)) routePoints destination true)
    (lastWeather a)
    (fst (step Math_cos (trafficEventService a) (StartMonitoring routePoints))).

Definition stopNavigation (a : Ability) : Ability :=
  mkAbility (mkService (routeEngine (service a)) [] "" false)
    (lastWeather a)
    (fst (step Math_cos (trafficEventService a) StopMonitoring)).

Definition updateRoute (a : Ability) (routePoints : list LngLat) : Ability :=
  mkAbility
    (mkService (routeEngine (service a)) routePoints
       (currentDestination (service a)) (isNavigating (service a)))
    (lastWeather a)
    (fst (step Math_cos (trafficEventService a) (UpdateRoute routePoints))).

Definition handleServiceEvent (a : Ability) (eventData : ServiceEvent) : Ability :=
  if String.eqb (action eventData) "start_navigation" then
    match routePoints eventData with
    | Some points =>
        if truthy (destination eventData) && (0 <? List.length points)%nat
        then startNavigation a (destination eventData) points else a
    | None => a
    end
  else if String.eqb (action eventData) "stop_navigation" then stopNavigation a
  else if String.eqb (action eventData) "update_route" then
    match routePoints eventData with
    | Some newPoints =>
        if (0 <? List.length newPoints)%nat then updateRoute a newPoints else a
    | None => a
    end
  else a.

(** [onStart(want)] *)
Definition onStart (a : Ability) (want : Want) : Ability :=
  if String.eqb (want_action want) "start_navigation" then
    match want_routePoints want with
    | Some routePoints =>
        if truthy (want_destination want)
        then startNavigation a (want_destination want) routePoints else a
    | None => a
    end
  else a.

Definition happen (a : Ability) (h : Happening) : Ability :=
  match h with
  | Starts want => onStart a want
  | Arrives eventData => handleServiceEvent a eventData
  | Fires timer =>
      mkAbility (service a) (lastWeather a)
        (fst (step Math_cos (trafficEventService a) (TimerFires timer)))
  | Settles fetched =>
      mkAbility (service a) (lastWeather a)
        (fst (step Math_cos (trafficEventService a) (FetchSettles fetched)))
  | Reads result planned =>
      fst (checkWeather (amapKey (trafficEventService a)) a result planned)
  end.

End AbilityModel.

(** The ability right after [onCreate]. *)
Definition created (key : string) : Ability :=
  mkAbility (mkService true [] "" false) None (initialRuntime key).

(** The monitor and the ability agree: the monitor watches the route
    the ability holds, it is monitoring exactly when the ability is
    navigating, and while the ability navigates its destination is
    set. *)
Definition in_step (a : Ability) : Prop :=
  currentRoute (monitor (trafficEventService a)) = s_currentRoute (service a) /\
  isMonitoring (monitor (trafficEventService a)) = isNavigating (service a) /\
  (isNavigating (service a) = true -> truthy (currentDestination (service a)) = true).

(** While the ability navigates its route is not empty. *)
Definition on_route (a : Ability) : Prop :=
  isNavigating (service a) = true -> s_currentRoute (service a) <> [].

(** [onStart] is asked to start the navigation to a destination with an
    empty array of route points. *)
Definition starts_without_route (h : Happening) : bool :=
  match h with
  | Starts want =>
      String.eqb (want_action want) "start_navigation" &&
      truthy (want_destination want) &&
      match want_routePoints want with Some [] => true | _ => false end
  | _ => false
  end.

(* ================================================================== *)
(** * TrafficService: status texts, and the card of HomeFormExtension *)
(* ================================================================== *)

(** [getStatusText(status)]; [status] is the text [String(status)]. *)
Definition getStatusText (status : string) : string :=
  if String.eqb status "1" then "畅通"
  else if String.eqb status "2" then "缓行"
  else if String.eqb status "3" then "拥堵"
  else if String.eqb status "4" then "严重拥堵"
  else "未知".

(** [updateCardData]: [commuteStatus] and [trafficColor] for the
    [trafficStatus] of the first route. *)
Definition cardTraffic (trafficStatus : option string) : string * string :=
  match trafficStatus with
  | Some status =>
      if truthy status then
        (status,
         if String.eqb status "畅通" then "#4CAF50"
         else if String.eqb status "缓行" then "#FF9800"
         else if String.eqb status "拥堵" then "#f44336"
         else "#4CAF50")
      else ("畅通", "#4CAF50")
  | None => ("畅通", "#4CAF50")
  end.

(* ================================================================== *)
(** * POIService *)
(* ================================================================== *)

Record POIInfo := mkPOIInfo {
  poi_id : string;
  poi_name : string;
  poi_type : string;
  typecode : string;
  address : string;
  poi_location : LngLat;
  distance : option float;
  tel : option string;
  rating : option float;
  cost : option float;
  photos : list string;
  businessArea : option string;
  openTime : option string
}.

Record POISearchResult := mkPOISearchResult {
  poi_success : bool;
  pois : list POIInfo;
  count : Z;
  poi_error : option string
}.

(** The options of [searchAround] and of [searchAlongRoute]; an absent
    option is [None]. *)
Record AroundOptions := mkAroundOptions {
  o_keyword : option string;
  o_type : option string;
  o_radius : option float;
  o_page : option float;
  o_pageSize : option float;
  o_sortRule : option string
}.

Record AlongOptions := mkAlongOptions {
  a_keyword : option string;
  a_type : option string;
  a_maxDistance : option float
}.

(** [arr.sort(compareFn)] for a comparator that orders the elements
    consistently: the stable insertion sort of [sort], for any element
    type. *)
Section SortBy.
Context {A : Type} (compareFn : A -> A -> float).

Fixpoint insertBy (x : A) (sorted : list A) : list A :=
  match sorted with
  | [] => [x]
  | y :: rest =>
      if 0 <? compareFn y x then x :: sorted else y :: insertBy x rest
  end.

Definition sortBy (l : list A) : list A :=
  fold_left (fun sorted x => insertBy x sorted) l [].

End SortBy.

(** The indices [i = start, start + step, ...] below [n] that the
    sampling loop of [searchAlongRoute] visits; the loop runs at most
    [fuel] times. *)
Fixpoint sampleIndices (fuel i step n : nat) : list nat :=
  match fuel with
  | O => []
  | S fuel' =>
      if (i <? n)%nat then i :: sampleIndices fuel' (i + step) step n else []
  end.

(** The indices of the sample points.  The last sample is compared with
    the last point of the route by identity; the points of a route are
    distinct objects, so the two are the same exactly when their indices
    are. *)
Definition sampleOf (n : nat) : list nat :=
  let step := Nat.max 1 (n / 5) in
  let samplePoints := sampleIndices n 0 step n in
  if (last samplePoints 0 =? n - 1)%nat then samplePoints
  else samplePoints ++ [(n - 1)%nat].

(** [(poi.rating || 0)] *)
Definition rating_or_0 (poi : POIInfo) : float :=
  match rating poi with
  | Some r => JS.or_number r 0
  | None => 0
  end.

(** The inner loop of [searchAlongRoute]: the POIs of one answer whose
    id was not seen are added. *)
Fixpoint addUnseen (seenIds : list string) (allPois : list POIInfo)
    (found : list POIInfo) : list string * list POIInfo :=
  match found with
  | [] => (seenIds, allPois)
  | poi :: rest =>
      if includes seenIds (poi_id poi) then addUnseen seenIds allPois rest
      else addUnseen (seenIds ++ [poi_id poi]) (allPois ++ [poi]) rest
  end.

Section POIService.

(** [searchAround(lng, lat, options)], an HTTP round trip that catches
    its own errors; the first argument counts the calls made, as two
    calls for the same place need not give the same answer. *)
Variable searchAround : nat -> float -> float -> AroundOptions -> POISearchResult.

(** The outer loop of [searchAlongRoute] from the call number [call]
    on. *)
Fixpoint searchSamples (call : nat) (options : option AlongOptions)
    (seenIds : list string) (allPois : list POIInfo)
    (samplePoints : list LngLat) : list string * list POIInfo :=
  match samplePoints with
  | [] => (seenIds, allPois)
  | point :: rest =>
      let result :=
        searchAround call (lng point) (lat point)
          (mkAroundOptions
             (match options with Some o => a_keyword o | None => None end)
             (match options with Some o => a_type o | None => None end)
             (Some (match options with
                    | Some o => match a_maxDistance o with
                                | Some d => JS.or_number d 500
                                | None => 500
                                end
                    | None => 500
                    end))
             None (Some 10) None) in
      let '(seenIds, allPois) :=
        if poi_success result then addUnseen seenIds allPois (pois result)
        else (seenIds, allPois) in
      searchSamples (S call) options seenIds allPois rest
  end.

Definition searchAlongRoute (call : nat) (routePoints : list LngLat)
    (options : option AlongOptions) : POISearchResult :=
  if (List.length routePoints <? 2)%nat
  then mkPOISearchResult false [] 0 (Some "路径点不足")
  else
    let samplePoints :=
      map (fun i => nth i routePoints (mkLngLat 0 0)) (sampleOf (List.length routePoints)) in
    let allPois := snd (searchSamples call options [] [] samplePoints) in
    let sorted := sortBy (fun a b => rating_or_0 b - rating_or_0 a) allPois in
    mkPOISearchResult true (firstn 20 sorted) (Z.of_nat (List.length allPois)) None.

(** The POI is in a successful answer of [searchAround] for a point of
    [points]. *)
Definition found_near (points : list LngLat) (poi : POIInfo) : Prop :=
  exists call point options,
    In point points /\
    poi_success (searchAround call (lng point) (lat point) options) = true /\
    In poi (pois (searchAround call (lng point) (lat point) options)).

End POIService.

(* ================================================================== *)
(** * LLMService and DialogEngine *)
(* ================================================================== *)

(** [arr.slice(-k)]: the last [k] elements. *)
Definition slice_last {A} (k : nat) (arr : list A) : list A :=
  skipn (List.length arr - k) arr.

Record LLMConfig := mkLLMConfig {
  provider : string;
  apiKey : string;
  baseUrl : option string;
  model : option string
}.

Inductive Role := system | user | assistant.

Record LLMMessage := mkLLMMessage {
  m_role : Role;
  m_content : string
}.

(** [LLMResponse], without the text of its [error]. *)
Record LLMResponse := mkLLMResponse {
  llm_success : bool;
  llm_content : string
}.

(** [TravelIntent]; [action] and [mode] hold what the model answered,
    which need not be one of the listed values. *)
Record TravelIntent := mkTravelIntent {
  ti_action : string;
  ti_origin : option string;
  ti_destination : option string;
  ti_time : option string;
  ti_preferences : option (list string);
  poiType : option string;
  poiKeyword : option string;
  ti_mode : option string;
  rawQuery : string;
  confidence : float
}.

(** [Partial<TravelIntent>] as [JSON.parse] gives it. *)
Record ParsedIntent := mkParsedIntent {
  pi_action : option string;
  pi_origin : option string;
  pi_destination : option string;
  pi_time : option string;
  pi_preferences : option (list string);
  pi_poiType : option string;
  pi_poiKeyword : option string;
  pi_mode : option string;
  pi_confidence : option float
}.

Record ChatMessage := mkChatMessage {
  role : Role;
  content : string;
  timestamp : N;
  intent : option TravelIntent
}.

Definition maxHistoryLength : nat := 10.

Definition addToHistory (chatHistory : list ChatMessage) (message : ChatMessage)
    : list ChatMessage :=
  let chatHistory := chatHistory ++ [message] in
  if (maxHistoryLength <? List.length chatHistory)%nat
  then slice_last maxHistoryLength chatHistory
  else chatHistory.

Definition getRecentHistory (chatHistory : list ChatMessage) : list LLMMessage :=
  map (fun msg => mkLLMMessage (role msg) (content msg)) (slice_last 4 chatHistory).

Definition poiPatterns : list string :=
  [ "附近.*?(加油站|充电站|停车场|餐厅|咖啡|超市|银行|医院|药店)";
    "找.*?(加油站|充电站|停车场|餐厅|咖啡|超市|银行|医院|药店)";
    "哪里有(加油站|充电站|停车场|餐厅|咖啡|超市|银行|医院|药店)" ].

Definition routePatterns : list string :=
  [ "(?:带我)?去(.+)"; "(?:导航)?到(.+)"; "怎么去(.+)"; "(.+)怎么走" ].

(** The first [f x] that is defined, in the order of the list. *)
Fixpoint first_some {A B} (f : A -> option B) (l : list A) : option B :=
  match l with
  | [] => None
  | x :: rest => match f x with Some y => Some y | None => first_some f rest end
  end.

Section DialogEngine.

(** [String.prototype.toLowerCase], [trim] and [match] of the host; a
    regular expression is named by its source, and the result of
    [match] is the array of the whole match and its groups, or [None]
    for [null]. *)
Variable toLowerCase : string -> string.
Variable trim : string -> string.
Variable String_match : string -> string -> option (list (option string)).

(** [JSON.parse] of the model's answer; [None] when it throws, or gives
    a value whose fields cannot be read. *)
Variable JSON_parse : string -> option ParsedIntent.

(** The provider call of [LLMService]: the content of the answer, or
    [None] when the request or the parsing of its answer throws. *)
Variable callProvider : LLMConfig -> list LLMMessage -> option string.

(** [SYSTEM_PROMPT] *)
Variable SYSTEM_PROMPT : string.

Definition chat (config : LLMConfig) (messages : list LLMMessage) : LLMResponse :=
  if negb (truthy (apiKey config)) then mkLLMResponse false ""
  else
    let call :=
      if String.eqb (provider config) "qianwen" then callProvider config messages
      else if String.eqb (provider config) "doubao" then callProvider config messages
      else if negb (present (baseUrl config)) then None
      else callProvider config messages in
    match call with
    | Some content => mkLLMResponse true content
    | None => mkLLMResponse false ""
    end.

Definition localParse (input : string) : TravelIntent :=
  let intent := mkTravelIntent "unknown" None None None None None None (Some "drive") input 0.5 in
  let lowerInput := toLowerCase input in
  if str_includes lowerInput "回家" || str_includes lowerInput "去家" then
    mkTravelIntent "plan_route" None (Some "家庭地址") None None None None (Some "drive")
      input 0.95
  else if str_includes lowerInput "去公司" || str_includes lowerInput "去上班" ||
          str_includes lowerInput "通勤" then
    mkTravelIntent "plan_route" None (Some "工作地址") None None None None (Some "drive")
      input 0.95
  else
    match first_some (String_match input) poiPatterns with
    | Some groups =>
        mkTravelIntent "search_poi" None None None None None
          (match nth_error groups 1 with Some g => g | None => None end)
          (Some "drive") input 0.9
    | None =>
        if str_includes lowerInput "路况" || str_includes lowerInput "堵车" ||
           str_includes lowerInput "拥堵" then
          mkTravelIntent "query_traffic" None None None None None None (Some "drive")
            input 0.9
        else if str_includes lowerInput "天气" || str_includes lowerInput "下雨" ||
                str_includes lowerInput "温度" then
          mkTravelIntent "query_weather" None None None None None None (Some "drive")
            input 0.9
        else
          match first_some
                  (fun pattern =>
                     match String_match input pattern with
                     | Some groups =>
                         match nth_error groups 1 with
                         | Some (Some g) => if truthy g then Some g else None
                         | _ => None
                         end
                     | None => None
                     end)
                  routePatterns with
          | Some g =>
              let prefs : option (list string) := None in
              let push (prefs : option (list string)) (p : string) :=
                Some (match prefs with Some l => l | None => [] end ++ [p]) in
              let prefs := if str_includes input "避开高速" then push prefs "avoid_highway"
                           else prefs in
              let prefs := if str_includes input "不走高速" then push prefs "avoid_highway"
                           else prefs in
              let prefs := if str_includes input "最快" then push prefs "fastest"
                           else prefs in
              mkTravelIntent "plan_route" None (Some (trim g)) None prefs None None
                (Some "drive") input 0.8
          | None => intent
          end
    end.

(** [parseIntent(userInput)]: the intent and the history afterwards.
    [now] is the clock of the history entry. *)
Definition parseIntent (config : LLMConfig) (prefs : Addresses) (now : N)
    (chatHistory : list ChatMessage) (userInput : string)
    : TravelIntent * list ChatMessage :=
  let localIntent := localParse userInput in
  let remember (intent : TravelIntent) :=
    (intent, addToHistory chatHistory (mkChatMessage user userInput now (Some intent))) in
  if 0.9 <? confidence localIntent then remember localIntent
  else
    let messages :=
      [mkLLMMessage system SYSTEM_PROMPT] ++ getRecentHistory chatHistory ++
      [mkLLMMessage user userInput] in
    let response := chat config messages in
    if negb (llm_success response) then remember localIntent
    else
      match JSON_parse (llm_content response) with
      | Some parsed =>
          let destination := pi_destination parsed in
          let destination :=
            match destination, homeAddress prefs with
            | Some d, Some home =>
                if String.eqb d "家庭地址" && truthy home then Some home else destination
            | _, _ => destination
            end in
          let destination :=
            match destination, workAddress prefs with
            | Some d, Some work =>
                if String.eqb d "工作地址" && truthy work then Some work else destination
            | _, _ => destination
            end in
          remember
            (mkTravelIntent (text_or (pi_action parsed) "unknown")
               (pi_origin parsed) destination (pi_time parsed) (pi_preferences parsed)
               (pi_poiType parsed) (pi_poiKeyword parsed)
               (Some (text_or (pi_mode parsed) "drive"))
               userInput
               (match pi_confidence parsed with
                | Some c => JS.or_number c 0.8
                | None => 0.8
                end))
      | None => remember localIntent
      end.

End DialogEngine.

(** The input asks for the way home or to work. *)
Definition asks_home_or_work (lowerInput : string) : bool :=
  str_includes lowerInput "回家" || str_includes lowerInput "去家" ||
  str_includes lowerInput "去公司" || str_includes lowerInput "去上班" ||
  str_includes lowerInput "通勤".

(* ================================================================== *)
(** * Rectangles, the unit interval and the integer scale *)
(* ================================================================== *)

(** [p] lies in the rectangle with the given west, south, east and
    north sides, the sides included. *)
Definition inside (p : LngLat) (west south east north : float) : Prop :=
  (west <=? lng p) = true /\ (lng p <=? east) = true /\
  (south <=? lat p) = true /\ (lat p <=? north) = true.

(** Both coordinates of [p] are finite numbers. *)
Definition finite_point (p : LngLat) : Prop :=
  JS.isFinite (lng p) = true /\ JS.isFinite (lat p) = true.

(** [x] lies between 0 and 1, both included. *)
Definition in_unit (x : float) : Prop := (0 <=? x) = true /\ (x <=? 1) = true.

(** The integer of a number from zero on, on the scale on which
    [2^-2148], the square of the least positive number, is 1: the
    numbers of the format and the products of two of them are integers
    on this scale.  Any other value counts as 0. *)
Definition scaled (x : spec_float) : Z :=
  match x with
  | S754_finite false m e => Z.pos m * 2 ^ (e + 2148)
  | _ => 0
  end.

(** [x] is a number of the format from zero on: a zero or a positive
    finite number. *)
Definition counts (x : spec_float) : Prop :=
  match x with
  | S754_zero _ => True
  | S754_finite false m e => bounded prec emax m e = true
  | _ => False
  end.

(* ================================================================== *)
(** * Sample host functions and inputs

    The theorems below hold for every [Math.sin], [Math.cos] and
    [Math.atan2].  To run the model on sample inputs the host functions
    are replaced by truncated power series, accurate for the small
    angles of the samples. *)
(* ================================================================== *)

Module Sample.

Definition cos (x : float) : float :=
  let x2 := x * x in
  1 - x2 / 2 * (1 - x2 / 12 * (1 - x2 / 30 * (1 - x2 / 56 * (1 - x2 / 90)))).

Definition sin (x : float) : float :=
  let x2 := x * x in
  x * (1 - x2 / 6 * (1 - x2 / 20 * (1 - x2 / 42 * (1 - x2 / 72)))).

Definition atan2 (y x : float) : float :=
  let z := y / x in
  let z2 := z * z in
  z * (1 - z2 * (1 / 3 - z2 * (1 / 5 - z2 / 7))).

Definition noTraffic (_ : nat) (_ _ _ _ : float) : TrafficResult :=
  mkTrafficResult false None.

Definition someTraffic (_ : nat) (_ _ _ _ : float) : TrafficResult :=
  mkTrafficResult true (Some (mkTrafficStatus "缓行" 70 20 10)).

Definition noWeather : WeatherResult := mkWeatherResult false None.

Definition users : UserPreferences := mkUserPreferences false false.

Definition defaults : RoutePlanParams := mkRoutePlanParams None None None.

Definition leg : list LngLat := [mkLngLat 116.3 39.9; mkLngLat 116.4 39.9].

Definition path (distance duration : float) : RawPath :=
  mkRawPath distance duration [] leg 0 3.

Definition jam (name : string) (at_ : LngLat) : TrafficEvent :=
  mkTrafficEvent name congestion "拥堵" "拥堵" "" None (Some at_) "长安街" moderate (Some 10).

Definition near : LngLat := mkLngLat 116.35 39.901.
Definition far : LngLat := mkLngLat 116.35 39.95.

Definition threePaths : list RawPath :=
  [path 12500 1500; path 11000 1620; path 13000 1400].



(** A monitor that was started on [leg]; its first fetch is under way. *)
Definition watching : Runtime :=
  fst (run cos (initialRuntime "key") [StartMonitoring leg]).

(** The same monitor once that fetch has settled with one event. *)
Definition settled : Runtime :=
  fst (run cos watching [FetchSettles (Some [jam "a" near])]).

Definition navigating : Service := mkService true leg "家" true.

(** Two candidates of the same length. *)
Definition tied1 : Route :=
  mkRoute "r1" 12000 1500 0 (mkScoreDetails 0 0 0 0 0) None None [] leg (Some 0) (Some 3).
Definition tied2 : Route :=
  mkRoute "r2" 12000 1620 0 (mkScoreDetails 0 0 0 0 0) None None [] leg (Some 0) (Some 3).




(** Stand-ins for the other host functions and collaborators.
    [parseFloat] reads plain decimals, [ddd] or [ddd.ddd], as the
    quotient of two integers and anything else as NaN; the text
    functions leave their argument as it is; no regular expression
    matches and no model answers. *)
Fixpoint decimal (s : string) (fraction : bool) (digits scale : Z) (seen : bool)
    : option (Z * Z) :=
  match s with
  | EmptyString => if seen then Some (digits, scale) else None
  | String c rest =>
      if Ascii.eqb c "." then
        if fraction then None else decimal rest true digits scale seen
      else
        match digit_value 10 c with
        | Some d =>
            decimal rest fraction (digits * 10 + d)%Z
              (if fraction then scale * 10 else scale)%Z true
        | None => None
        end
  end.

Definition parseFloat (s : string) : float :=
  match decimal s false 0 1 false with
  | Some (digits, scale) =>
      SF2Prim (binary_normalize prec emax digits 0 false) /
      SF2Prim (binary_normalize prec emax scale 0 false)
  | None => nan
  end.

Definition toString (_ : float) : string := "10".

Definition toLowerCase (s : string) : string := s.

Definition noMatch (_ _ : string) : option (list (option string)) := None.

Definition noJSON (_ : string) : option ParsedIntent := None.

Definition noAnswer (_ : LLMConfig) (_ : list LLMMessage) : option string := None.

(** A road of the answer that is blocked about 111 m from [leg], and
    the event the monitor reads from it. *)
Definition blockedRoad : Road := mkRoad "长安街" "4" "110" "116.35,39.901;116.36,39.901".

Definition noon : Clock := mkClock 1700000000000 "2023-11-14T22:13:20.000Z".

Definition blocked : TrafficEvent :=
  match roadEvent parseFloat blockedRoad noon with
  | Some e => e
  | None => jam "" near
  end.

(** Two readings of the weather. *)
Definition sunny : WeatherInfo := mkWeatherInfo "北京" "晴" "20" "北" "3" "40" "".
Definition storm : WeatherInfo := mkWeatherInfo "北京" "暴雨" "18" "北" "5" "90" "".

(** The ability navigating to "家" along [leg], having read [sunny]. *)
Definition underway : Ability := mkAbility navigating (Some sunny) watching.

(** A POI source that knows two cafes everywhere. *)
Definition cafe (i name : string) (stars : float) : POIInfo :=
  mkPOIInfo i name "咖啡" "050500" "" near None None (Some stars) None [] None None.

Definition cafes (_ : nat) (_ _ : float) (_ : AroundOptions) : POISearchResult :=
  mkPOISearchResult true [cafe "p1" "甲" 4.5; cafe "p2" "乙" 4.8] 2 None.

End Sample.

(* ================================================================== *)
(** * The specification's reading of the scorer *)
(* ================================================================== *)

(** "clamps to [0,1]" *)
Definition clamp01 (x : float) : float :=
  if x <? 0 then 0 else if 1 <? x then 1 else x.


(* ================================================================== *)
(** * Facts about numbers *)
(* ================================================================== *)

Module JSFacts.
Import JS.

Lemma Prim2SF_nan : Prim2SF nan = S754_nan.
Proof. reflexivity. Qed.

Lemma isNaN_iff (x : float) : isNaN x = true <-> x = nan.
Proof.
  unfold isNaN. split.
  - intros H. apply Prim2SF_inj. rewrite Prim2SF_nan.
    destruct (Prim2SF x); congruence.
  - intros ->. reflexivity.
Qed.

Lemma SF_nan_eq (x : float) : Prim2SF x = S754_nan -> x = nan.
Proof. intros H. apply isNaN_iff. unfold isNaN. now rewrite H. Qed.

(** ** NaN is absorbing *)

Ltac nan_absorbs spec :=
  intros; apply SF_nan_eq; rewrite spec; rewrite ?Prim2SF_nan;
  try reflexivity;
  match goal with |- context [Prim2SF ?x] => destruct (Prim2SF x); reflexivity end.

Lemma add_nan_l x : nan + x = nan.   Proof. nan_absorbs add_spec. Qed.
Lemma add_nan_r x : x + nan = nan.   Proof. nan_absorbs add_spec. Qed.
Lemma sub_nan_l x : nan - x = nan.   Proof. nan_absorbs sub_spec. Qed.
Lemma sub_nan_r x : x - nan = nan.   Proof. nan_absorbs sub_spec. Qed.
Lemma mul_nan_l x : nan * x = nan.   Proof. nan_absorbs mul_spec. Qed.
Lemma mul_nan_r x : x * nan = nan.   Proof. nan_absorbs mul_spec. Qed.
Lemma div_nan_l x : nan / x = nan.   Proof. nan_absorbs div_spec. Qed.
Lemma div_nan_r x : x / nan = nan.   Proof. nan_absorbs div_spec. Qed.
Lemma sqrt_nan : Math_sqrt nan = nan. Proof. reflexivity. Qed.

Lemma Math_min_nan_r (x : float) : Math_min [x; nan] = nan.
Proof. unfold Math_min. simpl. now rewrite orb_true_r. Qed.

Lemma Math_min_nan_l (x : float) : Math_min [nan; x] = nan.
Proof. reflexivity. Qed.

Lemma Math_max_nan_r (x : float) : Math_max [x; nan] = nan.
Proof. unfold Math_max. simpl. now rewrite orb_true_r. Qed.

(** ** Zero or NaN

    The difference of a number with itself is a zero or NaN, and so is
    everything the degenerate projection builds from such differences. *)

Lemma sub_diag_zero_or_nan (x : float) : zero_or_nan (x - x).
Proof.
  unfold zero_or_nan. rewrite sub_spec.
  destruct (Prim2SF x) as [s | s | | s m e]; simpl; try exact I.
  - now destruct s.
  - now destruct s.
  - rewrite Z.sub_diag. exact I.
Qed.

Lemma mul_zero_or_nan_l (x y : float) : zero_or_nan x -> zero_or_nan (x * y).
Proof.
  unfold zero_or_nan. rewrite mul_spec.
  destruct (Prim2SF x), (Prim2SF y); simpl; tauto.
Qed.

Lemma mul_zero_or_nan_r (x y : float) : zero_or_nan y -> zero_or_nan (x * y).
Proof.
  unfold zero_or_nan. rewrite mul_spec.
  destruct (Prim2SF x), (Prim2SF y); simpl; tauto.
Qed.

Lemma add_zero_or_nan (x y : float) :
  zero_or_nan x -> zero_or_nan y -> zero_or_nan (x + y).
Proof.
  unfold zero_or_nan. rewrite add_spec.
  destruct (Prim2SF x) as [[]| | |], (Prim2SF y) as [[]| | |]; simpl; tauto.
Qed.

Lemma div_zero_or_nan (x y : float) :
  zero_or_nan x -> zero_or_nan y -> x / y = nan.
Proof.
  unfold zero_or_nan. intros Hx Hy. apply SF_nan_eq. rewrite div_spec.
  destruct (Prim2SF x), (Prim2SF y); simpl; tauto.
Qed.

(** ** Comparisons through the order key *)

Lemma key_compare_spec (k k' : key) :
  match key_compare k k' with
  | Lt => key_lt k k'
  | Eq => k = k'
  | Gt => key_lt k' k
  end.
Proof.
  destruct k as [[a b] c], k' as [[a' b'] c']. unfold key_compare, key_lt.
  destruct (Z.compare_spec a a'); [ | lia | lia ].
  destruct (Z.compare_spec b b'); [ | lia | lia ].
  destruct (Z.compare_spec c c'); [ | lia | lia ].
  congruence.
Qed.

Lemma key_lt_irrefl (k : key) : ~ key_lt k k.
Proof. destruct k as [[a b] c]. unfold key_lt. lia. Qed.

Lemma key_lt_trans (k1 k2 k3 : key) : key_lt k1 k2 -> key_lt k2 k3 -> key_lt k1 k3.
Proof.
  destruct k1 as [[a1 b1] c1], k2 as [[a2 b2] c2], k3 as [[a3 b3] c3].
  unfold key_lt. lia.
Qed.

Lemma key_lt_asym (k k' : key) : key_lt k k' -> ~ key_lt k' k.
Proof. intros H H'. exact (key_lt_irrefl k (key_lt_trans _ _ _ H H')). Qed.

Lemma key_compare_refl (k : key) : key_compare k k = Eq.
Proof.
  pose proof (key_compare_spec k k) as H.
  destruct (key_compare k k); [ reflexivity | | ]; now apply key_lt_irrefl in H.
Qed.

Lemma key_compare_Eq (k k' : key) : key_compare k k' = Eq <-> k = k'.
Proof.
  pose proof (key_compare_spec k k') as H. split.
  - intros E. now rewrite E in H.
  - intros ->. apply key_compare_refl.
Qed.

Lemma SFcompare_key (x y : spec_float) :
  SFcompare x y =
  match sf_key x, sf_key y with
  | Some k, Some k' => Some (key_compare k k')
  | _, _ => None
  end.
Proof.
  destruct x as [[] | [] | | [] m e], y as [[] | [] | | [] m' e'];
    try reflexivity; cbn [SFcompare sf_key key_compare].
  rewrite Z.compare_opp, (Z.compare_antisym e e').
  change (Z.neg m ?= Z.neg m')%Z with (CompOpp (m ?= m')%positive).
  change (-1 ?= -1)%Z with Eq.
  change (Pos.compare_cont Eq m m') with (m ?= m')%positive.
  now destruct (e ?= e')%Z.
Qed.

Lemma isNaN_fkey (x : float) : isNaN x = match fkey x with None => true | Some _ => false end.
Proof.
  unfold fkey, isNaN. now destruct (Prim2SF x) as [ | [] | | [] ? ?].
Qed.

Lemma ltb_fkey (x y : float) :
  (x <? y) =
  match fkey x, fkey y with
  | Some k, Some k' => match key_compare k k' with Lt => true | _ => false end
  | _, _ => false
  end.
Proof.
  rewrite ltb_spec. unfold SFltb, fkey. rewrite SFcompare_key.
  now destruct (sf_key (Prim2SF x)), (sf_key (Prim2SF y)).
Qed.

Lemma leb_fkey (x y : float) :
  (x <=? y) =
  match fkey x, fkey y with
  | Some k, Some k' => match key_compare k k' with Gt => false | _ => true end
  | _, _ => false
  end.
Proof.
  rewrite leb_spec. unfold SFleb, fkey. rewrite SFcompare_key.
  now destruct (sf_key (Prim2SF x)), (sf_key (Prim2SF y)).
Qed.

Lemma eqb_fkey (x y : float) :
  (x =? y) =
  match fkey x, fkey y with
  | Some k, Some k' => match key_compare k k' with Eq => true | _ => false end
  | _, _ => false
  end.
Proof.
  rewrite eqb_spec. unfold SFeqb, fkey. rewrite SFcompare_key.
  now destruct (sf_key (Prim2SF x)), (sf_key (Prim2SF y)).
Qed.

(** Turns every comparison of numbers in sight into a statement on
    keys. *)
Ltac to_keys :=
  rewrite ?ltb_fkey, ?leb_fkey, ?eqb_fkey, ?isNaN_fkey in *.

Lemma ltb_leb (x y : float) : (x <? y) = true -> (x <=? y) = true.
Proof.
  to_keys. destruct (fkey x), (fkey y); try discriminate.
  now destruct (key_compare k k0).
Qed.

Lemma leb_not_ltb (x y : float) : (x <=? y) = true -> (y <? x) = false.
Proof.
  to_keys. destruct (fkey x) as [k|], (fkey y) as [k'|]; try discriminate; try reflexivity.
  pose proof (key_compare_spec k k') as H. pose proof (key_compare_spec k' k) as H'.
  destruct (key_compare k k'), (key_compare k' k); try discriminate; try reflexivity.
  - subst. now apply key_lt_irrefl in H'.
  - now apply key_lt_asym in H.
Qed.

Lemma not_ltb_leb (x y : float) :
  isNaN x = false -> isNaN y = false -> (x <? y) = false -> (y <=? x) = true.
Proof.
  to_keys. destruct (fkey x) as [k|], (fkey y) as [k'|]; try discriminate.
  intros _ _.
  pose proof (key_compare_spec k k') as H. pose proof (key_compare_spec k' k) as H'.
  destruct (key_compare k k'), (key_compare k' k); try discriminate; try reflexivity.
  - subst. now apply key_lt_irrefl in H'.
  - now apply key_lt_asym in H.
Qed.

Lemma eqb_refl (x : float) : isNaN x = false -> (x =? x) = true.
Proof.
  to_keys. destruct (fkey x) as [k|]; try discriminate.
  now rewrite key_compare_refl.
Qed.

Lemma eqb_same_key (x y : float) :
  (x =? y) = true <-> exists k, fkey x = Some k /\ fkey y = Some k.
Proof.
  to_keys. destruct (fkey x) as [k|], (fkey y) as [k'|].
  - pose proof (key_compare_Eq k k') as H. split.
    + intros E. destruct (key_compare k k'); try discriminate.
      exists k. split; [ reflexivity | f_equal; symmetry; now apply H ].
    + intros (k0 & [= ->] & [= ->]). now rewrite key_compare_refl.
  - split; [ discriminate | intros (? & _ & [=]) ].
  - split; [ discriminate | intros (? & [=] & _) ].
  - split; [ discriminate | intros (? & [=] & _) ].
Qed.

(** ** Rounding never produces NaN *)

Lemma iter_pos_invariant {A} (P : A -> Prop) (f : A -> A) :
  (forall x, P x -> P (f x)) -> forall p x, P x -> P (iter_pos f p x).
Proof.
  intros Hf. induction p as [p IH | p IH | ]; intros x Hx; simpl; auto.
Qed.

Lemma shr_1_nonneg (mrs : shr_record) : (0 <= shr_m mrs)%Z -> (0 <= shr_m (shr_1 mrs))%Z.
Proof.
  destruct mrs as [m r s]. destruct m as [ | [p | p | ] | p]; simpl; lia.
Qed.

Lemma shr_m_of_loc (m : Z) (l : SpecFloat.location) : shr_m (shr_record_of_loc m l) = m.
Proof. now destruct l as [ | []]. Qed.

Lemma shr_fexp_nonneg (m e : Z) (l : SpecFloat.location) :
  (0 <= m)%Z -> (0 <= shr_m (fst (shr_fexp prec emax m e l)))%Z.
Proof.
  intros Hm. unfold shr_fexp, shr.
  destruct (_ - e)%Z as [ | p | p]; simpl; rewrite ?shr_m_of_loc; try assumption.
  apply (iter_pos_invariant (fun mrs => 0 <= shr_m mrs)%Z).
  - apply shr_1_nonneg.
  - now rewrite shr_m_of_loc.
Qed.

Lemma round_nearest_even_nonneg (m : Z) (l : SpecFloat.location) :
  (0 <= m)%Z -> (0 <= round_nearest_even m l)%Z.
Proof.
  intros Hm. unfold round_nearest_even.
  destruct l as [ | []]; try assumption; try lia.
  destruct (Z.even m); lia.
Qed.

Lemma binary_round_aux_not_nan (sx : bool) (m e : Z) (l : SpecFloat.location) :
  (0 <= m)%Z -> binary_round_aux prec emax sx m e l <> S754_nan.
Proof.
  intros Hm. unfold binary_round_aux.
  pose proof (shr_fexp_nonneg m e l Hm) as H1.
  destruct (shr_fexp prec emax m e l) as [mrs' e']. simpl in H1.
  pose proof (shr_fexp_nonneg _ e' loc_Exact
                (round_nearest_even_nonneg _ (loc_of_shr_record mrs') H1)) as H2.
  destruct (shr_fexp prec emax _ e' loc_Exact) as [mrs'' e'']. simpl in H2.
  destruct (shr_m mrs''); try discriminate; try lia.
  now destruct (_ <=? _)%Z.
Qed.

Lemma binary_normalize_not_nan (m e : Z) (szero : bool) :
  binary_normalize prec emax m e szero <> S754_nan.
Proof.
  unfold binary_normalize, binary_round.
  destruct m as [ | p | p]; try discriminate;
    destruct (shl_align _ _ _) as [mz ez]; apply binary_round_aux_not_nan; lia.
Qed.

Lemma isNaN_false_iff x : isNaN x = false <-> Prim2SF x <> S754_nan.
Proof. unfold isNaN. destruct (Prim2SF x); split; congruence. Qed.

Lemma mul_finite_not_nan (x y : float) s m e :
  Prim2SF y = S754_finite s m e -> isNaN x = false -> isNaN (x * y) = false.
Proof.
  intros Hy Hx. apply isNaN_false_iff. apply isNaN_false_iff in Hx.
  rewrite mul_spec, Hy. unfold SF64mul.
  destruct (Prim2SF x); simpl; try discriminate; try congruence.
  apply binary_round_aux_not_nan. lia.
Qed.

Lemma add_finite_not_nan (x y : float) s m e :
  Prim2SF x = S754_finite s m e -> isNaN y = false -> isNaN (x + y) = false.
Proof.
  intros Hy Hx. apply isNaN_false_iff. apply isNaN_false_iff in Hx.
  rewrite add_spec, Hy. unfold SF64add.
  destruct (Prim2SF y); simpl; try discriminate; try congruence.
  apply binary_normalize_not_nan.
Qed.

(** ** Rounding keeps the sign *)

Lemma shr_1_div2 (mrs : shr_record) :
  (0 <= shr_m mrs)%Z -> shr_m (shr_1 mrs) = (shr_m mrs / 2)%Z.
Proof.
  destruct mrs as [m r s]. destruct m as [ | [p | p | ] | p]; cbn [shr_1 shr_m];
    intros H; try reflexivity; try lia.
  - apply Z.div_unique with 1%Z; lia.
  - apply Z.div_unique with 0%Z; lia.
Qed.

Lemma iter_shr_1_div (p : positive) (mrs : shr_record) :
  (0 <= shr_m mrs)%Z ->
  shr_m (iter_pos shr_1 p mrs) = (shr_m mrs / 2 ^ Z.pos p)%Z.
Proof.
  revert mrs. induction p as [p IH | p IH | ]; intros mrs H; simpl iter_pos.
  - assert (H1 : (0 <= shr_m (shr_1 mrs))%Z) by now apply shr_1_nonneg.
    assert (H2 : (0 <= shr_m (iter_pos shr_1 p (shr_1 mrs)))%Z).
    { apply (iter_pos_invariant (fun mrs => 0 <= shr_m mrs)%Z); auto using shr_1_nonneg. }
    rewrite IH, IH, shr_1_div2 by assumption.
    rewrite !Z.div_div by (try (apply Z.pow_pos_nonneg); lia).
    f_equal. 
    replace (Z.pos p~1) with (1 + Z.pos p + Z.pos p)%Z by lia.
    rewrite !Z.pow_add_r by lia. lia.
  - assert (H2 : (0 <= shr_m (iter_pos shr_1 p mrs))%Z).
    { apply (iter_pos_invariant (fun mrs => 0 <= shr_m mrs)%Z); auto using shr_1_nonneg. }
    rewrite IH, IH by assumption.
    rewrite !Z.div_div by (try (apply Z.pow_pos_nonneg); lia).
    f_equal.
    replace (Z.pos p~0) with (Z.pos p + Z.pos p)%Z by lia.
    rewrite !Z.pow_add_r by lia. lia.
  - now apply shr_1_div2.
Qed.

Lemma digits2_pos_lower (m : positive) : (2 ^ (Z.pos (digits2_pos m) - 1) <= Z.pos m)%Z.
Proof.
  pose proof (Pos.size_le m) as H.
  change (Pos.size m) with (digits2_pos m) in H.
  apply Pos2Z.pos_le_pos in H. rewrite Pos2Z.inj_pow in H.
  set (d := Z.pos (digits2_pos m)) in *.
  assert (E : (2 ^ d = 2 * 2 ^ (d - 1))%Z).
  { rewrite <- Z.pow_succ_r by lia. f_equal. lia. }
  lia.
Qed.

Lemma digits2_pos_upper (m : positive) : (Z.pos m < 2 ^ Z.pos (digits2_pos m))%Z.
Proof.
  pose proof (Pos.size_gt m) as H.
  change (Pos.size m) with (digits2_pos m) in H.
  apply Pos2Z.pos_lt_pos in H. now rewrite Pos2Z.inj_pow in H.
Qed.

Lemma fexp_value (e : Z) : fexp prec emax e = Z.max (e - 53) (-1074).
Proof. reflexivity. Qed.

(** Rounding a positive mantissa at an exponent that is not below [emin]
    never flushes to zero. *)
Lemma shr_fexp_pos (m : positive) (e : Z) (l : SpecFloat.location) :
  (-1074 <= e)%Z ->
  (0 < shr_m (fst (shr_fexp prec emax (Z.pos m) e l)))%Z /\
  (-1074 <= snd (shr_fexp prec emax (Z.pos m) e l))%Z.
Proof.
  intros He. unfold shr_fexp, shr. rewrite fexp_value.
  cbn [Zdigits2].
  pose proof (digits2_pos_lower m) as Hd.
  set (d := Z.pos (digits2_pos m)) in *.
  destruct (Z.max (d + e - 53) (-1074) - e)%Z as [ | p | p] eqn:En;
    cbn [fst snd]; rewrite ?shr_m_of_loc; try lia.
  rewrite iter_shr_1_div by (rewrite shr_m_of_loc; lia).
  rewrite shr_m_of_loc. split; [ | lia ].
  apply Z.div_str_pos. split; [ apply Z.pow_pos_nonneg; lia | ].
  etransitivity; [ | exact Hd ].
  apply Z.pow_le_mono_r; lia.
Qed.

Lemma round_nearest_even_ge (m : Z) (l : SpecFloat.location) :
  (m <= round_nearest_even m l)%Z.
Proof.
  unfold round_nearest_even. destruct l as [ | []]; try lia.
  destruct (Z.even m); lia.
Qed.

Lemma binary_round_aux_sign (sx : bool) (m : positive) (e : Z) (l : SpecFloat.location) :
  (-1074 <= e)%Z ->
  match binary_round_aux prec emax sx (Z.pos m) e l with
  | S754_finite s _ _ | S754_infinity s => s = sx
  | _ => False
  end.
Proof.
  intros He. unfold binary_round_aux.
  destruct (shr_fexp_pos m e l He) as [H1 H1e].
  destruct (shr_fexp prec emax (Z.pos m) e l) as [mrs' e']. cbn [fst snd] in H1, H1e.
  pose proof (round_nearest_even_ge (shr_m mrs') (loc_of_shr_record mrs')) as Hr.
  destruct (round_nearest_even (shr_m mrs') (loc_of_shr_record mrs')) as [ | m2 | m2];
    try lia.
  destruct (shr_fexp_pos m2 e' loc_Exact H1e) as [H2 _].
  destruct (shr_fexp prec emax (Z.pos m2) e' loc_Exact) as [mrs'' e'']. cbn [fst] in H2.
  destruct (shr_m mrs''); try lia.
  now destruct (_ <=? _)%Z.
Qed.

Lemma binary_round_sign (sx : bool) (m : positive) (e : Z) :
  (-1074 <= e)%Z ->
  match binary_round prec emax sx m e with
  | S754_finite s _ _ | S754_infinity s => s = sx
  | _ => False
  end.
Proof.
  intros He. unfold binary_round, shl_align. rewrite fexp_value.
  destruct (Z.max _ _ - e)%Z eqn:En; apply binary_round_aux_sign; lia.
Qed.

(** The sign of a rounded integer is the sign of the integer. *)
Lemma binary_normalize_sign (z e : Z) :
  (-1074 <= e)%Z ->
  exists k, sf_key (binary_normalize prec emax z e false) = Some k /\
            key_compare (0, 0, 0)%Z k = (0 ?= z)%Z.
Proof.
  intros He. unfold binary_normalize. destruct z as [ | m | m].
  - now exists (0, 0, 0)%Z.
  - pose proof (binary_round_sign false m e He) as H.
    destruct (binary_round prec emax false m e) as [ | s | | s m' e']; try tauto; subst s;
      eexists; split; reflexivity.
  - pose proof (binary_round_sign true m e He) as H.
    destruct (binary_round prec emax true m e) as [ | s | | s m' e']; try tauto; subst s;
      eexists; split; reflexivity.
Qed.

Lemma bounded_inv (m : positive) (e : Z) :
  bounded prec emax m e = true ->
  (-1074 <= e)%Z /\ (Z.pos (digits2_pos m) <= 53)%Z /\
  (e = (-1074)%Z \/ Z.pos (digits2_pos m) = 53%Z).
Proof.
  unfold bounded, canonical_mantissa. rewrite fexp_value.
  intros H. apply andb_prop in H. destruct H as [H _].
  apply Z.eqb_eq in H. lia.
Qed.

Lemma iter_xO_pow (m d : positive) : Z.pos (Pos.iter xO m d) = (Z.pos m * 2 ^ Z.pos d)%Z.
Proof.
  induction d as [ | d IH] using Pos.peano_ind.
  - simpl. lia.
  - rewrite Pos.iter_succ, Pos2Z.inj_xO, IH, Pos2Z.inj_succ, Z.pow_succ_r by lia. lia.
Qed.

Lemma shl_align_fst (m : positive) (e ez : Z) :
  (ez <= e)%Z -> Z.pos (fst (shl_align m e ez)) = (Z.pos m * 2 ^ (e - ez))%Z.
Proof.
  intros H. unfold shl_align.
  destruct (ez - e)%Z as [ | d | d] eqn:E; cbn [fst]; try lia.
  - replace (e - ez)%Z with 0%Z by lia. lia.
  - rewrite iter_xO_pow. do 2 f_equal. lia.
Qed.

(** Magnitudes of valid finite numbers compare like (exponent, mantissa). *)
Lemma aligned_magnitudes (ma mb : positive) (ea eb : Z) :
  bounded prec emax ma ea = true -> bounded prec emax mb eb = true ->
  let ez := Z.min eb ea in
  let A := Z.pos (fst (shl_align ma ea ez)) in
  let B := Z.pos (fst (shl_align mb eb ez)) in
  ((ea < eb -> A < B) /\ (eb < ea -> B < A) /\
   (ea = eb -> A = Z.pos ma /\ B = Z.pos mb))%Z.
Proof.
  intros Ha Hb ez A B. subst A B.
  rewrite !shl_align_fst by (subst ez; lia).
  apply bounded_inv in Ha, Hb.
  pose proof (digits2_pos_lower ma). pose proof (digits2_pos_upper ma).
  pose proof (digits2_pos_lower mb). pose proof (digits2_pos_upper mb).
  assert (P52 : (2 ^ 53 = 2 * 2 ^ 52)%Z) by reflexivity.
  assert (Hmono : forall d, (Z.pos d <= 53 -> 2 ^ Z.pos d <= 2 ^ 53)%Z).
  { intros d Hd. apply Z.pow_le_mono_r; lia. }
  pose proof (Hmono (digits2_pos ma)). pose proof (Hmono (digits2_pos mb)).
  assert (Hpow : forall k, (1 <= k -> 2 <= 2 ^ k)%Z).
  { intros k Hk. change 2%Z with (2 ^ 1)%Z at 1. apply Z.pow_le_mono_r; lia. }
  split; [ | split ]; intros Hlt; [ | | split ].
  - replace (ea - ez)%Z with 0%Z by (subst ez; lia). rewrite Z.pow_0_r, Z.mul_1_r.
    pose proof (Hpow (eb - ez)%Z ltac:(subst ez; lia)).
    destruct Hb as (_ & _ & [Hb | Hb]); [ lia | ].
    rewrite Hb in *. change (53 - 1)%Z with 52%Z in *. nia.
  - replace (eb - ez)%Z with 0%Z by (subst ez; lia). rewrite Z.pow_0_r, Z.mul_1_r.
    pose proof (Hpow (ea - ez)%Z ltac:(subst ez; lia)).
    destruct Ha as (_ & _ & [Ha | Ha]); [ lia | ].
    rewrite Ha in *. change (53 - 1)%Z with 52%Z in *. nia.
  - replace (ea - ez)%Z with 0%Z by (subst ez; lia). rewrite Z.pow_0_r. lia.
  - replace (eb - ez)%Z with 0%Z by (subst ez; lia). rewrite Z.pow_0_r. lia.
Qed.

Lemma fkey_zero : fkey 0 = Some (0, 0, 0)%Z.
Proof. reflexivity. Qed.

Lemma comparison_by_spec (x y : Z) (k k' : key) :
  (x < y <-> key_lt k k')%Z -> (y < x <-> key_lt k' k)%Z ->
  (x ?= y)%Z = key_compare k k'.
Proof.
  intros Hlt Hgt.
  pose proof (key_compare_spec k k') as Hk.
  destruct (Z.compare_spec x y) as [E | L | G]; destruct (key_compare k k'); try reflexivity.
  - apply Hlt in Hk. lia.
  - apply Hgt in Hk. lia.
  - subst k'. apply Hlt in L. now apply key_lt_irrefl in L.
  - apply Hlt in L. now apply key_lt_asym in L.
  - subst k'. apply Hgt in G. now apply key_lt_irrefl in G.
  - apply Hgt in G. now apply key_lt_asym in G.
Qed.

Lemma compare_0_sub (x y : Z) : (0 ?= y - x)%Z = (x ?= y)%Z.
Proof.
  destruct (Z.compare_spec 0 (y - x)), (Z.compare_spec x y); try reflexivity; lia.
Qed.

(** For finite numbers the sign of [b - a] tells how [a] and [b]
    compare: the subtraction of two different finite numbers never
    rounds to zero. *)
Lemma sub_sign (a b : float) :
  isFinite a = true -> isFinite b = true -> (0 <? b - a) = (a <? b).
Proof.
  intros Fa Fb. rewrite !ltb_fkey, fkey_zero. unfold fkey, isFinite in *.
  rewrite sub_spec.
  pose proof (Prim2SF_valid a) as Va. pose proof (Prim2SF_valid b) as Vb.
  destruct (Prim2SF a) as [sa | | | sa ma ea]; try discriminate;
    destruct (Prim2SF b) as [sb | | | sb mb eb]; try discriminate.
  - now destruct sa, sb.
  - now destruct sb.
  - now destruct sa.
  - cbn [valid_binary] in Va, Vb.
    unfold SF64sub, SFsub.
    pose proof (aligned_magnitudes ma mb ea eb Va Vb) as (Hlt & Hgt & Heq).
    cbv zeta in Hlt, Hgt, Heq.
    set (ez := Z.min eb ea) in *.
    set (A := Z.pos (fst (shl_align ma ea ez))) in *.
    set (B := Z.pos (fst (shl_align mb eb ez))) in *.
    assert (HA : (0 < A)%Z) by (subst A; lia).
    assert (HB : (0 < B)%Z) by (subst B; lia).
    apply bounded_inv in Va, Vb.
    destruct (binary_normalize_sign (cond_Zopp sb B - cond_Zopp sa A) ez
                ltac:(subst ez; lia)) as (k & -> & Hk).
    rewrite Hk. cbn [sf_key].
    rewrite compare_0_sub.
    erewrite comparison_by_spec; [ reflexivity | | ];
      destruct sa, sb; unfold key_lt; cbn [cond_Zopp]; lia.
Qed.

(** ** Order *)

Lemma SFmul_comm (x y : spec_float) : SF64mul x y = SF64mul y x.
Proof.
  unfold SF64mul.
  destruct x as [sx | sx | | sx mx ex], y as [sy | sy | | sy my ey];
    cbn [SFmul]; rewrite ?(xorb_comm sx sy); try reflexivity.
  now rewrite (Pos.mul_comm mx my), (Z.add_comm ex ey).
Qed.

Lemma mul_comm (x y : float) : x * y = y * x.
Proof. apply Prim2SF_inj. rewrite !mul_spec. apply SFmul_comm. Qed.

(** Splits on every comparison of keys in sight and closes the goal by
    linear arithmetic. *)
Ltac key_cases :=
  repeat match goal with
    | |- context [key_compare ?k ?k'] =>
        let H := fresh "K" in
        pose proof (key_compare_spec k k') as H; destruct (key_compare k k')
    | _ : context [key_compare ?k ?k'] |- _ =>
        let H := fresh "K" in
        pose proof (key_compare_spec k k') as H; destruct (key_compare k k')
    end;
  repeat match goal with
    | H : (_, _, _) = (_, _, _) |- _ => inversion H; clear H
    end;
  unfold key_lt in *; subst; try discriminate; try reflexivity; try lia.

Lemma Math_min_1 (s : float) :
  isNaN s = false -> Math_min [1; s] = if s <? 1 then s else 1.
Proof.
  intros H. unfold Math_min. cbn [existsb fold_left]. rewrite H.
  change (isNaN 1) with false. change (min_step infinity 1) with 1.
  unfold min_step. change (is_pos_zero 1) with false. now rewrite andb_false_r.
Qed.

Lemma Math_max_0 (r : float) :
  isNaN r = false -> Math_max [0; r] = if 0 <? r then r else 0.
Proof.
  intros H. unfold Math_max. cbn [existsb fold_left]. rewrite H.
  change (isNaN 0) with false. change (max_step neg_infinity 0) with 0.
  unfold max_step. change (is_neg_zero 0) with false. now rewrite andb_false_r.
Qed.

Ltac by_keys :=
  to_keys;
  repeat match goal with
    | |- context [fkey ?x] => destruct (fkey x) as [[[? ?] ?] | ]
    | _ : context [fkey ?x] |- _ => destruct (fkey x) as [[[? ?] ?] | ]
    end;
  try discriminate; try reflexivity; key_cases.

Lemma ltb_asym (x y : float) : (x <? y) = true -> (y <? x) = false.
Proof. by_keys. Qed.

Lemma ltb_trans (x y z : float) : (x <? y) = true -> (y <? z) = true -> (x <? z) = true.
Proof. by_keys. Qed.

Lemma leb_ltb_trans (x y z : float) : (x <=? y) = true -> (y <? z) = true -> (x <? z) = true.
Proof. by_keys. Qed.

Lemma eqb_sym (x y : float) : (x =? y) = (y =? x).
Proof. by_keys. Qed.

Lemma trichotomy (x y : float) :
  isNaN x = false -> isNaN y = false ->
  (x <? y) = false -> (y <? x) = false -> (x =? y) = true.
Proof. by_keys. Qed.

Lemma eqb_leb (x y : float) : (x =? y) = true -> (x <=? y) = true.
Proof. by_keys. Qed.


(** ** [Math.min] and [Math.max] over values that are all equal *)

Lemma ltb_infinity_false (x : float) (k : key) :
  fkey x = Some k -> (x <? infinity) = false -> k = (2, 0, 0)%Z.
Proof.
  rewrite ltb_spec. unfold fkey.
  destruct (Prim2SF x) as [s | [] | | [] m e]; cbn; congruence.
Qed.

Lemma neg_infinity_ltb_false (x : float) (k : key) :
  fkey x = Some k -> (neg_infinity <? x) = false -> k = (-2, 0, 0)%Z.
Proof.
  rewrite ltb_spec. unfold fkey.
  destruct (Prim2SF x) as [s | [] | | [] m e]; cbn; congruence.
Qed.

Lemma min_step_same_key (lowest x : float) (k : key) :
  fkey x = Some k -> lowest = infinity \/ fkey lowest = Some k ->
  fkey (min_step lowest x) = Some k.
Proof.
  intros Hx Hl. unfold min_step.
  destruct (is_neg_zero x && is_pos_zero lowest); [ assumption | ].
  destruct (x <? lowest) eqn:E; [ assumption | ].
  destruct Hl as [-> | Hl]; [ | assumption ].
  now rewrite (ltb_infinity_false x k Hx E).
Qed.

Lemma max_step_same_key (highest x : float) (k : key) :
  fkey x = Some k -> highest = neg_infinity \/ fkey highest = Some k ->
  fkey (max_step highest x) = Some k.
Proof.
  intros Hx Hl. unfold max_step.
  destruct (is_pos_zero x && is_neg_zero highest); [ assumption | ].
  destruct (highest <? x) eqn:E; [ assumption | ].
  destruct Hl as [-> | Hl]; [ | assumption ].
  now rewrite (neg_infinity_ltb_false x k Hx E).
Qed.

Lemma flat_no_nan (k : key) (values : list float) :
  Forall (fun v => fkey v = Some k) values -> existsb isNaN values = false.
Proof.
  induction 1 as [ | v vs Hv _ IH]; simpl; [ reflexivity | ].
  now rewrite isNaN_fkey, Hv.
Qed.

Lemma flat_fold_min (k : key) (values : list float) (acc : float) :
  Forall (fun v => fkey v = Some k) values ->
  acc = infinity \/ fkey acc = Some k -> values <> [] ->
  fkey (fold_left min_step values acc) = Some k.
Proof.
  intros flat. revert acc.
  induction flat as [ | v vs Hv Hvs IH]; intros acc Hacc Hne; [ congruence | ].
  simpl. pose proof (min_step_same_key acc v k Hv Hacc) as H1.
  destruct vs as [ | w vs]; [ exact H1 | ].
  apply IH; [ now right | discriminate ].
Qed.

Lemma flat_fold_max (k : key) (values : list float) (acc : float) :
  Forall (fun v => fkey v = Some k) values ->
  acc = neg_infinity \/ fkey acc = Some k -> values <> [] ->
  fkey (fold_left max_step values acc) = Some k.
Proof.
  intros flat. revert acc.
  induction flat as [ | v vs Hv Hvs IH]; intros acc Hacc Hne; [ congruence | ].
  simpl. pose proof (max_step_same_key acc v k Hv Hacc) as H1.
  destruct vs as [ | w vs]; [ exact H1 | ].
  apply IH; [ now right | discriminate ].
Qed.

Lemma flat_max_eq_min (k : key) (values : list float) :
  Forall (fun v => fkey v = Some k) values -> values <> [] ->
  (Math_max values =? Math_min values) = true.
Proof.
  intros flat Hne. unfold Math_max, Math_min. rewrite (flat_no_nan k) by assumption.
  apply eqb_same_key. exists k. split.
  - apply flat_fold_max; auto.
  - apply flat_fold_min; auto.
Qed.

Lemma finite_not_nan (x : float) : isFinite x = true -> isNaN x = false.
Proof. unfold isFinite, isNaN. now destruct (Prim2SF x). Qed.

Create Rewrite HintDb js_nan.
#[global] Hint Rewrite add_nan_l add_nan_r sub_nan_l sub_nan_r mul_nan_l mul_nan_r
  div_nan_l div_nan_r sqrt_nan Math_min_nan_l Math_min_nan_r Math_max_nan_r : js_nan.

End JSFacts.

(* ================================================================== *)
(** * Properties of the route scorer *)
(* ================================================================== *)

Import JS JSFacts.

(** C8.  In a batch whose values of the normalised field are all equal,
    [normalizeScore] gives 1 to every member of the batch, whether lower
    or higher values count as better. *)
Theorem normalize_flat_batch (batch : list Route) (field : Route -> float)
    (r : Route) (lowerIsBetter : bool) :
  In r batch ->
  (forall a b, In a batch -> In b batch -> (field a =? field b) = true) ->
  normalizeScore batch field (field r) lowerIsBetter = 1.
Proof.
  intros Hr Hflat.
  destruct (proj1 (eqb_same_key _ _) (Hflat r r Hr Hr)) as (k & Hk & _).
  unfold normalizeScore.
  rewrite (flat_max_eq_min k); [ reflexivity | | ].
  - apply Forall_forall. intros v Hv. apply in_map_iff in Hv. destruct Hv as (a & <- & Ha).
    destruct (proj1 (eqb_same_key _ _) (Hflat a r Ha Hr)) as (k' & Hk1 & Hk2).
    congruence.
  - destruct batch; [ contradiction | discriminate ].
Qed.

Lemma normalize_flat_batch_witness :
  normalizeScore [Sample.tied1; Sample.tied2] distanceMeters
    (distanceMeters Sample.tied2) true = 1 /\
  normalizeScore [Sample.tied1; Sample.tied2] distanceMeters
    (distanceMeters Sample.tied2) false = 1.
Proof.
  split; apply normalize_flat_batch; simpl; auto;
    intros a b [<- | [<- | []]] [<- | [<- | []]]; reflexivity.
Defined.

(** The clamp of the code agrees with the specification's clamp on
    every number, and its value lies in [0,1]. *)
Lemma clamp_code (s : float) :
  isNaN s = false ->
  let r := Math_max [0; Math_min [1; s]] in
  isNaN r = false /\ (r =? clamp01 s) = true /\ (0 <=? r) = true /\ (r <=? 1) = true.
Proof.
  intros H r. subst r. rewrite Math_min_1 by assumption.
  assert (H1 : isNaN (if s <? 1 then s else 1) = false) by now destruct (s <? 1).
  rewrite Math_max_0 by assumption. clear H1. unfold clamp01.
  assert (N0 : isNaN 0 = false) by reflexivity.
  assert (N1 : isNaN 1 = false) by reflexivity.
  assert (L01 : (0 <? 1) = true) by reflexivity.
  destruct (s <? 1) eqn:A.
  - rewrite (ltb_asym _ _ A). destruct (0 <? s) eqn:B.
    + rewrite (ltb_asym _ _ B). repeat split; auto using eqb_refl, ltb_leb.
    + destruct (s <? 0) eqn:C; repeat split; auto.
      * rewrite eqb_sym. now apply trichotomy.
  - rewrite L01.
    destruct (s <? 0) eqn:C.
    + now rewrite (ltb_trans s 0 1 C L01) in A.
    + destruct (1 <? s) eqn:D; repeat split; auto.
      now apply trichotomy.
Qed.

(** The score before clamping is a number whenever the time score is. *)
Lemma unclamped_not_nan (base time : float) (fastest : bool) s m e :
  Prim2SF base = S754_finite s m e -> isNaN time = false ->
  isNaN (if fastest then base + time * 0.1 else base) = false.
Proof.
  intros Hb Ht. destruct fastest.
  - eapply add_finite_not_nan; [ exact Hb | ].
    eapply mul_finite_not_nan; [ | exact Ht ]. vm_compute. reflexivity.
  - unfold isNaN. now rewrite Hb.
Qed.



(** Outside that domain the clamp lets NaN through: a time score that is
    NaN gives a preference score that is NaN when the fastest route is
    asked for. *)
Lemma preference_score_nan (route : Route) (prefs : list string) :
  includes prefs "fastest" = true -> timeScore (scoreDetails route) = nan ->
  calculatePreferenceScore route prefs = nan.
Proof.
  intros Hf Ht. unfold calculatePreferenceScore. rewrite Hf, Ht.
  now autorewrite with js_nan.
Qed.



(* ================================================================== *)
(** * Properties of the planner *)
(* ================================================================== *)

(** ** The sort *)

Lemma sort_insert_perm (x : Route) (sorted : list Route) :
  Permutation (x :: sorted) (sort_insert x sorted).
Proof.
  induction sorted as [ | y rest IH]; simpl; [ reflexivity | ].
  destruct (0 <? compareFn y x); [ reflexivity | ].
  rewrite perm_swap. now apply perm_skip.
Qed.

Lemma sort_fold_perm (l acc : list Route) :
  Permutation (acc ++ l) (fold_left (fun sorted x => sort_insert x sorted) l acc).
Proof.
  revert acc. induction l as [ | x l IH]; intros acc; simpl.
  - now rewrite app_nil_r.
  - rewrite <- IH. rewrite <- sort_insert_perm.
    symmetry. apply Permutation_middle.
Qed.

Lemma sort_perm (l : list Route) : Permutation l (sort l).
Proof. exact (sort_fold_perm l []). Qed.

Lemma hd_sort_insert (x : Route) (sorted : list Route) :
  hd_error (sort_insert x sorted) = lead (hd_error sorted) x.
Proof.
  destruct sorted as [ | y rest]; simpl; [ reflexivity | ].
  now destruct (0 <? compareFn y x).
Qed.

Lemma hd_sort_fold (l acc : list Route) :
  hd_error (fold_left (fun sorted x => sort_insert x sorted) l acc) =
  fold_left lead l (hd_error acc).
Proof.
  revert acc. induction l as [ | x l IH]; intros acc; simpl; [ reflexivity | ].
  now rewrite IH, hd_sort_insert.
Qed.

Lemma lead_fold_spec (l pre mid : list Route) (y : Route) :
  Forall (fun r => isFinite (score r) = true) (y :: l) ->
  Forall (fun r => (score r <? score y) = true) pre ->
  Forall (fun r => (score r <=? score y) = true) mid ->
  exists pre' best post,
    pre ++ y :: mid ++ l = pre' ++ best :: post /\
    fold_left lead l (Some y) = Some best /\
    Forall (fun r => (score r <? score best) = true) pre' /\
    Forall (fun r => (score r <=? score best) = true) post.
Proof.
  revert pre mid y. induction l as [ | x l IH]; intros pre mid y Hfin Hpre Hmid.
  - exists pre, y, mid. rewrite app_nil_r. repeat split; auto.
  - inversion Hfin as [ | ? ? Hy Hl]; subst.
    inversion Hl as [ | ? ? Hx Hl']; subst.
    pose proof (finite_not_nan _ Hy) as Ny. pose proof (finite_not_nan _ Hx) as Nx.
    cbn [fold_left lead]. unfold compareFn. rewrite (sub_sign _ _ Hy Hx).
    destruct (score y <? score x) eqn:E.
    + destruct (IH (pre ++ y :: mid) [] x Hl) as (pre' & best & post & E1 & E2 & F1 & F2).
      { apply Forall_app. split; [ | constructor; [ exact E | ] ].
        - eapply Forall_impl; [ | exact Hpre ]. intros r Hr. cbv beta in Hr.
          exact (ltb_trans _ _ _ Hr E).
        - eapply Forall_impl; [ | exact Hmid ]. intros r Hr. cbv beta in Hr.
          exact (leb_ltb_trans _ _ _ Hr E). }
      { constructor. }
      exists pre', best, post. rewrite <- E1. repeat split; auto.
      now rewrite <- app_assoc.
    + destruct (IH pre (mid ++ [x]) y) as (pre' & best & post & E1 & E2 & F1 & F2); auto.
      { apply Forall_app. split; [ exact Hmid | ]. repeat constructor.
        now apply not_ltb_leb. }
      exists pre', best, post. rewrite <- E1. repeat split; auto.
      now rewrite <- app_assoc.
Qed.

(** The head of the sorted array: the earliest route of maximal score. *)
Lemma sort_head (l : list Route) :
  l <> [] -> Forall (fun r => isFinite (score r) = true) l ->
  exists pre best post,
    l = pre ++ best :: post /\
    hd_error (sort l) = Some best /\
    Forall (fun r => (score r <? score best) = true) pre /\
    Forall (fun r => (score r <=? score best) = true) post.
Proof.
  intros Hne Hfin. destruct l as [ | y l]; [ congruence | ].
  unfold sort. rewrite hd_sort_fold. cbn [fold_left hd_error lead].
  destruct (lead_fold_spec l [] [] y Hfin) as (pre & best & post & E & H); auto.
  exists pre, best, post. now rewrite <- E.
Qed.

Lemma sort_insert_finite (x : Route) (sorted : list Route) :
  isFinite (score x) = true ->
  Forall (fun r => isFinite (score r) = true) sorted ->
  Forall (fun r => isFinite (score r) = true) (sort_insert x sorted).
Proof.
  intros Hx Hs. eapply Permutation_Forall; [ apply sort_insert_perm | ].
  now constructor.
Qed.

Lemma sort_insert_descending (x : Route) (sorted : list Route) :
  isFinite (score x) = true ->
  Forall (fun r => isFinite (score r) = true) sorted ->
  Sorted descending sorted -> Sorted descending (sort_insert x sorted).
Proof.
  intros Hx Hfin Hs. induction sorted as [ | y rest IH]; cbn [sort_insert].
  - repeat constructor.
  - inversion Hfin as [ | ? ? Hy Hrest]; subst.
    inversion Hs as [ | ? ? Hs' Hhd]; subst.
    unfold compareFn. rewrite (sub_sign _ _ Hy Hx).
    destruct (score y <? score x) eqn:E.
    + constructor; [ exact Hs | ]. constructor. now apply ltb_leb.
    + constructor; [ now apply IH | ].
      assert (Hxy : descending y x).
      { apply not_ltb_leb; auto using finite_not_nan. }
      destruct rest as [ | z rest]; cbn [sort_insert].
      * now constructor.
      * destruct (0 <? compareFn z x); constructor; [ exact Hxy | ].
        now inversion Hhd.
Qed.

(** On finite scores the sort leaves the array in descending order. *)
Lemma sort_descending (l : list Route) :
  Forall (fun r => isFinite (score r) = true) l -> Sorted descending (sort l).
Proof.
  intros Hfin. unfold sort.
  assert (H : forall acc,
             Forall (fun r => isFinite (score r) = true) acc -> Sorted descending acc ->
             Sorted descending (fold_left (fun sorted x => sort_insert x sorted) l acc)).
  { induction Hfin as [ | x l Hx Hl IH]; intros acc Hacc Hs; cbn [fold_left]; [ exact Hs | ].
    apply IH; [ now apply sort_insert_finite | now apply sort_insert_descending ]. }
  apply H; constructor.
Qed.

(** ** [map] with the index *)

Lemma map_mapi_from {A B C} (g : B -> C) (f : A -> nat -> B) (h : A -> C) :
  (forall a n, g (f a n) = h a) ->
  forall l n, map g (mapi_from f n l) = map h l.
Proof.
  intros H. induction l as [ | a l IH]; intros n; cbn [mapi_from map]; [ reflexivity | ].
  now rewrite H, IH.
Qed.


Lemma mapi_from_nth_error {A B} (f : A -> nat -> B) (l : list A) (n i : nat) :
  nth_error (mapi_from f n l) i = option_map (fun x => f x (n + i)%nat) (nth_error l i).
Proof.
  revert n i. induction l as [ | a l IH]; intros n i; cbn [mapi_from].
  - now destruct i.
  - destruct i as [ | i]; cbn [nth_error option_map].
    + now rewrite Nat.add_0_r.
    + rewrite IH. now rewrite Nat.add_succ_comm.
Qed.

(** Every element of the mapped array comes from an element of the
    array and its index. *)
Lemma mapi_from_in {A B} (f : A -> nat -> B) (l : list A) (n : nat) (y : B) :
  In y (mapi_from f n l) -> exists x idx, y = f x idx /\ In x l.
Proof.
  revert n. induction l as [ | a l IH]; intros n; cbn [mapi_from]; [ contradiction | ].
  intros [<- | H].
  - exists a, n. split; [ reflexivity | now left ].
  - destruct (IH _ H) as (x & idx & -> & Hx). exists x, idx. split; [ reflexivity | now right ].
Qed.

Lemma mapi_from_Forall {A B} (P : B -> Prop) (f : A -> nat -> B) (l : list A) (n : nat) :
  (forall x idx, In x l -> P (f x idx)) -> Forall P (mapi_from f n l).
Proof.
  revert n. induction l as [ | a l IH]; intros n H; cbn [mapi_from]; constructor.
  - apply H. now left.
  - apply IH. intros x idx Hx. apply H. now right.
Qed.

Lemma mapi_from_nil {A B} (f : A -> nat -> B) (l : list A) (n : nat) :
  mapi_from f n l = [] -> l = [].
Proof. destruct l; [ reflexivity | discriminate ]. Qed.

(** ** [planRoute] *)

Section PlannerFacts.
Variable getTrafficByRectangle : nat -> float -> float -> float -> float -> TrafficResult.

Lemma parseRoutes_ids (paths : list RawPath) :
  map id (parseRoutes paths) = firstn (List.length paths) ["r1"; "r2"; "r3"].
Proof.
  destruct paths as [ | p1 [ | p2 [ | p3 rest]]]; try reflexivity.
  cbn [List.length firstn]. now rewrite firstn_nil.
Qed.

Lemma scoreRoute_id idx params wth prefs batch (route : Route) :
  id (scoreRoute getTrafficByRectangle idx params wth prefs batch route) = id route.
Proof.
  unfold scoreRoute.
  destruct (_ && _); destruct wth; reflexivity.
Qed.

Lemma scoreBatch_ids userPrefs params paths weatherResult :
  map id (scoreBatch getTrafficByRectangle userPrefs params paths weatherResult) =
  firstn (List.length paths) ["r1"; "r2"; "r3"].
Proof.
  unfold scoreBatch, mapi. rewrite <- parseRoutes_ids.
  apply map_mapi_from. intros r idx. apply scoreRoute_id.
Qed.

Lemma ids_NoDup (n : nat) : NoDup (firstn n ["r1"; "r2"; "r3"]).
Proof using Type.
  assert (H3 : NoDup ["r1"; "r2"; "r3"]).
  { repeat constructor; cbn; intros H;
      repeat (destruct H as [H | H]; [ discriminate H | ]); exact H. }
  rewrite <- (firstn_skipn n ["r1"; "r2"; "r3"]) in H3.
  now apply NoDup_app_remove_r in H3.
Qed.

Lemma ids_truthy (n : nat) (s : string) :
  In s (firstn n ["r1"; "r2"; "r3"]) -> truthy s = true.
Proof.
  intros H.
  assert (H3 : In s ["r1"; "r2"; "r3"]).
  { rewrite <- (firstn_skipn n). apply in_or_app. now left. }
  simpl in H3. destruct H3 as [<- | [<- | [<- | []]]]; reflexivity.
Qed.



(** The routes [planRoute] returns are in descending order of composite
    score, when the scores are finite numbers. *)
Theorem ranked_descending (key : string) (userPrefs : UserPreferences)
    (params : RoutePlanParams) (paths : list RawPath) (weatherResult : WeatherResult) :
  truthy key = true -> paths <> [] ->
  Forall (fun r => isFinite (score r) = true)
    (scoreBatch getTrafficByRectangle userPrefs params paths weatherResult) ->
  exists res,
    planRoute getTrafficByRectangle key userPrefs params (Some paths) weatherResult
      = Fulfilled res /\
    Sorted descending (routes res).
Proof.
  intros Hkey Hne Hfin. unfold planRoute. rewrite Hkey.
  destruct (List.length (parseRoutes paths) =? 0)%nat eqn:El.
  - apply Nat.eqb_eq, List.length_zero_iff_nil in El.
    destruct paths as [ | p ps]; [ congruence | discriminate ].
  - eexists. split; [ reflexivity | ]. cbn [routes]. now apply sort_descending.
Qed.

(** C1, as the code has it.  When the path source returns an empty
    candidate list, [planRoute] does not fail: it is fulfilled with the
    built-in result of [getMockResult], whatever the credential, the
    preferences, the parameters and the weather answer are. *)
Theorem empty_candidates_mock (key : string) (userPrefs : UserPreferences)
    (params : RoutePlanParams) (weatherResult : WeatherResult) :
  planRoute getTrafficByRectangle key userPrefs params (Some []) weatherResult
    = Fulfilled getMockResult.
Proof. unfold planRoute. now destruct (truthy key). Qed.









End PlannerFacts.



Lemma ranked_descending_witness :
  exists res,
    planRoute Sample.someTraffic "key" Sample.users Sample.defaults
      (Some Sample.threePaths) Sample.noWeather = Fulfilled res /\
    Sorted descending (routes res).
Proof.
  apply (ranked_descending Sample.someTraffic "key" Sample.users Sample.defaults
           Sample.threePaths Sample.noWeather).
  - reflexivity.
  - discriminate.
  - repeat constructor.
Defined.

(** C1 as stated fails: on an empty candidate list the call is not
    rejected; it is fulfilled with two routes that carry four polyline
    points each. *)
Lemma empty_candidates_counterexample :
  let outcome :=
    planRoute Sample.noTraffic "key" Sample.users Sample.defaults (Some [])
      Sample.noWeather in
  (forall error, outcome <> Rejected error) /\
  exists res,
    outcome = Fulfilled res /\
    map id (routes res) = ["r1"; "r2"] /\
    map (fun r => List.length (points r)) (routes res) = [4; 4]%nat.
Proof. split; [ discriminate | eexists; repeat split ]. Qed.



(* ================================================================== *)
(** * Properties of the geometry *)
(* ================================================================== *)

Section GeometryFacts.

Variable Math_cos : float -> float.

Lemma degenerate_distance (point seg : LngLat) :
  pointToSegmentDistance Math_cos point seg seg = nan.
Proof.
  unfold pointToSegmentDistance.
  assert (Hsx : zero_or_nan ((lng seg - lng seg) * Math_cos (toRad ((lat seg + lat seg) / 2)))).
  { apply mul_zero_or_nan_l, sub_diag_zero_or_nan. }
  assert (Hsy : zero_or_nan (lat seg - lat seg)) by apply sub_diag_zero_or_nan.
  rewrite (div_zero_or_nan _ _
             (add_zero_or_nan _ _ (mul_zero_or_nan_r _ _ Hsx) (mul_zero_or_nan_r _ _ Hsy))
             (add_zero_or_nan _ _ (mul_zero_or_nan_r _ _ Hsx) (mul_zero_or_nan_r _ _ Hsy))).
  now autorewrite with js_nan.
Qed.

Lemma min_distance_nan_absorbs (point : LngLat) (segs : list (LngLat * LngLat)) :
  fold_left
    (fun minDist seg =>
       Math_min [minDist; pointToSegmentDistance Math_cos point (fst seg) (snd seg)])
    segs nan = nan.
Proof.
  induction segs as [ | s segs IH]; simpl; [ reflexivity | ].
  now rewrite Math_min_nan_l.
Qed.

Lemma segments_app (pre : list LngLat) (a b : LngLat) (post : list LngLat) :
  exists before,
    segments (pre ++ a :: b :: post) = before ++ (a, b) :: segments (b :: post).
Proof.
  induction pre as [ | p pre IH]; simpl.
  - now exists [].
  - destruct IH as [before E]. rewrite E.
    destruct pre as [ | q pre]; simpl.
    + now exists ((p, a) :: before).
    + now exists ((p, q) :: before).
Qed.

(** One degenerate segment makes the distance to the whole route NaN. *)
Lemma degenerate_segment_poisons (pre post : list LngLat) (seg point : LngLat) :
  calculateMinDistanceToRoute Math_cos (pre ++ seg :: seg :: post) point = nan.
Proof.
  unfold calculateMinDistanceToRoute.
  destruct (segments_app pre seg seg post) as [before ->].
  rewrite fold_left_app. cbn [fold_left fst snd].
  rewrite degenerate_distance, Math_min_nan_r.
  apply min_distance_nan_absorbs.
Qed.

(** C10.  For a degenerate segment (both ends the same point) the
    projection divides zero by zero: [pointToSegmentDistance] returns
    NaN, the test [distance < 500] on it is false, and no route in
    which such a segment occurs lets [checkEventAffectsRoute] report an
    event as affecting it. *)
Theorem degenerate_segment_never_affects (point seg : LngLat) :
  pointToSegmentDistance Math_cos point seg seg = nan /\
  (pointToSegmentDistance Math_cos point seg seg <? 500) = false /\
  forall (pre post : list LngLat) (e : TrafficEvent),
    checkEventAffectsRoute Math_cos (pre ++ seg :: seg :: post) e = false.
Proof.
  rewrite degenerate_distance. repeat split.
  intros pre post e. unfold checkEventAffectsRoute.
  destruct (location e) as [loc | ]; [ | reflexivity ].
  rewrite degenerate_segment_poisons. now destruct (_ =? _)%nat.
Qed.

End GeometryFacts.

(* ================================================================== *)
(** * Properties of the traffic monitor *)
(* ================================================================== *)

(** ** The event map *)

Lemma map_has_set (m : EventMap) (k i : string) (v : TrafficEvent) :
  map_has (map_set m k v) i = String.eqb k i || map_has m i.
Proof.
  induction m as [ | [k' v'] m IH]; cbn [map_set map_has existsb fst].
  - reflexivity.
  - destruct (String.eqb k' k) eqn:E; cbn [map_has existsb fst].
    + apply String.eqb_eq in E. subst k'. now destruct (String.eqb k i).
    + unfold map_has in IH. rewrite IH.
      destruct (String.eqb k' i), (String.eqb k i); reflexivity.
Qed.

Lemma map_has_expire (m : EventMap) (events : list TrafficEvent) (i : string) :
  map_has (expire m events) i = map_has m i && reports i events.
Proof.
  unfold expire, map_has, reports.
  induction m as [ | [k v] m IH]; cbn [filter existsb fst]; [ reflexivity | ].
  destruct (existsb (fun e => String.eqb (ev_id e) k) events) eqn:Ek;
    cbn [existsb fst]; rewrite IH.
  - destruct (String.eqb k i) eqn:E; [ | reflexivity ].
    apply String.eqb_eq in E. subst k. now rewrite Ek.
  - destruct (String.eqb k i) eqn:E; [ | reflexivity ].
    apply String.eqb_eq in E. subst k. rewrite Ek. now rewrite andb_false_r.
Qed.

Section MonitorFacts.
Variable Math_cos : float -> float.

Lemma affects_iff (route : list LngLat) (e : TrafficEvent) :
  checkEventAffectsRoute Math_cos route e = true <->
  exists loc, location e = Some loc /\
              (calculateMinDistanceToRoute Math_cos route loc <? 500) = true.
Proof.
  unfold checkEventAffectsRoute. destruct (location e) as [loc | ].
  - destruct route as [ | p route]; cbn [List.length Nat.eqb].
    + split; [ discriminate | ]. intros (loc' & _ & H). exact H.
    + split; [ intros H; now exists loc | ]. intros (loc' & [= <-] & H). exact H.
  - split; [ discriminate | ]. intros (loc' & [=] & _).
Qed.

Lemma checkNewEvents_app (route : list LngLat) (last : EventMap)
    (l1 l2 : list TrafficEvent) :
  checkNewEvents Math_cos route last (l1 ++ l2) =
  let '(last1, a1) := checkNewEvents Math_cos route last l1 in
  let '(last2, a2) := checkNewEvents Math_cos route last1 l2 in
  (last2, a1 ++ a2).
Proof.
  revert last. induction l1 as [ | e l1 IH]; intros last; cbn [checkNewEvents app].
  - now destruct (checkNewEvents Math_cos route last l2).
  - rewrite IH.
    destruct (checkNewEvents Math_cos route (map_set last (ev_id e) e) l1) as [last1 a1].
    destruct (checkNewEvents Math_cos route last1 l2) as [last2 a2].
    now rewrite app_assoc.
Qed.

(** After the loop the map holds what it held and what the snapshot
    reports. *)
Lemma checkNewEvents_has (route : list LngLat) (last : EventMap)
    (events : list TrafficEvent) (i : string) :
  map_has (fst (checkNewEvents Math_cos route last events)) i =
  map_has last i || reports i events.
Proof.
  revert last. induction events as [ | e events IH]; intros last;
    cbn [checkNewEvents reports existsb fst].
  - now rewrite orb_false_r.
  - specialize (IH (map_set last (ev_id e) e)).
    destruct (checkNewEvents Math_cos route (map_set last (ev_id e) e) events) as [l a].
    cbn [fst] in *. rewrite IH, map_has_set. unfold reports.
    now destruct (String.eqb (ev_id e) i), (map_has last i).
Qed.

(** Every alert of the loop is for an event of the snapshot that was not
    in the map and lies within 500 m of the route. *)
Lemma checkNewEvents_alert (route : list LngLat) (last : EventMap)
    (events : list TrafficEvent) (a : TrafficAlert) :
  In a (snd (checkNewEvents Math_cos route last events)) ->
  exists e, a = createAlert e /\ In e events /\
            map_has last (ev_id e) = false /\
            checkEventAffectsRoute Math_cos route e = true.
Proof.
  revert last. induction events as [ | e events IH]; intros last;
    cbn [checkNewEvents snd]; [ contradiction | ].
  specialize (IH (map_set last (ev_id e) e)).
  destruct (checkNewEvents Math_cos route (map_set last (ev_id e) e) events) as [l more].
  cbn [snd] in *. intros H. apply in_app_or in H. destruct H as [H | H].
  - destruct (negb (map_has last (ev_id e))) eqn:En;
      destruct (checkEventAffectsRoute Math_cos route e) eqn:Ea;
      cbn in H; try contradiction.
    destruct H as [<- | []]. exists e. repeat split; auto.
    + now left.
    + now apply negb_true_iff in En.
  - destruct (IH H) as (e' & -> & Hin & Hnew & Haff).
    exists e'. repeat split; auto.
    + now right.
    + rewrite map_has_set in Hnew. now apply orb_false_iff in Hnew.
Qed.

(** An id the map already holds raises nothing. *)
Lemma checkNewEvents_known (route : list LngLat) (last : EventMap)
    (events : list TrafficEvent) (i : string) :
  map_has last i = true ->
  alerts_for i (snd (checkNewEvents Math_cos route last events)) = [].
Proof.
  intros Hhas. unfold alerts_for.
  destruct (filter _ _) as [ | a rest] eqn:E; [ reflexivity | ].
  assert (Hin : In a (a :: rest)) by now left.
  rewrite <- E in Hin. apply filter_In in Hin. destruct Hin as [Hin Hid].
  apply checkNewEvents_alert in Hin. destruct Hin as (e & -> & _ & Hnew & _).
  cbn [createAlert event] in Hid. apply String.eqb_eq in Hid. congruence.
Qed.

(** An id the snapshot does not report raises nothing. *)
Lemma checkNewEvents_unreported (route : list LngLat) (last : EventMap)
    (events : list TrafficEvent) (i : string) :
  reports i events = false ->
  alerts_for i (snd (checkNewEvents Math_cos route last events)) = [].
Proof.
  intros Hrep. unfold alerts_for.
  destruct (filter _ _) as [ | a rest] eqn:E; [ reflexivity | ].
  assert (Hin : In a (a :: rest)) by now left.
  rewrite <- E in Hin. apply filter_In in Hin. destruct Hin as [Hin Hid].
  apply checkNewEvents_alert in Hin. destruct Hin as (e & -> & He & _ & _).
  cbn [createAlert event] in Hid.
  unfold reports in Hrep. rewrite <- not_true_iff_false in Hrep.
  exfalso. apply Hrep. apply existsb_exists. now exists e.
Qed.

Lemma alerts_for_app (i : string) (l1 l2 : list TrafficAlert) :
  alerts_for i (l1 ++ l2) = alerts_for i l1 ++ alerts_for i l2.
Proof. apply filter_app. Qed.

(** The first sighting of an id by an event within 500 m raises exactly
    one alert, whatever else the snapshot holds. *)
Lemma checkNewEvents_first_sighting (route : list LngLat) (last : EventMap)
    (before after : list TrafficEvent) (e : TrafficEvent) :
  map_has last (ev_id e) = false ->
  reports (ev_id e) before = false ->
  checkEventAffectsRoute Math_cos route e = true ->
  alerts_for (ev_id e) (snd (checkNewEvents Math_cos route last (before ++ e :: after)))
    = [createAlert e].
Proof.
  intros Hnew Hbefore Haff. rewrite checkNewEvents_app.
  pose proof (checkNewEvents_unreported route last before (ev_id e) Hbefore) as H1.
  pose proof (checkNewEvents_has route last before (ev_id e)) as H2.
  destruct (checkNewEvents Math_cos route last before) as [last1 a1]. cbn [fst snd] in *.
  rewrite Hnew, Hbefore in H2. cbn [orb] in H2.
  cbn [checkNewEvents]. rewrite H2, Haff. cbn [negb andb].
  pose proof (checkNewEvents_known route (map_set last1 (ev_id e) e) after (ev_id e)) as H3.
  destruct (checkNewEvents Math_cos route (map_set last1 (ev_id e) e) after) as [last2 a2].
  cbn [snd] in *. rewrite !alerts_for_app, H1, H3.
  - unfold alerts_for at 1. cbn [app filter createAlert event].
    now rewrite String.eqb_refl.
  - rewrite map_has_set, String.eqb_refl. reflexivity.
Qed.
(** ** Runs *)

Lemma begin_monitor (rt : Runtime) :
  monitor (checkTrafficEvents_begin rt) = monitor rt.
Proof.
  unfold checkTrafficEvents_begin.
  destruct (_ <? 2)%nat; [ reflexivity | ]. destruct (negb _); [ reflexivity | ].
  now destruct (calculateBounds _).
Qed.

Lemma resume_known (m : Monitor) (fetched : option (list TrafficEvent)) (i : string) :
  map_has (lastEvents m) i = true ->
  match fetched with Some events => reports i events | None => true end = true ->
  alerts_for i (snd (checkTrafficEvents_resume Math_cos m fetched)) = [] /\
  map_has (lastEvents (fst (checkTrafficEvents_resume Math_cos m fetched))) i = true.
Proof.
  intros Hhas Hrep. unfold checkTrafficEvents_resume.
  destruct fetched as [events | ]; [ | now split ].
  pose proof (checkNewEvents_known (currentRoute m) (lastEvents m) events i Hhas) as H1.
  pose proof (checkNewEvents_has (currentRoute m) (lastEvents m) events i) as H2.
  destruct (checkNewEvents Math_cos (currentRoute m) (lastEvents m) events) as [last alerts].
  cbn [fst snd lastEvents] in *. split; [ exact H1 | ].
  now rewrite map_has_expire, H2, Hhas, Hrep.
Qed.

Lemma step_known (rt : Runtime) (a : Action) (i : string) :
  map_has (lastEvents (monitor rt)) i = true -> keeps_sighting i a = true ->
  alerts_for i (snd (step Math_cos rt a)) = [] /\
  map_has (lastEvents (monitor (fst (step Math_cos rt a)))) i = true.
Proof.
  intros Hhas Hkeep. destruct a as [pts | | pts | t | fetched]; cbn [step keeps_sighting] in *.
  - cbn [fst snd monitor lastEvents]. rewrite begin_monitor. now split.
  - discriminate.
  - now split.
  - destruct (_ && _); cbn [fst snd]; rewrite ?begin_monitor; now split.
  - destruct (pending rt) as [ | b others]; [ now split | ].
    pose proof (resume_known (monitor rt) fetched i Hhas) as H.
    destruct (checkTrafficEvents_resume Math_cos (monitor rt) fetched) as [m alerts].
    cbn [fst snd monitor] in *. apply H. now destruct fetched.
Qed.

Lemma run_known (actions : list Action) (rt : Runtime) (i : string) :
  map_has (lastEvents (monitor rt)) i = true ->
  forallb (keeps_sighting i) actions = true ->
  alerts_for i (snd (run Math_cos rt actions)) = [].
Proof.
  revert rt. induction actions as [ | a actions IH]; intros rt Hhas Hkeep;
    cbn [run forallb] in *; [ reflexivity | ].
  apply andb_prop in Hkeep. destruct Hkeep as [Ha Hrest].
  destruct (step_known rt a i Hhas Ha) as [H1 H2].
  destruct (step Math_cos rt a) as [rt1 alerts]. cbn [fst snd] in *.
  specialize (IH rt1 H2 Hrest).
  destruct (run Math_cos rt1 actions) as [rt2 more]. cbn [snd] in *.
  now rewrite alerts_for_app, H1, IH.
Qed.

(** C3, as the code has it.  The distance is the one
    [calculateMinDistanceToRoute] computes.  (1) In every poll, an event
    whose distance from the route of that moment is not below 500 m (it
    is at least 500 m, or it is NaN) is the event of no alert.  (2) When
    a snapshot arrives in which [e] is the first event with its id, the
    id is not in the map of active events and the distance of [e] from
    the route is below 500 m, then that poll raises exactly one alert
    for the id, the alert of [e], and nothing that follows raises
    another one for it, as long as monitoring is not stopped and every
    snapshot that arrives still reports the id; route updates, timer
    ticks and failed fetches in between change nothing. *)
Theorem alert_once_per_sighting :
  (forall (m : Monitor) (fetched : option (list TrafficEvent)) (e : TrafficEvent)
          (loc : LngLat) (a : TrafficAlert),
      location e = Some loc ->
      (calculateMinDistanceToRoute Math_cos (currentRoute m) loc <? 500) = false ->
      In a (snd (checkTrafficEvents_resume Math_cos m fetched)) -> event a <> e) /\
  (forall (rt : Runtime) (before after : list TrafficEvent) (e : TrafficEvent)
          (loc : LngLat) (later : list Action),
      pending rt <> [] ->
      map_has (lastEvents (monitor rt)) (ev_id e) = false ->
      reports (ev_id e) before = false ->
      location e = Some loc ->
      (calculateMinDistanceToRoute Math_cos (currentRoute (monitor rt)) loc <? 500) = true ->
      forallb (keeps_sighting (ev_id e)) later = true ->
      alerts_for (ev_id e)
        (snd (run Math_cos rt (FetchSettles (Some (before ++ e :: after)) :: later)))
      = [createAlert e]).
Proof.
  split.
  - intros m fetched e loc a Hloc Hfar Hin Heq.
    unfold checkTrafficEvents_resume in Hin. destruct fetched as [events | ]; [ | contradiction ].
    pose proof (checkNewEvents_alert (currentRoute m) (lastEvents m) events a) as H.
    destruct (checkNewEvents Math_cos (currentRoute m) (lastEvents m) events) as [last alerts].
    cbn [snd] in *. destruct (H Hin) as (e' & -> & _ & _ & Haff).
    cbn [createAlert event] in Heq. subst e'.
    apply affects_iff in Haff. destruct Haff as (loc' & Hloc' & Hnear).
    rewrite Hloc in Hloc'. injection Hloc' as <-. congruence.
  - intros rt before after e loc later Hpending Hnew Hbefore Hloc Hnear Hkeep.
    assert (Haff : checkEventAffectsRoute Math_cos (currentRoute (monitor rt)) e = true).
    { apply affects_iff. now exists loc. }
    cbn [run step]. destruct (pending rt) as [ | b others]; [ congruence | ].
    unfold checkTrafficEvents_resume.
    pose proof (checkNewEvents_first_sighting (currentRoute (monitor rt))
                  (lastEvents (monitor rt)) before after e Hnew Hbefore Haff) as H1.
    pose proof (checkNewEvents_has (currentRoute (monitor rt)) (lastEvents (monitor rt))
                  (before ++ e :: after) (ev_id e)) as H2.
    destruct (checkNewEvents Math_cos (currentRoute (monitor rt)) (lastEvents (monitor rt))
                (before ++ e :: after)) as [last alerts].
    cbn [fst snd] in *.
    assert (Hrep : reports (ev_id e) (before ++ e :: after) = true).
    { unfold reports. rewrite existsb_app. cbn [existsb].
      now rewrite String.eqb_refl, orb_true_r. }
    pose proof (run_known later
                  (mkRuntime (mkMonitor (isMonitoring (monitor rt)) (monitorTimer (monitor rt))
                                (currentRoute (monitor rt))
                                (expire last (before ++ e :: after)))
                     (amapKey rt) (timers rt) (nextTimer rt) others) (ev_id e)) as H3.
    cbn [monitor lastEvents] in H3.
    rewrite map_has_expire, H2, Hrep, orb_true_r in H3.
    specialize (H3 eq_refl Hkeep).
    destruct (run Math_cos _ later) as [rt2 more]. cbn [snd] in *.
    now rewrite alerts_for_app, H1, H3.
Qed.

(** ** After a stop *)

Lemma affects_empty_route (e : TrafficEvent) :
  checkEventAffectsRoute Math_cos [] e = false.
Proof. unfold checkEventAffectsRoute. now destruct (location e). Qed.

Lemma resume_empty_route (m : Monitor) (fetched : option (list TrafficEvent)) :
  currentRoute m = [] ->
  snd (checkTrafficEvents_resume Math_cos m fetched) = [] /\
  currentRoute (fst (checkTrafficEvents_resume Math_cos m fetched)) = [].
Proof.
  intros Hroute. unfold checkTrafficEvents_resume.
  destruct fetched as [events | ]; [ | now split ].
  pose proof (checkNewEvents_alert (currentRoute m) (lastEvents m) events) as H.
  destruct (checkNewEvents Math_cos (currentRoute m) (lastEvents m) events) as [last alerts].
  cbn [fst snd currentRoute] in *. split; [ | exact Hroute ].
  destruct alerts as [ | a rest]; [ reflexivity | ].
  destruct (H a (or_introl eq_refl)) as (e & _ & _ & _ & Haff).
  rewrite Hroute, affects_empty_route in Haff. discriminate.
Qed.

Lemma step_empty_route (rt : Runtime) (a : Action) :
  currentRoute (monitor rt) = [] -> leaves_route a = true ->
  snd (step Math_cos rt a) = [] /\ currentRoute (monitor (fst (step Math_cos rt a))) = [].
Proof.
  intros Hroute Hleave. destruct a as [pts | | pts | t | fetched]; cbn [step leaves_route] in *;
    try discriminate.
  - now split.
  - destruct (_ && _); cbn [fst snd]; rewrite ?begin_monitor; now split.
  - destruct (pending rt) as [ | b others]; [ now split | ].
    pose proof (resume_empty_route (monitor rt) fetched Hroute) as H.
    now destruct (checkTrafficEvents_resume Math_cos (monitor rt) fetched) as [m alerts].
Qed.

(** Once stopped, and as long as the route is not set again, the monitor
    raises nothing: a fetch that was under way finds an empty route. *)
Lemma quiet_while_route_empty (actions : list Action) (rt : Runtime) :
  currentRoute (monitor rt) = [] -> forallb leaves_route actions = true ->
  snd (run Math_cos rt actions) = [].
Proof.
  revert rt. induction actions as [ | a actions IH]; intros rt Hroute Hleave;
    cbn [run forallb] in *; [ reflexivity | ].
  apply andb_prop in Hleave. destruct Hleave as [Ha Hrest].
  destruct (step_empty_route rt a Hroute Ha) as [H1 H2].
  destruct (step Math_cos rt a) as [rt1 alerts]. cbn [fst snd] in *.
  specialize (IH rt1 H2 Hrest).
  destruct (run Math_cos rt1 actions) as [rt2 more]. cbn [snd] in *.
  now rewrite H1, IH.
Qed.

(** A monitor at rest stays at rest, keeps the timers of the host as
    they are and raises nothing, whatever is done to it short of
    [startMonitoring]. *)
Lemma step_at_rest (rt : Runtime) (a : Action) :
  at_rest rt -> stays_stopped a = true ->
  at_rest (fst (step Math_cos rt a)) /\
  timers (fst (step Math_cos rt a)) = timers rt /\
  snd (step Math_cos rt a) = [].
Proof.
  intros (Hm & Ht & Hl & Hp) Hs.
  destruct a as [pts | | pts | t | fetched]; cbn [step stays_stopped] in *.
  - discriminate.
  - rewrite Ht. cbn. repeat split. exact Hp.
  - cbn. repeat split; assumption.
  - rewrite Hm, andb_false_r. cbn [fst snd]. repeat split; assumption.
  - rewrite Hp. cbn [fst snd]. repeat split; assumption.
Qed.

Lemma run_at_rest (actions : list Action) (rt : Runtime) :
  at_rest rt -> forallb stays_stopped actions = true ->
  at_rest (fst (run Math_cos rt actions)) /\
  timers (fst (run Math_cos rt actions)) = timers rt /\
  snd (run Math_cos rt actions) = [].
Proof.
  revert rt. induction actions as [ | a actions IH]; intros rt Hrest Hs;
    cbn [run forallb] in *; [ repeat split; apply Hrest | ].
  apply andb_prop in Hs. destruct Hs as [Ha Hs].
  destruct (step_at_rest rt a Hrest Ha) as (H1 & H2 & H3).
  destruct (step Math_cos rt a) as [rt1 alerts]. cbn [fst snd] in *.
  destruct (IH rt1 H1 Hs) as (H4 & H5 & H6).
  destruct (run Math_cos rt1 actions) as [rt2 more]. cbn [fst snd] in *.
  repeat split; try apply H4.
  - now rewrite H5.
  - now rewrite H3, H6.
Qed.

(** [stopMonitoring] with no fetch under way is final.  Until
    [startMonitoring] is called again, whatever timers fire, results of
    fetches arrive and routes are set with [updateRoute], the monitor
    stays idle, holds no timer and no active event, sends no request
    and raises no alert; the interval timer it held is cancelled and
    stays so. *)
Theorem stop_state (rt : Runtime) (actions : list Action) :
  pending rt = [] -> forallb stays_stopped actions = true ->
  let after := fst (run Math_cos rt (StopMonitoring :: actions)) in
  isMonitoring (monitor after) = false /\
  monitorTimer (monitor after) = 0%nat /\
  lastEvents (monitor after) = [] /\
  pending after = [] /\
  snd (run Math_cos rt (StopMonitoring :: actions)) = [] /\
  (monitorTimer (monitor rt) <> 0%nat ->
   ~ In (monitorTimer (monitor rt)) (timers after)).
Proof.
  intros Hp Hs. cbn [run].
  destruct (step Math_cos rt StopMonitoring) as [rt1 alerts] eqn:Es.
  cbn [step] in Es. injection Es as <- <-.
  match goal with |- context [run Math_cos ?r actions] => set (rt1 := r) end.
  assert (Hrest : at_rest rt1) by (repeat split; exact Hp).
  destruct (run_at_rest actions rt1 Hrest Hs) as ((H1 & H2 & H3 & H4) & H5 & H6).
  destruct (run Math_cos rt1 actions) as [rt2 more]. cbn [fst snd app] in *.
  repeat split; try assumption.
  intros Hne Hin. rewrite H5 in Hin. subst rt1. cbn [timers] in Hin.
  destruct (monitorTimer (monitor rt) =? 0)%nat eqn:E.
  - apply Nat.eqb_eq in E. contradiction.
  - apply filter_In in Hin. destruct Hin as [_ Hin].
    now rewrite Nat.eqb_refl in Hin.
Qed.

(** After [stopMonitoring], and as long as neither [startMonitoring] nor
    [updateRoute] is called, no alert is raised, whatever timers fire
    and whatever the fetches that were under way return. *)
Theorem quiet_after_stop (rt : Runtime) (actions : list Action) :
  forallb leaves_route actions = true ->
  snd (run Math_cos rt (StopMonitoring :: actions)) = [].
Proof.
  intros Hleave. cbn [run].
  destruct (step Math_cos rt StopMonitoring) as [rt1 alerts] eqn:Es.
  assert (Hroute : currentRoute (monitor rt1) = []).
  { change rt1 with (fst (rt1, alerts)). now rewrite <- Es. }
  assert (Halerts : alerts = []).
  { change alerts with (snd (rt1, alerts)). now rewrite <- Es. }
  pose proof (quiet_while_route_empty actions rt1 Hroute Hleave) as H.
  destruct (run Math_cos rt1 actions) as [rt2 more]. cbn [snd] in *.
  now rewrite Halerts, H.
Qed.

End MonitorFacts.

(** C4, where the code breaks it.  The first poll of a monitor is under
    way when [stopMonitoring] is called; [updateRoute] is called next,
    and then the fetch returns an event about 111 m from the route.  The
    part of [checkTrafficEvents] that runs after the fetch does not look
    at [isMonitoring]: the stopped monitor raises an alert. *)
Theorem stale_poll_alerts_after_stop :
  snd (run Sample.cos (initialRuntime "key")
         [ StartMonitoring Sample.leg; StopMonitoring; UpdateRoute Sample.leg;
           FetchSettles (Some [Sample.jam "a" Sample.near]) ])
  = [createAlert (Sample.jam "a" Sample.near)].
Proof. vm_compute. reflexivity. Qed.

(** C5, where the code breaks it.  The first poll of a monitor is under
    way when [stopMonitoring] is called; when the fetch returns, its
    events are written into the map that [stopMonitoring] had cleared:
    the monitor is idle and its set of active events is not empty. *)
Theorem stale_poll_repopulates_events :
  let rt :=
    fst (run Sample.cos (initialRuntime "key")
           [ StartMonitoring Sample.leg; StopMonitoring;
             FetchSettles (Some [Sample.jam "a" Sample.near]) ]) in
  isMonitoring (monitor rt) = false /\
  map fst (lastEvents (monitor rt)) = ["a"].
Proof. vm_compute. split; reflexivity. Qed.

(** What the events of the stale poll do later: monitoring is started
    again on the same route and the event is reported again; it counts
    as known, and the alert it would have raised is lost. *)
Lemma stale_events_suppress_alert :
  snd (run Sample.cos (initialRuntime "key")
         [ StartMonitoring Sample.leg; StopMonitoring;
           FetchSettles (Some [Sample.jam "a" Sample.near]);
           StartMonitoring Sample.leg;
           FetchSettles (Some [Sample.jam "a" Sample.near]) ]) = [] /\
  snd (run Sample.cos (initialRuntime "key")
         [ StartMonitoring Sample.leg; StopMonitoring;
           FetchSettles None;
           StartMonitoring Sample.leg;
           FetchSettles (Some [Sample.jam "a" Sample.near]) ])
  = [createAlert (Sample.jam "a" Sample.near)].
Proof. vm_compute. split; reflexivity. Qed.

Lemma quiet_after_stop_witness :
  snd (run Sample.cos Sample.watching
         [ StopMonitoring; TimerFires 1;
           FetchSettles (Some [Sample.jam "a" Sample.near]) ]) = [].
Proof.
  apply (quiet_after_stop Sample.cos Sample.watching
           [TimerFires 1; FetchSettles (Some [Sample.jam "a" Sample.near])]).
  reflexivity.
Defined.

Lemma stop_state_witness :
  let actions :=
    [ TimerFires 1; UpdateRoute Sample.leg;
      FetchSettles (Some [Sample.jam "b" Sample.near]); TimerFires 1 ] in
  let after := fst (run Sample.cos Sample.settled (StopMonitoring :: actions)) in
  isMonitoring (monitor after) = false /\
  monitorTimer (monitor after) = 0%nat /\
  lastEvents (monitor after) = [] /\
  pending after = [] /\
  snd (run Sample.cos Sample.settled (StopMonitoring :: actions)) = [] /\
  (monitorTimer (monitor Sample.settled) <> 0%nat ->
   ~ In (monitorTimer (monitor Sample.settled)) (timers after)).
Proof.
  apply (stop_state Sample.cos Sample.settled
           [ TimerFires 1; UpdateRoute Sample.leg;
             FetchSettles (Some [Sample.jam "b" Sample.near]); TimerFires 1 ]);
    reflexivity.
Defined.

Lemma alert_once_per_sighting_witness :
  (forall a,
      In a (snd (checkTrafficEvents_resume Sample.cos (monitor Sample.watching)
                   (Some [Sample.jam "a" Sample.near; Sample.jam "b" Sample.far]))) ->
      event a <> Sample.jam "b" Sample.far) /\
  alerts_for "a"
    (snd (run Sample.cos Sample.watching
            [ FetchSettles (Some ([Sample.jam "b" Sample.far] ++
                                  Sample.jam "a" Sample.near :: []));
              TimerFires 1;
              UpdateRoute [Sample.far; Sample.far];
              FetchSettles (Some [Sample.jam "a" Sample.near]) ]))
  = [createAlert (Sample.jam "a" Sample.near)].
Proof.
  split.
  - intros a Ha.
    apply (proj1 (alert_once_per_sighting Sample.cos) (monitor Sample.watching)
             (Some [Sample.jam "a" Sample.near; Sample.jam "b" Sample.far])
             (Sample.jam "b" Sample.far) Sample.far a);
      [ reflexivity | vm_compute; reflexivity | exact Ha ].
  - apply (proj2 (alert_once_per_sighting Sample.cos) Sample.watching
             [Sample.jam "b" Sample.far] [] (Sample.jam "a" Sample.near) Sample.near);
      [ vm_compute; discriminate | reflexivity | reflexivity | reflexivity
      | vm_compute; reflexivity | reflexivity ].
Defined.

(** C3 as stated fails when two events of one snapshot carry the same
    id, as two roads with the same [lcodes] do.  The monitor watches
    [leg] and knows no event.  The snapshot of its first poll holds an
    event "a" about 5.6 km from the route and then an event "a" about
    111 m from it.  The loop enters the id with the first event, so the
    second one is not new: the event closer than 500 m raises no alert
    on the poll that first sights its id, and none on the next poll,
    whose snapshot holds it alone. *)
Lemma alert_once_per_sighting_counterexample :
  let far := Sample.jam "a" Sample.far in
  let near := Sample.jam "a" Sample.near in
  let route := currentRoute (monitor Sample.watching) in
  map_has (lastEvents (monitor Sample.watching)) "a" = false /\
  (500 <=? calculateMinDistanceToRoute Sample.cos route Sample.far) = true /\
  (calculateMinDistanceToRoute Sample.cos route Sample.near <? 500) = true /\
  snd (run Sample.cos Sample.watching [ FetchSettles (Some [far; near]) ]) = [] /\
  snd (run Sample.cos Sample.watching
         [ FetchSettles (Some [far; near]); TimerFires 1; FetchSettles (Some [near]) ])
  = [].
Proof. vm_compute. repeat split. Qed.

(* ================================================================== *)
(** * Properties of the reroute decision *)
(* ================================================================== *)

Section ServiceFacts.
Variable getTrafficByRectangle : nat -> float -> float -> float -> float -> TrafficResult.
Variable Math_sin Math_cos : float -> float.
Variable Math_atan2 : float -> float -> float.


End ServiceFacts.



(* ================================================================== *)
(** * More facts about numbers *)
(* ================================================================== *)

(** The difference of two finite numbers is a number, and it compares
    with zero as the numbers compare with each other. *)
Lemma sub_compare (a b : float) :
  isFinite a = true -> isFinite b = true ->
  exists ka kb k,
    fkey a = Some ka /\ fkey b = Some kb /\ fkey (b - a) = Some k /\
    key_compare (0, 0, 0)%Z k = key_compare ka kb.
Proof.
  intros Fa Fb. unfold fkey, isFinite in *. rewrite sub_spec.
  pose proof (Prim2SF_valid a) as Va. pose proof (Prim2SF_valid b) as Vb.
  destruct (Prim2SF a) as [sa | | | sa ma ea]; try discriminate;
    destruct (Prim2SF b) as [sb | | | sb mb eb]; try discriminate.
  - destruct sa, sb; repeat eexists.
  - destruct sb; repeat eexists.
  - destruct sa; repeat eexists.
  - cbn [valid_binary] in Va, Vb.
    unfold SF64sub, SFsub.
    pose proof (aligned_magnitudes ma mb ea eb Va Vb) as (Hlt & Hgt & Heq).
    cbv zeta in Hlt, Hgt, Heq.
    set (ez := Z.min eb ea) in *.
    set (A := Z.pos (fst (shl_align ma ea ez))) in *.
    set (B := Z.pos (fst (shl_align mb eb ez))) in *.
    assert (HA : (0 < A)%Z) by (subst A; lia).
    assert (HB : (0 < B)%Z) by (subst B; lia).
    apply bounded_inv in Va, Vb.
    destruct (binary_normalize_sign (cond_Zopp sb B - cond_Zopp sa A) ez
                ltac:(subst ez; lia)) as (k & Hk1 & Hk).
    eexists _, _, k. split; [ reflexivity | ]. split; [ reflexivity | ].
    split; [ exact Hk1 | ]. rewrite Hk. cbn [sf_key].
    rewrite compare_0_sub.
    erewrite comparison_by_spec; [ reflexivity | | ];
      destruct sa, sb; unfold key_lt; cbn [cond_Zopp]; lia.
Qed.

Lemma fkey_zero_inv (x : float) :
  fkey x = Some (0, 0, 0)%Z -> exists s, Prim2SF x = S754_zero s.
Proof.
  unfold fkey. destruct (Prim2SF x) as [s | [] | | [] m e]; cbn; try discriminate.
  now exists s.
Qed.

Lemma div_zero_by_number (x y : float) (s : bool) (k : key) :
  Prim2SF x = S754_zero s -> fkey y = Some k -> k <> (0, 0, 0)%Z ->
  exists s', Prim2SF (x / y) = S754_zero s'.
Proof.
  intros Hx Hy Hk. rewrite div_spec, Hx. unfold fkey in Hy.
  destruct (Prim2SF y) as [sy | sy | | sy m e]; cbn in Hy; try discriminate.
  - congruence.
  - eexists. reflexivity.
  - eexists. reflexivity.
Qed.

Lemma one_minus_zero (z : float) (s : bool) : Prim2SF z = S754_zero s -> 1 - z = 1.
Proof.
  intros Hz. apply Prim2SF_inj. rewrite sub_spec, Hz. reflexivity.
Qed.

(** ** The least value of a batch *)

Lemma min_step_choice (lowest x : float) : min_step lowest x = x \/ min_step lowest x = lowest.
Proof.
  unfold min_step. destruct (_ && _); [ now left | ]. destruct (x <? lowest); auto.
Qed.

Lemma min_step_finite_first (x : float) : isFinite x = true -> min_step infinity x = x.
Proof.
  intros H. unfold min_step, is_pos_zero. cbn [Prim2SF]. change (Prim2SF infinity) with (S754_infinity false).
  rewrite andb_false_r. rewrite ltb_spec. unfold isFinite in H.
  change (Prim2SF infinity) with (S754_infinity false).
  destruct (Prim2SF x) as [sx | sx | | [] m e]; try discriminate; reflexivity.
Qed.

Lemma fold_min_in (values : list float) (acc : float) :
  fold_left min_step values acc = acc \/ In (fold_left min_step values acc) values.
Proof.
  revert acc. induction values as [ | v values IH]; intros acc; cbn [fold_left]; [ now left | ].
  destruct (IH (min_step acc v)) as [E | Hin].
  - rewrite E. destruct (min_step_choice acc v) as [-> | ->]; [ right; now left | now left ].
  - right. now right.
Qed.

Lemma finite_no_nan (values : list float) :
  Forall (fun v => isFinite v = true) values -> existsb isNaN values = false.
Proof.
  induction 1 as [ | v vs Hv _ IH]; cbn [existsb]; [ reflexivity | ].
  now rewrite (finite_not_nan v Hv).
Qed.

Lemma Math_min_in (values : list float) :
  Forall (fun v => isFinite v = true) values -> values <> [] ->
  In (Math_min values) values.
Proof.
  intros Hfin Hne. unfold Math_min. rewrite (finite_no_nan values Hfin).
  destruct values as [ | v values]; [ congruence | ]. cbn [fold_left].
  inversion Hfin as [ | ? ? Hv Hvs]; subst.
  rewrite (min_step_finite_first v Hv).
  destruct (fold_min_in values v) as [-> | Hin]; [ now left | now right ].
Qed.

Lemma min_step_le (lowest x : float) :
  isNaN lowest = false -> isNaN x = false ->
  (min_step lowest x <=? lowest) = true /\ (min_step lowest x <=? x) = true /\
  isNaN (min_step lowest x) = false.
Proof.
  intros Hl Hx. unfold min_step.
  destruct (is_neg_zero x && is_pos_zero lowest) eqn:Ez.
  - apply andb_true_iff in Ez. destruct Ez as [Ex El].
    unfold is_neg_zero, is_pos_zero in *.
    repeat split; auto.
    + rewrite leb_spec. destruct (Prim2SF x) as [[] | | | ]; try discriminate.
      now destruct (Prim2SF lowest) as [[] | | | ].
    + rewrite leb_spec. now destruct (Prim2SF x) as [[] | | | ].
  - destruct (x <? lowest) eqn:E.
    + repeat split; auto.
      * now apply ltb_leb.
      * apply eqb_leb. now apply eqb_refl.
    + repeat split; auto.
      * apply eqb_leb. now apply eqb_refl.
      * now apply not_ltb_leb.
Qed.

Lemma leb_trans (x y z : float) : (x <=? y) = true -> (y <=? z) = true -> (x <=? z) = true.
Proof. by_keys. Qed.

Lemma fold_min_le (values : list float) (acc : float) :
  isNaN acc = false -> Forall (fun v => isNaN v = false) values ->
  (fold_left min_step values acc <=? acc) = true /\
  Forall (fun v => (fold_left min_step values acc <=? v) = true) values.
Proof.
  intros Hacc Hvs. revert acc Hacc.
  induction Hvs as [ | v vs Hv Hvs IH]; intros acc Hacc; cbn [fold_left].
  - split; [ apply eqb_leb; now apply eqb_refl | constructor ].
  - destruct (min_step_le acc v Hacc Hv) as (H1 & H2 & H3).
    destruct (IH (min_step acc v) H3) as [H4 H5].
    split; [ exact (leb_trans _ _ _ H4 H1) | ].
    constructor; [ exact (leb_trans _ _ _ H4 H2) | exact H5 ].
Qed.

Lemma Math_min_le (values : list float) :
  Forall (fun v => isFinite v = true) values ->
  Forall (fun v => (Math_min values <=? v) = true) values.
Proof.
  intros Hfin. unfold Math_min. rewrite (finite_no_nan values Hfin).
  apply fold_min_le; [ reflexivity | ].
  eapply Forall_impl; [ | exact Hfin ]. intros v. apply finite_not_nan.
Qed.

Lemma max_step_choice (highest x : float) :
  max_step highest x = x \/ max_step highest x = highest.
Proof.
  unfold max_step. destruct (_ && _); [ now left | ]. destruct (highest <? x); auto.
Qed.

Lemma max_step_finite_first (x : float) : isFinite x = true -> max_step neg_infinity x = x.
Proof.
  intros H. unfold max_step, is_neg_zero.
  change (Prim2SF neg_infinity) with (S754_infinity true).
  rewrite andb_false_r. rewrite ltb_spec. unfold isFinite in H.
  change (Prim2SF neg_infinity) with (S754_infinity true).
  destruct (Prim2SF x) as [sx | sx | | [] m e]; try discriminate; reflexivity.
Qed.

Lemma fold_max_in (values : list float) (acc : float) :
  fold_left max_step values acc = acc \/ In (fold_left max_step values acc) values.
Proof.
  revert acc. induction values as [ | v values IH]; intros acc; cbn [fold_left]; [ now left | ].
  destruct (IH (max_step acc v)) as [E | Hin].
  - rewrite E. destruct (max_step_choice acc v) as [-> | ->]; [ right; now left | now left ].
  - right. now right.
Qed.

Lemma Math_max_in (values : list float) :
  Forall (fun v => isFinite v = true) values -> values <> [] ->
  In (Math_max values) values.
Proof.
  intros Hfin Hne. unfold Math_max. rewrite (finite_no_nan values Hfin).
  destruct values as [ | v values]; [ congruence | ]. cbn [fold_left].
  inversion Hfin as [ | ? ? Hv Hvs]; subst.
  rewrite (max_step_finite_first v Hv).
  destruct (fold_max_in values v) as [-> | Hin]; [ now left | now right ].
Qed.

(* ================================================================== *)
(** * Properties of the weather impact *)
(* ================================================================== *)

Ltac hide_texts :=
  repeat match goal with
         | |- context [String ?a ?s] =>
             let k := fresh "k" in set (k := String a s); clearbody k
         end.

Ltac weather_cases w :=
  unfold evaluateWeatherImpact, badWeathers; cbv zeta; cbn [existsb];
  hide_texts;
  repeat match goal with
         | |- context [str_includes (weather w) ?k] =>
             generalize (str_includes (weather w) k); intros []; cbn [orb]
         end;
  destruct (parseInt (windPower w)) as [n | ];
  repeat match goal with
         | |- context [(?a <=? ?b)%Z] => destruct (a <=? b)%Z; cbn [orb]
         end.

Lemma weather_impact_values (w : WeatherInfo) :
  let i := impact (evaluateWeatherImpact w) in
  ((0 <=? i) && (i <=? 1) && (0 <=? 1 - i) && (1 - i <=? 1) &&
   (negb (existsb (str_includes (weather w)) badWeathers) || (0.3 <=? i))) = true.
Proof.
  weather_cases w; reflexivity.
Qed.

(** Every weather impact lies between 0 and 1, and so does the weather
    sub-score [1 - impact] of the planner. *)
Theorem weather_impact_range (w : WeatherInfo) :
  let i := impact (evaluateWeatherImpact w) in
  (0 <=? i) = true /\ (i <=? 1) = true /\
  (0 <=? 1 - i) = true /\ (1 - i <=? 1) = true.
Proof.
  pose proof (weather_impact_values w) as Hv. cbv zeta in *.
  repeat (apply andb_true_iff in Hv; destruct Hv as [Hv ?]). auto.
Qed.

(* ================================================================== *)
(** * More properties of the planner *)
(* ================================================================== *)

Lemma includes_app (l : list string) (x y : string) :
  includes (l ++ [x]) y = includes l y || String.eqb y x.
Proof.
  unfold includes. rewrite existsb_app. cbn [existsb]. now rewrite orb_false_r.
Qed.

Lemma merged_includes_toll (u : UserPreferences) (p : RoutePlanParams) :
  includes (mergePreferences u p) "avoid_toll" =
  avoidToll u || includes (match preferences p with Some l => l | None => [] end) "avoid_toll".
Proof.
  unfold mergePreferences.
  set (req := match preferences p with Some l => l | None => [] end).
  destruct (avoidHighway u && negb (includes req "avoid_highway")) eqn:Eh;
    destruct (avoidToll u) eqn:Et; cbn [andb orb];
    rewrite ?includes_app; cbn [String.eqb Ascii.eqb Bool.eqb andb orb];
    rewrite ?orb_false_r;
    try (destruct (includes req "avoid_toll") eqn:E; cbn [negb]; rewrite ?includes_app, ?E; reflexivity).
Qed.

Lemma merged_includes_highway (u : UserPreferences) (p : RoutePlanParams) :
  includes (mergePreferences u p) "avoid_highway" =
  avoidHighway u || includes (match preferences p with Some l => l | None => [] end) "avoid_highway".
Proof.
  unfold mergePreferences.
  set (req := match preferences p with Some l => l | None => [] end).
  destruct (avoidHighway u) eqn:Eh; cbn [andb orb].
  - destruct (includes req "avoid_highway") eqn:E; cbn [negb].
    + destruct (avoidToll u && _); rewrite ?includes_app, ?E; reflexivity.
    + destruct (avoidToll u && _); rewrite ?includes_app, ?E; reflexivity.
  - destruct (avoidToll u && _); rewrite ?includes_app; cbn; now rewrite ?orb_false_r.
Qed.

(** When the stored preferences avoid highways or tolls, the strategy
    sent to the path source is fixed by them: 6 if tolls are avoided, by
    the stored preferences or by the call, and 5 otherwise, whatever
    else the call asks for. *)
Theorem stored_preferences_set_strategy (u : UserPreferences) (p : RoutePlanParams) :
  avoidHighway u || avoidToll u = true ->
  getRouteStrategy (mergePreferences u p) =
  if avoidToll u ||
     includes (match preferences p with Some l => l | None => [] end) "avoid_toll"
  then "6" else "5".
Proof.
  intros H. unfold getRouteStrategy.
  rewrite merged_includes_toll, merged_includes_highway.
  destruct (avoidHighway u), (avoidToll u); try discriminate; cbn [orb andb];
    repeat match goal with
           | |- context [includes ?l ?x] => destruct (includes l x); cbn [orb andb]
           end;
    reflexivity.
Qed.

Section CoordFacts.
Variable parseFloat : string -> float.
Variable geocode : string -> option string.

Lemma parsePair_numbers (pair : string) : Forall is_number (parsePair parseFloat pair).
Proof.
  unfold parsePair.
  destruct (isNaN (parseFloat (nth 0 (str_split "," pair) "undefined"))) eqn:E1;
    destruct (isNaN (parseFloat (nth 1 (str_split "," pair) "undefined"))) eqn:E2;
    cbn [negb andb]; constructor; [ now split | constructor ].
Qed.

Lemma Forall_flat_map_intro {A B} (P : B -> Prop) (f : A -> list B) (l : list A) :
  (forall x, Forall P (f x)) -> Forall P (flat_map f l).
Proof.
  intros H. induction l as [ | x l IH]; cbn [flat_map]; [ constructor | ].
  apply Forall_app. split; [ apply H | exact IH ].
Qed.

(** The coordinates read from text are numbers: no point of
    [parseRoutePoints] and no place that [toCoord] resolves from an
    address has a NaN coordinate. *)
Theorem coordinates_from_text_are_numbers :
  (forall polylines, Forall is_number (parseRoutePoints parseFloat polylines)) /\
  (forall userPrefs text c,
     toCoord parseFloat geocode userPrefs (Address text) = Some c -> is_number c).
Proof.
  split.
  - intros polylines. unfold parseRoutePoints. apply Forall_flat_map_intro. intros [s | | ].
    + apply Forall_flat_map_intro, parsePair_numbers.
    + apply Forall_flat_map_intro, parsePair_numbers.
    + constructor.
  - intros userPrefs text c. unfold toCoord.
    assert (Hres : forall address c',
               match geocode address with
               | Some loc =>
                   if negb (isNaN (parseFloat (nth 0 (str_split "," loc) "undefined"))) &&
                      negb (isNaN (parseFloat (nth 1 (str_split "," loc) "undefined")))
                   then Some (mkLngLat (parseFloat (nth 0 (str_split "," loc) "undefined"))
                                (parseFloat (nth 1 (str_split "," loc) "undefined")))
                   else Some (mkLngLat 116.397 39.908)
               | None => None
               end = Some c' -> is_number c').
    { intros address c'. destruct (geocode address) as [loc | ]; [ | discriminate ].
      destruct (isNaN (parseFloat (nth 0 (str_split "," loc) "undefined"))) eqn:E1;
        destruct (isNaN (parseFloat (nth 1 (str_split "," loc) "undefined"))) eqn:E2;
        cbn [negb andb]; intros [= <-]; split; auto. }
    destruct (_ && _); [ apply Hres | ].
    destruct (_ && _); [ apply Hres | ].
    destruct (String.eqb text "当前位置"); [ | apply Hres ].
    intros [= <-]. now split.
Qed.

End CoordFacts.

(** The score of a value that equals the least of the batch. *)
Lemma normalize_least (batch : list Route) (field : Route -> float) (value : float) :
  Forall (fun r => isFinite (field r) = true) batch -> batch <> [] ->
  (value =? Math_min (map field batch)) = true ->
  normalizeScore batch field value true = 1.
Proof.
  intros Hfin Hne Hval. unfold normalizeScore.
  set (values := map field batch) in *.
  assert (Hvfin : Forall (fun v => isFinite v = true) values).
  { subst values. now apply Forall_map. }
  assert (Hvne : values <> []).
  { subst values. destruct batch; [ congruence | discriminate ]. }
  pose proof (Math_min_in values Hvfin Hvne) as Hmin.
  pose proof (Math_max_in values Hvfin Hvne) as Hmax.
  rewrite Forall_forall in Hvfin.
  pose proof (Hvfin _ Hmin) as Fmin. pose proof (Hvfin _ Hmax) as Fmax.
  set (lo := Math_min values) in *. set (hi := Math_max values) in *.
  destruct (hi =? lo) eqn:E; [ reflexivity | ].
  assert (Fval : isFinite value = true).
  { apply eqb_same_key in Hval. destruct Hval as (k & Hk1 & Hk2).
    unfold fkey, isFinite in *.
    destruct (Prim2SF value) as [ | [] | | [] ? ?], (Prim2SF lo) as [ | [] | | [] ? ?];
      cbn in *; congruence. }
  destruct (sub_compare lo value Fmin Fval) as (k1 & k2 & kd & Hk1 & Hk2 & Hkd & Hc).
  destruct (sub_compare lo hi Fmin Fmax) as (k3 & k4 & kr & Hk3 & Hk4 & Hkr & Hc').
  assert (Hzero : kd = (0, 0, 0)%Z).
  { rewrite eqb_fkey, Hk1, Hk2 in Hval.
    rewrite Hk1 in Hk3. injection Hk3 as <-.
    destruct (key_compare k2 k1) eqn:Ec; try discriminate.
    apply key_compare_Eq in Ec. subst k2. rewrite key_compare_refl in Hc.
    apply key_compare_Eq in Hc. now symmetry. }
  subst kd. destruct (fkey_zero_inv _ Hkd) as (s & Hs).
  assert (Hnz : kr <> (0, 0, 0)%Z).
  { intros ->. rewrite key_compare_refl in Hc'. symmetry in Hc'.
    apply key_compare_Eq in Hc'. subst k4.
    rewrite eqb_fkey, Hk3, Hk4, key_compare_refl in E. discriminate. }
  destruct (div_zero_by_number _ _ s kr Hs Hkr Hnz) as (s' & Hs').
  exact (one_minus_zero _ s' Hs').
Qed.

Section MorePlannerFacts.
Variable getTrafficByRectangle : nat -> float -> float -> float -> float -> TrafficResult.

(** [planRoute] never rejects: whatever it is given, it is fulfilled
    with one to three routes whose ids differ, and the recommended id is
    the id of the first route. *)
Theorem plan_result_shape (key : string) (userPrefs : UserPreferences)
    (params : RoutePlanParams) (directions : option (list RawPath))
    (weatherResult : WeatherResult) :
  exists res best rest,
    planRoute getTrafficByRectangle key userPrefs params directions weatherResult
      = Fulfilled res /\
    routes res = best :: rest /\
    recommendedRouteId res = id best /\
    (List.length (routes res) <= 3)%nat /\
    NoDup (map id (routes res)).
Proof.
  assert (Hmock : exists res best rest,
             Fulfilled getMockResult = Fulfilled res /\
             routes res = best :: rest /\
             recommendedRouteId res = id best /\
             (List.length (routes res) <= 3)%nat /\
             NoDup (map id (routes res))).
  { eexists _, _, _. split; [ reflexivity | ]. cbn.
    repeat split; [ lia | ].
    repeat (constructor; [ simpl; intuition discriminate | ]). constructor. }
  unfold planRoute.
  destruct (truthy key); [ | exact Hmock ].
  destruct directions as [paths | ]; [ | exact Hmock ].
  destruct (List.length (parseRoutes paths) =? 0)%nat eqn:El; [ exact Hmock | ].
  set (scored := scoreBatch getTrafficByRectangle userPrefs params paths weatherResult).
  pose proof (sort_perm scored) as Hperm.
  pose proof (scoreBatch_ids getTrafficByRectangle userPrefs params paths weatherResult) as Hids.
  fold scored in Hids.
  assert (Hpid : Permutation (map id scored) (map id (sort scored))) by now apply Permutation_map.
  destruct (sort scored) as [ | best rest] eqn:Es.
  - apply Permutation_sym, Permutation_nil in Hperm.
    subst scored. unfold scoreBatch, mapi in Hperm. apply mapi_from_nil in Hperm.
    rewrite Hperm in El. discriminate.
  - exists (mkRoutePlanResult (recommendedId (best :: rest)) (best :: rest)
              (weatherFor params weatherResult)), best, rest.
    cbn [routes recommendedRouteId recommendedId].
    repeat split.
    + assert (Hin : In (id best) (map id scored)).
      { eapply Permutation_in; [ apply Permutation_sym; exact Hpid | now left ]. }
      rewrite Hids in Hin. now rewrite (ids_truthy _ _ Hin).
    + rewrite <- (Permutation_length Hperm).
      rewrite <- (length_map id), Hids, length_firstn. cbn. lia.
    + eapply Permutation_NoDup; [ exact Hpid | ]. rewrite Hids. apply ids_NoDup.
Qed.
Lemma scoreRoute_fields idx params wth prefs batch (route : Route) :
  let scored := scoreRoute getTrafficByRectangle idx params wth prefs batch route in
  durationSeconds scored = durationSeconds route /\
  distanceMeters scored = distanceMeters route /\
  timeScore (scoreDetails scored) =
    normalizeScore batch durationSeconds (durationSeconds route) true /\
  distanceScore (scoreDetails scored) =
    normalizeScore batch distanceMeters (distanceMeters route) true /\
  weatherScore (scoreDetails scored) =
    match wth with
    | Some w => 1 - impact (evaluateWeatherImpact w)
    | None => 1
    end.
Proof.
  unfold scoreRoute. destruct (_ && _); destruct wth; repeat split.
Qed.

Lemma parseRoutes_fields (paths : list RawPath) :
  map durationSeconds (parseRoutes paths) = map p_duration (firstn 3 paths) /\
  map distanceMeters (parseRoutes paths) = map p_distance (firstn 3 paths).
Proof.
  unfold parseRoutes, mapi. split; now apply map_mapi_from.
Qed.

(** When the durations and the distances of the candidates are finite
    numbers, [planRoute] returns a candidate of least duration whose
    time score is 1 and a candidate of least distance whose distance
    score is 1. *)
Theorem least_scores_one (key : string) (userPrefs : UserPreferences)
    (params : RoutePlanParams) (paths : list RawPath) (weatherResult : WeatherResult) :
  truthy key = true -> paths <> [] ->
  Forall (fun p => isFinite (p_duration p) = true /\ isFinite (p_distance p) = true) paths ->
  exists res fastest shortest,
    planRoute getTrafficByRectangle key userPrefs params (Some paths) weatherResult
      = Fulfilled res /\
    In fastest (routes res) /\ In shortest (routes res) /\
    timeScore (scoreDetails fastest) = 1 /\
    distanceScore (scoreDetails shortest) = 1 /\
    Forall (fun r => (durationSeconds fastest <=? durationSeconds r) = true /\
                     (distanceMeters shortest <=? distanceMeters r) = true) (routes res).
Proof.
  intros Hkey Hne Hfin. unfold planRoute. rewrite Hkey.
  destruct (List.length (parseRoutes paths) =? 0)%nat eqn:El.
  { apply Nat.eqb_eq, List.length_zero_iff_nil in El.
    destruct paths as [ | p ps]; [ congruence | discriminate ]. }
  set (batch := parseRoutes paths).
  set (wth := weatherFor params weatherResult).
  set (prefs := mergePreferences userPrefs params).
  set (scored := scoreBatch getTrafficByRectangle userPrefs params paths weatherResult).
  assert (Hbne : batch <> []).
  { intros E. subst batch. rewrite E in El. discriminate. }
  destruct (parseRoutes_fields paths) as [Ed Em]. fold batch in Ed, Em.
  assert (Hf3 : Forall (fun p => isFinite (p_duration p) = true /\
                                 isFinite (p_distance p) = true) (firstn 3 paths)).
  { rewrite Forall_forall in *. intros p Hp. apply Hfin.
    rewrite <- (firstn_skipn 3 paths). apply in_or_app. now left. }
  assert (Hvd' : Forall (fun v => isFinite v = true) (map durationSeconds batch)).
  { rewrite Ed. apply (proj2 (Forall_map _ _ _)).
    eapply Forall_impl; [ | exact Hf3 ]. now intros p [? ?]. }
  assert (Hvm' : Forall (fun v => isFinite v = true) (map distanceMeters batch)).
  { rewrite Em. apply (proj2 (Forall_map _ _ _)).
    eapply Forall_impl; [ | exact Hf3 ]. now intros p [? ?]. }
  pose proof (proj1 (Forall_map _ _ _) Hvd') as Hfd.
  pose proof (proj1 (Forall_map _ _ _) Hvm') as Hfm.
  cbv beta in Hfd, Hfm.
  assert (Hvd : map durationSeconds batch <> []).
  { destruct batch; [ congruence | discriminate ]. }
  assert (Hvm : map distanceMeters batch <> []).
  { destruct batch; [ congruence | discriminate ]. }
  pose proof (Math_min_in _ Hvd' Hvd) as Hin1.
  pose proof (Math_min_in _ Hvm' Hvm) as Hin2.
  apply in_map_iff in Hin1. destruct Hin1 as (r1 & E1 & Hr1).
  apply in_map_iff in Hin2. destruct Hin2 as (r2 & E2 & Hr2).
  pose proof (Math_min_le _ Hvd') as Hle1.
  pose proof (Math_min_le _ Hvm') as Hle2.
  rewrite <- E1 in Hle1. rewrite <- E2 in Hle2.
  apply (proj1 (Forall_map _ _ _)) in Hle1. apply (proj1 (Forall_map _ _ _)) in Hle2.
  cbv beta in Hle1, Hle2.
  set (f := fun idx => scoreRoute getTrafficByRectangle idx params wth prefs batch).
  assert (Hscored : scored = mapi_from (fun r idx => f idx r) 0 batch) by reflexivity.
  pose proof (sort_perm scored) as Hperm.
  assert (Hat : forall r, In r batch -> exists idx, In (f idx r) scored).
  { intros r Hr. apply In_nth_error in Hr. destruct Hr as (idx & Hr). exists idx.
    apply (nth_error_In _ idx). rewrite Hscored, mapi_from_nth_error, Hr. reflexivity. }
  destruct (Hat r1 Hr1) as (i1 & Hs1). destruct (Hat r2 Hr2) as (i2 & Hs2).
  exists (mkRoutePlanResult (recommendedId (sort scored)) (sort scored) wth),
    (f i1 r1), (f i2 r2).
  cbn [routes].
  assert (Hf : forall idx r,
             durationSeconds (f idx r) = durationSeconds r /\
             distanceMeters (f idx r) = distanceMeters r /\
             timeScore (scoreDetails (f idx r)) =
               normalizeScore batch durationSeconds (durationSeconds r) true /\
             distanceScore (scoreDetails (f idx r)) =
               normalizeScore batch distanceMeters (distanceMeters r) true).
  { intros idx r. pose proof (scoreRoute_fields idx params wth prefs batch r) as H.
    cbv zeta in H. fold (f idx) in H. tauto. }
  split; [ reflexivity | ].
  split; [ eapply Permutation_in; [ exact Hperm | exact Hs1 ] | ].
  split; [ eapply Permutation_in; [ exact Hperm | exact Hs2 ] | ].
  destruct (Hf i1 r1) as (D1 & _ & T1 & _). destruct (Hf i2 r2) as (_ & M2 & _ & S2).
  split.
  { rewrite T1. apply normalize_least; auto. rewrite E1. apply eqb_refl.
    rewrite <- E1. apply finite_not_nan. rewrite Forall_forall in Hfd. now apply Hfd. }
  split.
  { rewrite S2. apply normalize_least; auto. rewrite E2. apply eqb_refl.
    rewrite <- E2. apply finite_not_nan. rewrite Forall_forall in Hfm. now apply Hfm. }
  eapply Permutation_Forall; [ exact Hperm | ]. rewrite Hscored.
  apply mapi_from_Forall.
  rewrite Forall_forall in *. intros r idx Hr.
  destruct (Hf idx r) as (D & M & _ & _). rewrite D1, M2, D, M. split; auto.
Qed.

(** Every route [planRoute] returns has a weather sub-score between 0
    and 1. *)
Theorem weather_subscore_range (key : string) (userPrefs : UserPreferences)
    (params : RoutePlanParams) (directions : option (list RawPath))
    (weatherResult : WeatherResult) :
  exists res,
    planRoute getTrafficByRectangle key userPrefs params directions weatherResult
      = Fulfilled res /\
    Forall (fun r => (0 <=? weatherScore (scoreDetails r)) = true /\
                     (weatherScore (scoreDetails r) <=? 1) = true) (routes res).
Proof.
  assert (Hmock : exists res,
             Fulfilled getMockResult = Fulfilled res /\
             Forall (fun r => (0 <=? weatherScore (scoreDetails r)) = true /\
                              (weatherScore (scoreDetails r) <=? 1) = true) (routes res)).
  { eexists. split; [ reflexivity | ]. cbn. repeat constructor. }
  unfold planRoute.
  destruct (truthy key); [ | exact Hmock ].
  destruct directions as [paths | ]; [ | exact Hmock ].
  destruct (List.length (parseRoutes paths) =? 0)%nat; [ exact Hmock | ].
  eexists. split; [ reflexivity | ]. cbn [routes].
  eapply Permutation_Forall; [ apply sort_perm | ].
  unfold scoreBatch, mapi. apply mapi_from_Forall. intros r idx _.
  pose proof (scoreRoute_fields idx params (weatherFor params weatherResult)
                (mergePreferences userPrefs params) (parseRoutes paths) r) as H.
  cbv zeta in H. destruct H as (_ & _ & _ & _ & ->).
  destruct (weatherFor params weatherResult) as [w | ].
  - pose proof (weather_impact_values w) as Hr. cbv zeta in Hr.
    repeat (apply andb_true_iff in Hr; destruct Hr as [Hr ?]). now split.
  - now split.
Qed.

End MorePlannerFacts.

Lemma stored_preferences_set_strategy_witness :
  getRouteStrategy
    (mergePreferences (mkUserPreferences true false)
       (mkRoutePlanParams (Some ["fastest"]) None None)) = "5".
Proof.
  exact (stored_preferences_set_strategy (mkUserPreferences true false)
           (mkRoutePlanParams (Some ["fastest"]) None None) eq_refl).
Defined.

Lemma least_scores_one_witness :
  exists res fastest shortest,
    planRoute Sample.someTraffic "key" Sample.users Sample.defaults
      (Some Sample.threePaths) Sample.noWeather = Fulfilled res /\
    In fastest (routes res) /\ In shortest (routes res) /\
    timeScore (scoreDetails fastest) = 1 /\
    distanceScore (scoreDetails shortest) = 1 /\
    Forall (fun r => (durationSeconds fastest <=? durationSeconds r) = true /\
                     (distanceMeters shortest <=? distanceMeters r) = true) (routes res).
Proof.
  apply (least_scores_one Sample.someTraffic "key" Sample.users Sample.defaults
           Sample.threePaths Sample.noWeather).
  - reflexivity.
  - discriminate.
  - repeat constructor.
Defined.

(* ================================================================== *)
(** * More properties of the traffic monitor *)
(* ================================================================== *)

Lemma map_get_set (m : EventMap) (k i : string) (v : TrafficEvent) :
  map_get (map_set m k v) i = if String.eqb k i then Some v else map_get m i.
Proof.
  unfold map_get.
  induction m as [ | [k' v'] m IH]; cbn [map_set find fst].
  - now destruct (String.eqb k i).
  - destruct (String.eqb k' k) eqn:E; cbn [find fst].
    + apply String.eqb_eq in E. subst k'. now destruct (String.eqb k i).
    + destruct (String.eqb k' i) eqn:E'.
      * apply String.eqb_eq in E'. subst i. now rewrite String.eqb_sym, E.
      * exact IH.
Qed.

Lemma map_get_expire (m : EventMap) (events : list TrafficEvent) (i : string) :
  map_get (expire m events) i = if reports i events then map_get m i else None.
Proof.
  unfold map_get, expire, reports.
  induction m as [ | [k v] m IH]; cbn [filter find fst].
  - now destruct (existsb _ events).
  - destruct (existsb (fun e => String.eqb (ev_id e) k) events) eqn:Ek; cbn [find fst].
    + destruct (String.eqb k i) eqn:E; [ | exact IH ].
      apply String.eqb_eq in E. subst k. now rewrite Ek.
    + destruct (String.eqb k i) eqn:E; [ | exact IH ].
      apply String.eqb_eq in E. subst k. rewrite Ek in IH. now rewrite Ek.
Qed.

Lemma map_set_keys (m : EventMap) (k : string) (v : TrafficEvent) :
  map fst (map_set m k v) = if map_has m k then map fst m else map fst m ++ [k].
Proof.
  unfold map_has.
  induction m as [ | [k' v'] m IH]; cbn [map_set map existsb fst app]; [ reflexivity | ].
  destruct (String.eqb k' k) eqn:E; cbn [map fst orb].
  - apply String.eqb_eq in E. now subst k'.
  - rewrite IH. now destruct (existsb _ m).
Qed.

Lemma map_has_In (m : EventMap) (k : string) :
  map_has m k = true <-> In k (map fst m).
Proof.
  unfold map_has. rewrite existsb_exists, in_map_iff. split.
  - intros (kv & Hin & E). apply String.eqb_eq in E. now exists kv.
  - intros (kv & E & Hin). exists kv. split; [ exact Hin | now apply String.eqb_eq ].
Qed.

Lemma map_set_NoDup (m : EventMap) (k : string) (v : TrafficEvent) :
  NoDup (map fst m) -> NoDup (map fst (map_set m k v)).
Proof.
  intros H. rewrite map_set_keys. destruct (map_has m k) eqn:E; [ exact H | ].
  apply NoDup_app; [ exact H | repeat constructor; intros [] | ].
  intros x Hx [<- | []]. apply map_has_In in Hx. congruence.
Qed.

Lemma expire_NoDup (m : EventMap) (events : list TrafficEvent) :
  NoDup (map fst m) -> NoDup (map fst (expire m events)).
Proof.
  unfold expire. induction m as [ | [k v] m IH]; cbn [filter map fst]; intros H.
  - constructor.
  - inversion H as [ | ? ? Hk Hm]; subst.
    destruct (existsb _ events); cbn [map fst]; [ | now apply IH ].
    constructor; [ | now apply IH ].
    intros Hin. apply Hk. apply in_map_iff in Hin. destruct Hin as (kv & E & Hin).
    apply filter_In in Hin. apply in_map_iff. exists kv. now split.
Qed.

Lemma map_get_In (m : EventMap) (k : string) (v : TrafficEvent) :
  NoDup (map fst m) -> In (k, v) m <-> map_get m k = Some v.
Proof.
  unfold map_get.
  induction m as [ | [k' v'] m IH]; cbn [map fst find In]; intros H.
  - split; [ contradiction | discriminate ].
  - inversion H as [ | ? ? Hk Hm]; subst.
    destruct (String.eqb k' k) eqn:E.
    + apply String.eqb_eq in E. subst k'. cbn [option_map snd]. split.
      * intros [[= ->] | Hin]; [ reflexivity | ].
        exfalso. apply Hk. apply in_map_iff. now exists (k, v).
      * intros [= ->]. now left.
    + rewrite <- (IH Hm). split.
      * intros [[= -> ->] | Hin]; [ | exact Hin ]. now rewrite String.eqb_refl in E.
      * intros Hin. now right.
Qed.

Lemma same_entries (m1 m2 : EventMap) :
  NoDup (map fst m1) -> NoDup (map fst m2) ->
  (forall k, map_get m1 k = map_get m2 k) -> Permutation m1 m2.
Proof.
  intros H1 H2 Hget. apply NoDup_Permutation.
  - eapply NoDup_map_inv. exact H1.
  - eapply NoDup_map_inv. exact H2.
  - intros [k v]. now rewrite (map_get_In m1 k v H1), (map_get_In m2 k v H2), Hget.
Qed.

Section MoreMonitorFacts.
Variable Math_cos : float -> float.

Lemma checkNewEvents_NoDup (route : list LngLat) (last : EventMap)
    (events : list TrafficEvent) :
  NoDup (map fst last) ->
  NoDup (map fst (fst (checkNewEvents Math_cos route last events))).
Proof.
  revert last. induction events as [ | e events IH]; intros last H;
    cbn [checkNewEvents fst]; [ exact H | ].
  specialize (IH (map_set last (ev_id e) e) (map_set_NoDup _ _ _ H)).
  now destruct (checkNewEvents Math_cos route (map_set last (ev_id e) e) events).
Qed.

Lemma find_none_reports (i : string) (events : list TrafficEvent) :
  find (fun e => String.eqb (ev_id e) i) events = None <-> reports i events = false.
Proof.
  unfold reports. induction events as [ | e events IH]; cbn [find existsb].
  - now split.
  - destruct (String.eqb (ev_id e) i); cbn [orb]; [ | exact IH ]. now split.
Qed.

Lemma checkNewEvents_get (route : list LngLat) (last : EventMap)
    (events : list TrafficEvent) (i : string) :
  NoDup (map ev_id events) ->
  map_get (fst (checkNewEvents Math_cos route last events)) i =
  match find (fun e => String.eqb (ev_id e) i) events with
  | Some e => Some e
  | None => map_get last i
  end.
Proof.
  revert last. induction events as [ | e events IH]; intros last H;
    cbn [checkNewEvents fst find]; [ reflexivity | ].
  inversion H as [ | ? ? He Hev]; subst.
  specialize (IH (map_set last (ev_id e) e) Hev).
  destruct (checkNewEvents Math_cos route (map_set last (ev_id e) e) events) as [l a].
  cbn [fst] in *. rewrite IH, map_get_set.
  destruct (String.eqb (ev_id e) i) eqn:E; [ | reflexivity ].
  apply String.eqb_eq in E. subst i.
  destruct (find _ events) as [e' | ] eqn:Ef; [ | reflexivity ].
  apply find_some in Ef. destruct Ef as [Hin E']. apply String.eqb_eq in E'.
  exfalso. apply He. rewrite <- E'. now apply in_map.
Qed.

Lemma snapshot_get (events : list TrafficEvent) (i : string) :
  map_get (map (fun e => (ev_id e, e)) events) i =
  find (fun e => String.eqb (ev_id e) i) events.
Proof.
  unfold map_get. induction events as [ | e events IH]; cbn [map find fst]; [ reflexivity | ].
  now destruct (String.eqb (ev_id e) i).
Qed.

Lemma resume_mirrors (m : Monitor) (events : list TrafficEvent) :
  NoDup (map fst (lastEvents m)) -> NoDup (map ev_id events) ->
  Permutation
    (lastEvents (fst (checkTrafficEvents_resume Math_cos m (Some events))))
    (map (fun e => (ev_id e, e)) events).
Proof.
  intros Hm Hev. unfold checkTrafficEvents_resume.
  pose proof (checkNewEvents_NoDup (currentRoute m) (lastEvents m) events Hm) as Hnd.
  pose proof (fun i => checkNewEvents_get (currentRoute m) (lastEvents m) events i Hev) as Hget.
  destruct (checkNewEvents Math_cos (currentRoute m) (lastEvents m) events) as [last alerts].
  cbn [fst lastEvents] in *.
  apply same_entries.
  - now apply expire_NoDup.
  - rewrite map_map. cbn [fst]. exact Hev.
  - intros i. rewrite map_get_expire, snapshot_get, Hget.
    destruct (find _ events) as [e | ] eqn:Ef.
    + destruct (reports i events) eqn:Er; [ reflexivity | ].
      apply find_none_reports in Er. congruence.
    + apply find_none_reports in Ef. now rewrite Ef.
Qed.

Lemma resume_NoDup (m : Monitor) (fetched : option (list TrafficEvent)) :
  NoDup (map fst (lastEvents m)) ->
  NoDup (map fst (lastEvents (fst (checkTrafficEvents_resume Math_cos m fetched)))).
Proof.
  intros Hm. unfold checkTrafficEvents_resume. destruct fetched as [events | ]; [ | exact Hm ].
  pose proof (checkNewEvents_NoDup (currentRoute m) (lastEvents m) events Hm) as Hnd.
  destruct (checkNewEvents Math_cos (currentRoute m) (lastEvents m) events) as [last alerts].
  cbn [fst lastEvents] in *. now apply expire_NoDup.
Qed.

Lemma step_NoDup (rt : Runtime) (a : Action) :
  NoDup (map fst (lastEvents (monitor rt))) ->
  NoDup (map fst (lastEvents (monitor (fst (step Math_cos rt a))))).
Proof.
  intros H. destruct a as [pts | | pts | t | fetched]; cbn [step].
  - cbn [fst monitor lastEvents]. now rewrite begin_monitor.
  - constructor.
  - exact H.
  - destruct (_ && _); cbn [fst]; [ now rewrite begin_monitor | exact H ].
  - destruct (pending rt) as [ | b others]; [ exact H | ].
    pose proof (resume_NoDup (monitor rt) fetched H) as H'.
    now destruct (checkTrafficEvents_resume Math_cos (monitor rt) fetched).
Qed.

Lemma run_NoDup (actions : list Action) (rt : Runtime) :
  NoDup (map fst (lastEvents (monitor rt))) ->
  NoDup (map fst (lastEvents (monitor (fst (run Math_cos rt actions))))).
Proof.
  revert rt. induction actions as [ | a actions IH]; intros rt H; cbn [run]; [ exact H | ].
  pose proof (step_NoDup rt a H) as H1.
  destruct (step Math_cos rt a) as [rt1 alerts]. cbn [fst] in H1.
  specialize (IH rt1 H1). now destruct (run Math_cos rt1 actions).
Qed.

(** After a poll of a monitor has settled with a snapshot whose events
    have different ids, the active events are the events of the
    snapshot, up to their order, and [hasSevereEvents] tells whether
    the snapshot holds a severe event. *)
Theorem active_events_mirror_snapshot (key : string) (actions : list Action)
    (events : list TrafficEvent) :
  let rt := fst (run Math_cos (initialRuntime key) actions) in
  pending rt <> [] -> NoDup (map ev_id events) ->
  let m := monitor (fst (step Math_cos rt (FetchSettles (Some events)))) in
  Permutation (getActiveEvents m) events /\
  hasSevereEvents m = existsb isSevere events.
Proof.
  intros rt Hp Hev m.
  assert (Hnd : NoDup (map fst (lastEvents (monitor rt)))).
  { apply run_NoDup. constructor. }
  assert (Hperm : Permutation (getActiveEvents m) events).
  { subst m. cbn [step]. destruct (pending rt) as [ | b others]; [ congruence | ].
    pose proof (resume_mirrors (monitor rt) events Hnd Hev) as H.
    destruct (checkTrafficEvents_resume Math_cos (monitor rt) (Some events)) as [m' al].
    cbn [fst monitor] in *. unfold getActiveEvents.
    apply (Permutation_map snd) in H. rewrite map_map in H. cbn [snd] in H.
    now rewrite map_id in H. }
  split; [ exact Hperm | ].
  unfold hasSevereEvents. fold (getActiveEvents m).
  apply eq_true_iff_eq. rewrite !existsb_exists.
  split; intros (e & Hin & He); exists e; (split; [ | exact He ]).
  - eapply Permutation_in; [ exact Hperm | exact Hin ].
  - eapply Permutation_in; [ apply Permutation_sym; exact Hperm | exact Hin ].
Qed.

(** ** No credential *)

Lemma begin_without_key (rt : Runtime) :
  amapKey rt = "" -> checkTrafficEvents_begin rt = rt.
Proof.
  intros Hk. unfold checkTrafficEvents_begin. rewrite Hk.
  now destruct (List.length (currentRoute (monitor rt)) <? 2)%nat.
Qed.

Lemma step_without_key (rt : Runtime) (a : Action) :
  amapKey rt = "" -> pending rt = [] ->
  snd (step Math_cos rt a) = [] /\
  amapKey (fst (step Math_cos rt a)) = "" /\
  pending (fst (step Math_cos rt a)) = [].
Proof.
  intros Hk Hp. destruct a as [pts | | pts | t | fetched]; cbn [step].
  - rewrite begin_without_key by exact Hk. cbn. auto.
  - cbn. auto.
  - cbn. auto.
  - destruct (_ && _); [ rewrite begin_without_key by exact Hk | ]; cbn; auto.
  - rewrite Hp. cbn. auto.
Qed.

(** Without a credential the monitor never sends a request and never
    raises an alert, whatever is done with it. *)
Theorem no_key_no_polls (rt : Runtime) (actions : list Action) :
  amapKey rt = "" -> pending rt = [] ->
  snd (run Math_cos rt actions) = [] /\
  pending (fst (run Math_cos rt actions)) = [].
Proof.
  revert rt. induction actions as [ | a actions IH]; intros rt Hk Hp; cbn [run].
  - now split.
  - destruct (step_without_key rt a Hk Hp) as (Ha & Hk1 & Hp1).
    destruct (step Math_cos rt a) as [rt1 alerts]. cbn [fst snd] in *.
    destruct (IH rt1 Hk1 Hp1) as [Hm Hp2].
    destruct (run Math_cos rt1 actions) as [rt2 more]. cbn [fst snd] in *.
    now rewrite Ha, Hm.
Qed.

(** ** Routes of fewer than two points *)

Lemma affects_short_route (route : list LngLat) (e : TrafficEvent) :
  short route = true -> checkEventAffectsRoute Math_cos route e = false.
Proof.
  intros Hs. unfold checkEventAffectsRoute. destruct (location e) as [loc | ]; [ | reflexivity ].
  destruct route as [ | p [ | q route]]; [ reflexivity | reflexivity | discriminate ].
Qed.

Lemma checkNewEvents_short_route (route : list LngLat) (last : EventMap)
    (events : list TrafficEvent) :
  short route = true -> snd (checkNewEvents Math_cos route last events) = [].
Proof.
  intros Hs. revert last. induction events as [ | e events IH]; intros last;
    cbn [checkNewEvents snd]; [ reflexivity | ].
  specialize (IH (map_set last (ev_id e) e)).
  destruct (checkNewEvents Math_cos route (map_set last (ev_id e) e) events) as [l more].
  cbn [snd] in *. rewrite affects_short_route by exact Hs. now rewrite andb_false_r.
Qed.

Lemma begin_short_route (rt : Runtime) :
  short (currentRoute (monitor rt)) = true -> checkTrafficEvents_begin rt = rt.
Proof. intros Hs. unfold checkTrafficEvents_begin. unfold short in Hs. now rewrite Hs. Qed.

Lemma step_short_route (rt : Runtime) (a : Action) :
  short (currentRoute (monitor rt)) = true -> keeps_short a = true ->
  snd (step Math_cos rt a) = [] /\
  short (currentRoute (monitor (fst (step Math_cos rt a)))) = true /\
  (List.length (pending (fst (step Math_cos rt a))) <= List.length (pending rt))%nat.
Proof.
  intros Hs Hk. destruct a as [pts | | pts | t | fetched]; cbn [step keeps_short] in *.
  - rewrite begin_short_route by exact Hk.
    cbn [fst snd monitor currentRoute pending with_monitor]. auto.
  - cbn [fst snd monitor currentRoute pending]. auto.
  - cbn [fst snd monitor currentRoute pending with_monitor]. auto.
  - destruct (_ && _); [ rewrite begin_short_route by exact Hs | ];
      cbn [fst snd]; auto.
  - destruct (pending rt) as [ | b others] eqn:Ep.
    + cbn [fst snd]. rewrite Ep. auto.
    + unfold checkTrafficEvents_resume. destruct fetched as [events | ].
      * pose proof (checkNewEvents_short_route (currentRoute (monitor rt))
                      (lastEvents (monitor rt)) events Hs) as H.
        destruct (checkNewEvents Math_cos (currentRoute (monitor rt))
                    (lastEvents (monitor rt)) events) as [last alerts].
        cbn [fst snd monitor currentRoute pending List.length] in *. auto.
      * cbn [fst snd monitor currentRoute pending List.length]. auto.
Qed.

(** As long as the route has fewer than two points no alert is raised,
    not even by a fetch that was under way, and no request is sent. *)
Theorem short_route_never_alerts (rt : Runtime) (actions : list Action) :
  short (currentRoute (monitor rt)) = true -> forallb keeps_short actions = true ->
  snd (run Math_cos rt actions) = [] /\
  (List.length (pending (fst (run Math_cos rt actions))) <= List.length (pending rt))%nat.
Proof.
  revert rt. induction actions as [ | a actions IH]; intros rt Hs Hk; cbn [run].
  - split; [ reflexivity | cbn; lia ].
  - cbn [forallb] in Hk. apply andb_true_iff in Hk. destruct Hk as [Ha Hk].
    destruct (step_short_route rt a Hs Ha) as (H1 & H2 & H3).
    destruct (step Math_cos rt a) as [rt1 alerts]. cbn [fst snd] in *.
    destruct (IH rt1 H2 Hk) as [H4 H5].
    destruct (run Math_cos rt1 actions) as [rt2 more]. cbn [fst snd] in *.
    split; [ now rewrite H1, H4 | lia ].
Qed.

(** ** Timers *)

(** [stopMonitoring] cancels the timer of the latest [startMonitoring]
    only: a timer that was set before a restart is still set after the
    restart and a stop. *)
Theorem restart_keeps_earlier_timer (rt : Runtime) (routePoints : list LngLat) (t : nat) :
  In t (timers rt) -> t <> nextTimer rt ->
  In t (timers (fst (run Math_cos rt [StartMonitoring routePoints; StopMonitoring]))).
Proof.
  intros Hin Hne. cbn [run step fst timers monitor monitorTimer].
  assert (Hb : forall r, timers (checkTrafficEvents_begin r) = timers r /\
                         nextTimer (checkTrafficEvents_begin r) = nextTimer r).
  { intros r. unfold checkTrafficEvents_begin.
    destruct (_ <? 2)%nat; [ now split | ]. destruct (negb _); [ now split | ].
    now destruct (calculateBounds _). }
  destruct (Hb (with_monitor rt (mkMonitor true (monitorTimer (monitor rt)) routePoints
                                   (lastEvents (monitor rt))))) as [Ht Hn].
  rewrite Ht, Hn. cbn [with_monitor timers nextTimer].
  destruct (nextTimer rt =? 0)%nat eqn:E0.
  - now right.
  - apply filter_In. split; [ now right | ].
    apply negb_true_iff, Nat.eqb_neq. exact Hne.
Qed.

End MoreMonitorFacts.

(** ** Callbacks *)

Lemma indexOf_absent (arr : list Callback) (x : Callback) :
  ~ In x arr -> indexOf arr x = None.
Proof.
  induction arr as [ | y arr IH]; intros H; cbn [indexOf]; [ reflexivity | ].
  destruct (Nat.eqb y x) eqn:E.
  - apply Nat.eqb_eq in E. exfalso. apply H. now left.
  - rewrite IH; [ reflexivity | ]. intros Hin. apply H. now right.
Qed.

Lemma offAlert_perm (arr : list Callback) (x : Callback) :
  In x arr -> Permutation (x :: offAlert arr x) arr.
Proof.
  unfold offAlert. induction arr as [ | y arr IH]; intros H; [ contradiction | ].
  cbn [indexOf]. destruct (Nat.eqb y x) eqn:E.
  - apply Nat.eqb_eq in E. subst y. reflexivity.
  - assert (Hin : In x arr).
    { destruct H as [-> | H]; [ now rewrite Nat.eqb_refl in E | exact H ]. }
    specialize (IH Hin). destruct (indexOf arr x) as [i | ]; cbn [option_map].
    + cbn [firstn skipn app]. rewrite perm_swap. now apply perm_skip.
    + rewrite perm_swap. now apply perm_skip.
Qed.

(** [offAlert] after [onAlert] of the same callback leaves the
    callbacks as they were, up to their order; when the callback was
    not registered before, they are exactly as they were. *)
Theorem offAlert_undoes_onAlert (alertCallbacks : list Callback) (callback : Callback) :
  Permutation (offAlert (onAlert alertCallbacks callback) callback) alertCallbacks /\
  (~ In callback alertCallbacks ->
   offAlert (onAlert alertCallbacks callback) callback = alertCallbacks).
Proof.
  split.
  - apply (Permutation_cons_inv (a := callback)).
    rewrite offAlert_perm.
    + unfold onAlert. rewrite Permutation_app_comm. reflexivity.
    + unfold onAlert. apply in_or_app. right. now left.
  - intros Hnot. unfold offAlert, onAlert.
    assert (H : forall arr, ~ In callback arr ->
                 indexOf (arr ++ [callback]) callback = Some (List.length arr)).
    { induction arr as [ | y arr IH]; intros Hn; cbn [indexOf app List.length].
      - now rewrite Nat.eqb_refl.
      - destruct (Nat.eqb y callback) eqn:E.
        + apply Nat.eqb_eq in E. exfalso. apply Hn. now left.
        + rewrite IH; [ reflexivity | ]. intros Hin. apply Hn. now right. }
    rewrite (H _ Hnot).
    rewrite firstn_app, Nat.sub_diag, firstn_all. cbn [firstn]. rewrite app_nil_r.
    rewrite skipn_all2; [ now rewrite app_nil_r | ].
    rewrite length_app. cbn. lia.
Qed.

Section FetchFacts.
Variable Math_cos : float -> float.
Variable parseFloat : string -> float.

Lemma or_number_number (a b : float) : isNaN b = false -> isNaN (or_number a b) = false.
Proof.
  intros Hb. unfold or_number. destruct (isNaN a) eqn:Ea; cbn [orb]; [ exact Hb | ].
  now destruct (a =? 0).
Qed.

Lemma roadEvent_shape (road : Road) (clock : Clock) (e : TrafficEvent) :
  roadEvent parseFloat road clock = Some e ->
  exists status,
    parseInt (or_string (rd_status road) "0") = Some status /\ (3 <= status)%Z /\
    ev_type e = congestion /\
    roadName e = or_string (rd_name road) "未知道路" /\
    typeText e = (if (status =? 4)%Z then "严重拥堵" else "拥堵") /\
    isSevere e = (status =? 4)%Z /\
    delayMinutes e = Some (if (status =? 4)%Z then 20 else 10) /\
    exists loc, location e = Some loc /\ is_number loc.
Proof.
  unfold roadEvent. destruct (parseInt _) as [status | ]; [ | discriminate ].
  destruct (3 <=? status)%Z eqn:E3; [ | discriminate ].
  intros [= <-]. exists status. apply Z.leb_le in E3.
  cbn [ev_type roadName typeText delayMinutes location].
  repeat split; auto.
  - unfold isSevere. cbn [ev_impact]. now destruct (status =? 4)%Z.
  - eexists. split; [ reflexivity | ]. split; cbn [lng lat].
    + now apply or_number_number.
    + destruct (str_split "," (hd "" (str_split ";" (or_string (rd_polyline road) ""))))
        as [ | s0 [ | s1 rest]]; try reflexivity. now apply or_number_number.
Qed.

Lemma fetched_event (answer : list (Road * Clock)) (e : TrafficEvent) :
  In e (flat_map (fun rc => match roadEvent parseFloat (fst rc) (snd rc) with
                            | Some e => [e]
                            | None => []
                            end) answer) ->
  exists road clock, In (road, clock) answer /\ roadEvent parseFloat road clock = Some e.
Proof.
  intros H. apply in_flat_map in H. destruct H as ([road clock] & Hin & He).
  cbn [fst snd] in He. destruct (roadEvent parseFloat road clock) as [e' | ] eqn:E.
  - destruct He as [<- | []]. now exists road, clock.
  - contradiction.
Qed.

(** Every alert the monitor raises from a parsed answer of the traffic
    source is for a road of the answer whose status code is 3 or more.
    Its event is severe exactly when the code is 4, its location has
    numbers for coordinates, an alternative is said to be available,
    and its text is the congestion wording with the road's name and a
    delay of 20 minutes for the code 4 and of 10 minutes otherwise. *)
Theorem fetched_alerts_are_congestion_alerts (rt : Runtime)
    (answer : list (Road * Clock)) (a : TrafficAlert) :
  In a (snd (step Math_cos rt (FetchSettles (fetchTrafficEvents parseFloat (Some answer))))) ->
  exists road clock status,
    In (road, clock) answer /\
    parseInt (or_string (rd_status road) "0") = Some status /\ (3 <= status)%Z /\
    isSevere (event a) = (status =? 4)%Z /\
    alternativeAvailable a = true /\
    (exists loc, location (event a) = Some loc /\ is_number loc) /\
    suggestion a =
      [Str "前方"; Str (or_string (rd_name road) "未知道路");
       Str (if (status =? 4)%Z then "严重拥堵" else "拥堵"); Str "，预计延误";
       Num (if (status =? 4)%Z then 20 else 10); Str "分钟"].
Proof.
  cbn [step fetchTrafficEvents option_map].
  destruct (pending rt) as [ | b others]; [ contradiction | ].
  unfold checkTrafficEvents_resume.
  set (events := flat_map _ answer).
  pose proof (checkNewEvents_alert Math_cos (currentRoute (monitor rt))
                (lastEvents (monitor rt)) events a) as H.
  destruct (checkNewEvents Math_cos (currentRoute (monitor rt)) (lastEvents (monitor rt)) events)
    as [last alerts].
  cbn [snd] in *. intros Hin. destruct (H Hin) as (e & -> & He & _ & _).
  destruct (fetched_event answer e He) as (road & clock & Hrc & Hev).
  destruct (roadEvent_shape road clock e Hev)
    as (status & Hs & H3 & Hty & Hname & Htext & Hsev & Hdelay & Hloc).
  exists road, clock, status. repeat split; auto.
  unfold createAlert. cbn [suggestion]. rewrite Hty, Hname, Htext.
  unfold delay_or. rewrite Hdelay. now destruct (status =? 4)%Z.
Qed.

End FetchFacts.

Lemma active_events_mirror_snapshot_witness :
  let rt := fst (run Sample.cos (initialRuntime "key") [StartMonitoring Sample.leg]) in
  let events := [Sample.jam "a" Sample.near; Sample.jam "b" Sample.far] in
  let m := monitor (fst (step Sample.cos rt (FetchSettles (Some events)))) in
  Permutation (getActiveEvents m) events /\
  hasSevereEvents m = existsb isSevere events.
Proof.
  apply (active_events_mirror_snapshot Sample.cos "key" [StartMonitoring Sample.leg]
           [Sample.jam "a" Sample.near; Sample.jam "b" Sample.far]).
  - vm_compute. discriminate.
  - repeat (constructor; [ simpl; intuition discriminate | ]). constructor.
Defined.

Lemma no_key_no_polls_witness :
  let actions := [StartMonitoring Sample.leg; TimerFires 1;
                  FetchSettles (Some [Sample.jam "a" Sample.near])] in
  snd (run Sample.cos (initialRuntime "") actions) = [] /\
  pending (fst (run Sample.cos (initialRuntime "") actions)) = [].
Proof.
  apply (no_key_no_polls Sample.cos (initialRuntime "")); reflexivity.
Defined.

Lemma short_route_never_alerts_witness :
  let rt := fst (run Sample.cos Sample.watching [UpdateRoute [Sample.near]]) in
  let actions := [FetchSettles (Some [Sample.jam "a" Sample.near]); TimerFires 1] in
  snd (run Sample.cos rt actions) = [] /\
  (List.length (pending (fst (run Sample.cos rt actions))) <= List.length (pending rt))%nat.
Proof.
  apply (short_route_never_alerts Sample.cos
           (fst (run Sample.cos Sample.watching [UpdateRoute [Sample.near]]))); reflexivity.
Defined.

Lemma restart_keeps_earlier_timer_witness :
  In 1%nat
    (timers (fst (run Sample.cos Sample.watching
                    [StartMonitoring Sample.leg; StopMonitoring]))).
Proof.
  apply (restart_keeps_earlier_timer Sample.cos Sample.watching Sample.leg 1).
  - vm_compute. now left.
  - vm_compute. discriminate.
Defined.

Lemma fetched_alerts_are_congestion_alerts_witness :
  let a := createAlert Sample.blocked in
  let answer := [(Sample.blockedRoad, Sample.noon)] in
  exists road clock status,
    In (road, clock) answer /\
    parseInt (or_string (rd_status road) "0") = Some status /\ (3 <= status)%Z /\
    isSevere (event a) = (status =? 4)%Z /\
    alternativeAvailable a = true /\
    (exists loc, location (event a) = Some loc /\ is_number loc) /\
    suggestion a =
      [Str "前方"; Str (or_string (rd_name road) "未知道路");
       Str (if (status =? 4)%Z then "严重拥堵" else "拥堵"); Str "，预计延误";
       Num (if (status =? 4)%Z then 20 else 10); Str "分钟"].
Proof.
  apply (fetched_alerts_are_congestion_alerts Sample.cos Sample.parseFloat Sample.watching
           [(Sample.blockedRoad, Sample.noon)] (createAlert Sample.blocked)).
  vm_compute. now left.
Defined.

(* ================================================================== *)
(** * Properties of the ability *)
(* ================================================================== *)

Lemma detect_is_bad (old w : WeatherInfo) :
  detectWeatherChange old w = true ->
  existsb (str_includes (weather w)) badWeathers = true.
Proof.
  unfold detectWeatherChange. destruct (negb _); [ | discriminate ].
  rewrite !existsb_exists. intros (bad & Hin & H). exists bad.
  apply andb_true_iff in H. now split.
Qed.

Lemma detect_same (w : WeatherInfo) : detectWeatherChange w w = false.
Proof. unfold detectWeatherChange. now rewrite String.eqb_refl. Qed.

Lemma bad_weather_impact (old w : WeatherInfo) :
  detectWeatherChange old w = true ->
  (0.3 <=? impact (evaluateWeatherImpact w)) = true.
Proof.
  intros H. apply detect_is_bad in H.
  pose proof (weather_impact_values w) as Hv. cbv zeta in Hv.
  apply andb_true_iff in Hv. destruct Hv as [_ Hv]. now rewrite H in Hv.
Qed.

Section AbilityFacts.
Variable Math_sin Math_cos : float -> float.
Variable Math_atan2 : float -> float -> float.
Variable Number_toString : float -> string.

(** [checkWeather] sends something exactly when a weather was read
    before, the ability is navigating and the new reading shows a bad
    weather the reading before did not show; it then always sends the
    notification and the weather-change event, in this order. *)
Theorem weather_change_reported (key : string) (a : Ability) (w : WeatherInfo)
    (planned : Completion RoutePlanResult) :
  truthy key = true ->
  let sent := snd (checkWeather Math_sin Math_cos Math_atan2 key a (mkWeatherResult true (Some w)) planned) in
  let changed :=
    match lastWeather a with
    | Some last => isNavigating (service a) && detectWeatherChange last w
    | None => false
    end in
  lastWeather (fst (checkWeather Math_sin Math_cos Math_atan2 key a (mkWeatherResult true (Some w)) planned)) = Some w /\
  (changed = false -> sent = []) /\
  (changed = true ->
   exists more,
     sent =
       Plain (Notify "天气变化提醒"
                [Str "当前"; Str (weather w); Str "，";
                 Str (reason (evaluateWeatherImpact w)); Str "，请注意行车安全"]
                "weather_alert") ::
       WeatherEvent WEATHER_CHANGE_EVENT_ID w (evaluateWeatherImpact w) :: more).
Proof.
  intros Hkey. unfold checkWeather. rewrite Hkey. cbn [negb w_success w_live fst snd lastWeather].
  split; [ reflexivity | ].
  destruct (lastWeather a) as [last | ]; [ | split; [ reflexivity | discriminate ] ].
  destruct (isNavigating (service a)); cbn [andb]; [ | split; [ reflexivity | discriminate ] ].
  destruct (detectWeatherChange last w) eqn:Ed; split; try discriminate; try reflexivity.
  intros _. unfold handleWeatherChange. rewrite (bad_weather_impact last w Ed).
  eexists. reflexivity.
Qed.


(** Whatever the alert, the session and the end of the planning call:
    [handleTrafficAlert] sends the traffic notification, once and before
    anything else; all it may send after it is what a reroute suggestion
    sends, the reroute event and the notification of the better route;
    and it sends nothing after it when the event is not severe, when the
    alert offers no alternative, or when no destination is set, as after
    [stopNavigation]. *)
Theorem alert_without_reroute (s : Service) (alert : TrafficAlert)
    (planned : Completion RoutePlanResult) :
  exists more,
    handleTrafficAlert Math_sin Math_cos Math_atan2 Number_toString s alert planned =
    Notify "路况提醒" (suggestion alert) "traffic_alert" :: more /\
    Forall (fun e => match e with
                     | Emit eventId _ _ _ => eventId = REROUTE_EVENT_ID
                     | Notify _ _ kind => kind = "reroute_suggestion"
                     end) more /\
    (isSevere (event alert) = false \/ alternativeAvailable alert = false \/
     currentDestination s = "" -> more = []).
Proof.
  unfold handleTrafficAlert. eexists. split; [ reflexivity | ]. split.
  - destruct (_ && _); [ | constructor ].
    unfold suggestReroute. destruct (_ || _); [ constructor | ].
    destruct planned as [newRoute | error]; [ | constructor ].
    destruct (routes newRoute) as [ | bestRoute rest]; [ constructor | ].
    destruct (_ || _); repeat constructor.
  - intros [H | [H | H]].
    + now rewrite H.
    + rewrite H. now rewrite andb_false_r.
    + destruct (_ && _); [ | reflexivity ].
      unfold suggestReroute. rewrite H. cbn. now rewrite orb_true_r.
Qed.

Lemma step_keeps_monitor (rt : Runtime) (a : Action) :
  match a with TimerFires _ | FetchSettles _ => True | _ => False end ->
  currentRoute (monitor (fst (step Math_cos rt a))) = currentRoute (monitor rt) /\
  isMonitoring (monitor (fst (step Math_cos rt a))) = isMonitoring (monitor rt).
Proof.
  destruct a as [pts | | pts | t | fetched]; try contradiction; intros _; cbn [step].
  - destruct (_ && _); cbn [fst]; [ now rewrite begin_monitor | now split ].
  - destruct (pending rt) as [ | b others]; [ now split | ].
    unfold checkTrafficEvents_resume. destruct fetched as [events | ]; [ | now split ].
    now destruct (checkNewEvents _ _ _ _).
Qed.

Lemma started_in_step (a : Ability) (destination : string) (routePoints : list LngLat) :
  truthy destination = true ->
  in_step (startNavigation Math_cos a destination routePoints).
Proof.
  intros Hd. unfold startNavigation, in_step.
  cbn [service trafficEventService step fst monitor currentRoute isMonitoring
       s_currentRoute isNavigating currentDestination].
  rewrite begin_monitor. cbn [with_monitor monitor currentRoute isMonitoring].
  repeat split; auto.
Qed.

Lemma checkWeather_service (key : string) (a : Ability) (result : WeatherResult)
    (planned : Completion RoutePlanResult) :
  service (fst (checkWeather Math_sin Math_cos Math_atan2 key a result planned)) = service a /\
  trafficEventService (fst (checkWeather Math_sin Math_cos Math_atan2 key a result planned))
    = trafficEventService a.
Proof.
  unfold checkWeather. destruct (negb (truthy key)); [ now split | ].
  destruct (w_success result); [ | now split ].
  destruct (w_live result); now split.
Qed.

Lemma happen_in_step (a : Ability) (h : Happening) :
  in_step a -> in_step (happen Math_sin Math_cos Math_atan2 a h).
Proof.
  intros Ha. pose proof Ha as (Hr & Hm & Hn).
  destruct h as [want | ev | t | fetched | result planned]; cbn [happen].
  - unfold onStart.
    destruct (String.eqb (want_action want) "start_navigation"); [ | exact Ha ].
    destruct (want_routePoints want) as [points | ]; [ | exact Ha ].
    destruct (truthy (want_destination want)) eqn:Ed; [ | exact Ha ].
    now apply started_in_step.
  - unfold handleServiceEvent.
    destruct (String.eqb (action ev) "start_navigation").
    { destruct (routePoints ev) as [points | ]; [ | exact Ha ].
      destruct (truthy (destination ev)) eqn:Ed; cbn [andb]; [ | exact Ha ].
      destruct (0 <? List.length points)%nat eqn:El; [ | exact Ha ].
      now apply started_in_step. }
    destruct (String.eqb (action ev) "stop_navigation").
    { unfold stopNavigation, in_step.
      cbn [service trafficEventService step fst monitor currentRoute isMonitoring
           s_currentRoute isNavigating currentDestination].
      repeat split; discriminate. }
    destruct (String.eqb (action ev) "update_route"); [ | exact Ha ].
    destruct (routePoints ev) as [points | ]; [ | exact Ha ].
    destruct (0 <? List.length points)%nat eqn:El; [ | exact Ha ].
    unfold updateRoute, in_step.
    cbn [service trafficEventService step fst monitor currentRoute isMonitoring
         with_monitor s_currentRoute isNavigating currentDestination].
    repeat split; auto.
  - destruct (step_keeps_monitor (trafficEventService a) (TimerFires t) I) as [E1 E2].
    unfold in_step. cbn [service trafficEventService]. rewrite E1, E2. exact Ha.
  - destruct (step_keeps_monitor (trafficEventService a) (FetchSettles fetched) I) as [E1 E2].
    unfold in_step. cbn [service trafficEventService]. rewrite E1, E2. exact Ha.
  - destruct (checkWeather_service (amapKey (trafficEventService a)) a result planned)
      as [E1 E2].
    unfold in_step. rewrite E1, E2. exact Ha.
Qed.

(** The route of a navigating ability becomes empty only when [onStart]
    is handed an empty array of route points. *)
Lemma happen_on_route (a : Ability) (h : Happening) :
  starts_without_route h = false -> on_route a ->
  on_route (happen Math_sin Math_cos Math_atan2 a h).
Proof.
  unfold on_route. intros Hh Ha.
  destruct h as [want | ev | t | fetched | result planned];
    cbn [happen starts_without_route] in *.
  - unfold onStart.
    destruct (String.eqb (want_action want) "start_navigation"); [ | exact Ha ].
    destruct (want_routePoints want) as [points | ]; [ | exact Ha ].
    destruct (truthy (want_destination want)); [ | exact Ha ].
    cbn [andb] in Hh. unfold startNavigation. cbn [service s_currentRoute isNavigating].
    intros _ ->. discriminate.
  - unfold handleServiceEvent.
    destruct (String.eqb (action ev) "start_navigation").
    { destruct (routePoints ev) as [points | ]; [ | exact Ha ].
      destruct (truthy (destination ev)); cbn [andb]; [ | exact Ha ].
      destruct (0 <? List.length points)%nat eqn:El; [ | exact Ha ].
      unfold startNavigation. cbn [service s_currentRoute isNavigating].
      intros _ ->. discriminate. }
    destruct (String.eqb (action ev) "stop_navigation").
    { unfold stopNavigation. cbn [service isNavigating]. discriminate. }
    destruct (String.eqb (action ev) "update_route"); [ | exact Ha ].
    destruct (routePoints ev) as [points | ]; [ | exact Ha ].
    destruct (0 <? List.length points)%nat eqn:El; [ | exact Ha ].
    unfold updateRoute. cbn [service s_currentRoute isNavigating].
    intros _ ->. discriminate.
  - exact Ha.
  - exact Ha.
  - destruct (checkWeather_service (amapKey (trafficEventService a)) a result planned)
      as [E1 _].
    now rewrite E1.
Qed.

(** Whatever happens between [onCreate] and [onDestroy] ([onStart]
    calls, service events, timers that fire, fetches that settle and
    weather checks that return): the monitor watches the route the
    ability holds, it is monitoring exactly when the ability is
    navigating, and while the ability navigates its destination is set.
    Its route is then not empty either, unless [onStart] was asked to
    start a navigation with an empty array of route points, which it
    does not look at. *)
Theorem navigation_in_step (key : string) (happenings : list Happening) :
  let a := fold_left (happen Math_sin Math_cos Math_atan2) happenings (created key) in
  currentRoute (monitor (trafficEventService a)) = s_currentRoute (service a) /\
  isMonitoring (monitor (trafficEventService a)) = isNavigating (service a) /\
  (isNavigating (service a) = true -> truthy (currentDestination (service a)) = true) /\
  (existsb starts_without_route happenings = false ->
   isNavigating (service a) = true -> s_currentRoute (service a) <> []).
Proof.
  cbv zeta.
  assert (H : forall a,
             in_step a ->
             in_step (fold_left (happen Math_sin Math_cos Math_atan2) happenings a) /\
             (existsb starts_without_route happenings = false -> on_route a ->
              on_route (fold_left (happen Math_sin Math_cos Math_atan2) happenings a))).
  { induction happenings as [ | h hs IH]; intros a Ha; cbn [fold_left existsb].
    - now split.
    - destruct (IH _ (happen_in_step a h Ha)) as [H1 H2]. split; [ exact H1 | ].
      intros Hno Hon. apply orb_false_iff in Hno. destruct Hno as [Hh Hhs].
      apply H2; [ exact Hhs | ]. now apply happen_on_route. }
  assert (H0 : in_step (created key)) by (repeat split; discriminate).
  destruct (H _ H0) as [(H1 & H2 & H3) H4].
  repeat split; auto.
  intros Hno. apply H4; [ exact Hno | ]. unfold on_route. cbn. discriminate.
Qed.

(** [onStart] with an empty array of route points: the ability
    navigates, and the monitor is monitoring, on an empty route. *)
Lemma navigation_without_route (key : string) :
  let a :=
    happen Math_sin Math_cos Math_atan2 (created key)
      (Starts (mkWant "start_navigation" "家" (Some []))) in
  isNavigating (service a) = true /\ s_currentRoute (service a) = [] /\
  isMonitoring (monitor (trafficEventService a)) = true.
Proof. cbn. repeat split. Qed.

End AbilityFacts.

Lemma weather_change_reported_witness :
  let sent := snd (checkWeather Sample.sin Sample.cos Sample.atan2 "key" Sample.underway
                     (mkWeatherResult true (Some Sample.storm)) (Fulfilled getMockResult)) in
  lastWeather (fst (checkWeather Sample.sin Sample.cos Sample.atan2 "key" Sample.underway
                      (mkWeatherResult true (Some Sample.storm)) (Fulfilled getMockResult)))
    = Some Sample.storm /\
  exists more,
    sent =
      Plain (Notify "天气变化提醒"
               [Str "当前"; Str (weather Sample.storm); Str "，";
                Str (reason (evaluateWeatherImpact Sample.storm)); Str "，请注意行车安全"]
               "weather_alert") ::
      WeatherEvent WEATHER_CHANGE_EVENT_ID Sample.storm (evaluateWeatherImpact Sample.storm)
      :: more.
Proof.
  destruct (weather_change_reported Sample.sin Sample.cos Sample.atan2 "key" Sample.underway
              Sample.storm (Fulfilled getMockResult) eq_refl) as (H1 & _ & H3).
  split; [ exact H1 | ]. apply H3. reflexivity.
Defined.

Lemma alert_without_reroute_witness :
  exists more,
    handleTrafficAlert Sample.sin Sample.cos Sample.atan2 Sample.toString
      Sample.navigating (createAlert Sample.blocked) (Fulfilled getMockResult) =
    Notify "路况提醒" (suggestion (createAlert Sample.blocked)) "traffic_alert" :: more /\
    Forall (fun e => match e with
                     | Emit eventId _ _ _ => eventId = REROUTE_EVENT_ID
                     | Notify _ _ kind => kind = "reroute_suggestion"
                     end) more /\
    (isSevere (event (createAlert Sample.blocked)) = false \/
     alternativeAvailable (createAlert Sample.blocked) = false \/
     currentDestination Sample.navigating = "" -> more = []).
Proof.
  apply (alert_without_reroute Sample.sin Sample.cos Sample.atan2 Sample.toString
           Sample.navigating (createAlert Sample.blocked) (Fulfilled getMockResult)).
Defined.

(* ================================================================== *)
(** * Properties of the card *)
(* ================================================================== *)

(** The card shows orange for the status code 2 and red for the code
    3; every other code, 4 (严重拥堵) included, shows the green of
    code 1. *)
Theorem card_colour_by_code (code : string) :
  cardTraffic (Some (getStatusText code)) =
  (getStatusText code,
   if String.eqb code "2" then "#FF9800"
   else if String.eqb code "3" then "#f44336"
   else "#4CAF50").
Proof.
  unfold getStatusText.
  destruct (String.eqb code "1") eqn:E1.
  { apply String.eqb_eq in E1. now subst code. }
  destruct (String.eqb code "2") eqn:E2; [ reflexivity | ].
  destruct (String.eqb code "3") eqn:E3; [ reflexivity | ].
  destruct (String.eqb code "4") eqn:E4; reflexivity.
Qed.

(* ================================================================== *)
(** * Properties of the POI search *)
(* ================================================================== *)

(** ** Sampling *)

Lemma sampleIndices_closed (step n fuel i : nat) :
  (1 <= step)%nat -> (n <= i + fuel)%nat ->
  sampleIndices fuel i step n =
  map (fun k => i + k * step)%nat
    (seq 0 (if (i <? n)%nat then S ((n - 1 - i) / step) else 0)).
Proof.
  intros Hs. revert i. induction fuel as [ | fuel IH]; intros i Hf; cbn [sampleIndices].
  - destruct (i <? n)%nat eqn:E; [ | reflexivity ]. apply Nat.ltb_lt in E. lia.
  - destruct (i <? n)%nat eqn:E; [ | reflexivity ]. apply Nat.ltb_lt in E.
    rewrite IH by lia. cbn [seq map]. rewrite Nat.mul_0_l, Nat.add_0_r. f_equal.
    rewrite <- seq_shift, map_map.
    destruct (i + step <? n)%nat eqn:E2.
    + apply Nat.ltb_lt in E2.
      replace (n - 1 - i)%nat with ((n - 1 - (i + step)) + 1 * step)%nat by lia.
      rewrite Nat.div_add by lia. rewrite Nat.add_1_r.
      apply map_ext. intros k. lia.
    + apply Nat.ltb_ge in E2. rewrite Nat.div_small by lia. reflexivity.
Qed.

Lemma last_map_seq (f : nat -> nat) (c d : nat) :
  last (map f (seq 0 (S c))) d = f c.
Proof.
  rewrite seq_S, map_app. cbn [map]. apply last_last.
Qed.

(** The sample in closed form: the multiples of the step below [n],
    and the last index when it is not among them. *)
Lemma sampleOf_closed (n : nat) :
  (2 <= n)%nat ->
  let step := Nat.max 1 (n / 5) in
  let c := ((n - 1) / step)%nat in
  (c * step <= n - 1)%nat /\
  sampleOf n =
    map (fun k => k * step)%nat (seq 0 (S c)) ++
    (if (c * step =? n - 1)%nat then [] else [(n - 1)%nat]).
Proof.
  intros Hn step c. unfold sampleOf. cbv zeta. fold step.
  assert (Hs : (1 <= step)%nat) by (subst step; lia).
  rewrite (sampleIndices_closed step n n 0 Hs) by lia.
  assert (E : (0 <? n)%nat = true) by (apply Nat.ltb_lt; lia). rewrite E.
  rewrite Nat.sub_0_r. fold c.
  split; [ subst c; rewrite Nat.mul_comm; apply Nat.Div0.mul_div_le | ].
  rewrite last_map_seq. cbn [Nat.add].
  destruct (c * step =? n - 1)%nat; [ now rewrite app_nil_r | reflexivity ].
Qed.

Lemma sampleOf_below (n : nat) :
  (2 <= n)%nat -> Forall (fun i => i < n)%nat (sampleOf n).
Proof.
  intros Hn. destruct (sampleOf_closed n Hn) as [Hc ->].
  apply Forall_app. split.
  - apply Forall_forall. intros i Hi. apply in_map_iff in Hi.
    destruct Hi as (k & <- & Hk). apply in_seq in Hk. nia.
  - destruct (_ =? _)%nat; repeat constructor. lia.
Qed.

(** For a route of [n >= 2] points the sample starts with the first
    point, ends with the last one, stays inside the route and has at
    most nine points. *)
Theorem sample_covers_route (n : nat) :
  (2 <= n)%nat ->
  hd_error (sampleOf n) = Some 0%nat /\
  last (sampleOf n) 0%nat = (n - 1)%nat /\
  Forall (fun i => i < n)%nat (sampleOf n) /\
  (List.length (sampleOf n) <= 9)%nat.
Proof.
  intros Hn. pose proof (sampleOf_below n Hn) as Hall.
  destruct (sampleOf_closed n Hn) as [Hc E]. cbv zeta in Hc, E.
  set (step := Nat.max 1 (n / 5)) in *. set (c := ((n - 1) / step)%nat) in *.
  assert (Hlen : (c + 1 <= 9 /\ (c * step <> n - 1 -> c + 2 <= 9))%nat).
  { destruct (Nat.lt_ge_cases n 10) as [Hlt | Hge].
    - assert (n / 5 <= 1)%nat.
      { apply Nat.lt_succ_r. apply Nat.Div0.div_lt_upper_bound. lia. }
      assert (step = 1%nat) by (subst step; lia).
      assert (c = (n - 1)%nat) by (subst c; rewrite H0; apply Nat.div_1_r). lia.
    - assert (H5 : (2 <= n / 5)%nat) by (apply Nat.div_le_lower_bound; lia).
      assert (Hst : step = (n / 5)%nat) by (subst step; lia).
      assert (Hn5 : (n < 5 * (n / 5) + 5)%nat).
      { pose proof (Nat.div_mod_eq n 5). pose proof (Nat.mod_upper_bound n 5). lia. }
      assert (c <= 6)%nat.
      { subst c. apply Nat.lt_succ_r. apply Nat.Div0.div_lt_upper_bound. nia. }
      lia. }
  split; [ now rewrite E | ]. split; [ | split; [ exact Hall | ] ]; rewrite E.
  - destruct (c * step =? n - 1)%nat eqn:El.
    + apply Nat.eqb_eq in El. rewrite app_nil_r, last_map_seq. exact El.
    + apply last_last.
  - rewrite length_app, length_map, length_seq.
    destruct (c * step =? n - 1)%nat eqn:El; cbn [List.length]; [ lia | ].
    apply Nat.eqb_neq in El. lia.
Qed.

(** ** The search along a route *)

Lemma insertBy_perm {A} (cmp : A -> A -> float) (x : A) (sorted : list A) :
  Permutation (x :: sorted) (insertBy cmp x sorted).
Proof.
  induction sorted as [ | y rest IH]; cbn [insertBy]; [ reflexivity | ].
  destruct (0 <? cmp y x); [ reflexivity | ].
  rewrite perm_swap. now apply perm_skip.
Qed.

Lemma sortBy_perm {A} (cmp : A -> A -> float) (l : list A) :
  Permutation l (sortBy cmp l).
Proof.
  unfold sortBy.
  assert (H : forall acc, Permutation (acc ++ l)
                            (fold_left (fun sorted x => insertBy cmp x sorted) l acc)).
  { induction l as [ | x l IH]; intros acc; cbn [fold_left].
    - now rewrite app_nil_r.
    - rewrite <- IH. rewrite <- insertBy_perm. symmetry. apply Permutation_middle. }
  exact (H []).
Qed.

Lemma includes_In (arr : list string) (x : string) :
  includes arr x = true <-> In x arr.
Proof.
  unfold includes. rewrite existsb_exists. split.
  - intros (y & Hin & E). apply String.eqb_eq in E. now subst y.
  - intros Hin. exists x. split; [ exact Hin | apply String.eqb_refl ].
Qed.

Lemma addUnseen_spec (found : list POIInfo) (seenIds : list string) (allPois : list POIInfo) :
  map poi_id allPois = seenIds -> NoDup seenIds ->
  let '(seen', all') := addUnseen seenIds allPois found in
  map poi_id all' = seen' /\ NoDup seen' /\
  forall poi, In poi all' -> In poi allPois \/ In poi found.
Proof.
  revert seenIds allPois.
  induction found as [ | poi rest IH]; intros seenIds allPois Hmap Hnd; cbn [addUnseen].
  - repeat split; auto.
  - destruct (includes seenIds (poi_id poi)) eqn:E.
    + specialize (IH seenIds allPois Hmap Hnd).
      destruct (addUnseen seenIds allPois rest) as [seen' all'].
      destruct IH as (H1 & H2 & H3). repeat split; auto.
      intros p Hp. destruct (H3 p Hp); [ now left | right; now right ].
    + assert (Hnot : ~ In (poi_id poi) seenIds).
      { intros Hin. apply includes_In in Hin. congruence. }
      specialize (IH (seenIds ++ [poi_id poi]) (allPois ++ [poi])).
      destruct (addUnseen (seenIds ++ [poi_id poi]) (allPois ++ [poi]) rest) as [seen' all'].
      destruct IH as (H1 & H2 & H3).
      * rewrite map_app, Hmap. reflexivity.
      * apply NoDup_app; [ exact Hnd | repeat constructor; intros [] | ].
        intros x Hx [<- | []]. contradiction.
      * repeat split; auto. intros p Hp. destruct (H3 p Hp) as [Hin | Hin].
        -- apply in_app_or in Hin. destruct Hin as [Hin | [<- | []]].
           ++ now left.
           ++ right. now left.
        -- right. now right.
Qed.

Section POIFacts.
Variable searchAround : nat -> float -> float -> AroundOptions -> POISearchResult.

Lemma searchSamples_spec (options : option AlongOptions) (samplePoints : list LngLat)
    (call : nat) (seenIds : list string) (allPois : list POIInfo) :
  map poi_id allPois = seenIds -> NoDup seenIds ->
  let '(seen', all') := searchSamples searchAround call options seenIds allPois samplePoints in
  map poi_id all' = seen' /\ NoDup seen' /\
  forall poi, In poi all' -> In poi allPois \/ found_near searchAround samplePoints poi.
Proof.
  revert call seenIds allPois.
  induction samplePoints as [ | point rest IH]; intros call seenIds allPois Hmap Hnd;
    cbn [searchSamples].
  - repeat split; auto.
  - set (opts := mkAroundOptions _ _ _ _ _ _).
    destruct (poi_success (searchAround call (lng point) (lat point) opts)) eqn:Es.
    + pose proof (addUnseen_spec (pois (searchAround call (lng point) (lat point) opts))
                    seenIds allPois Hmap Hnd) as Ha.
      destruct (addUnseen seenIds allPois _) as [seen1 all1].
      destruct Ha as (H1 & H2 & H3).
      specialize (IH (S call) seen1 all1 H1 H2).
      destruct (searchSamples searchAround (S call) options seen1 all1 rest) as [seen' all'].
      destruct IH as (H4 & H5 & H6). repeat split; auto.
      intros p Hp. destruct (H6 p Hp) as [Hin | (c & pt & o & Hpt & Hs & Hi)].
      * destruct (H3 p Hin) as [Hin' | Hin']; [ now left | ].
        right. exists call, point, opts. repeat split; auto. now left.
      * right. exists c, pt, o. repeat split; auto. now right.
    + specialize (IH (S call) seenIds allPois Hmap Hnd).
      destruct (searchSamples searchAround (S call) options seenIds allPois rest)
        as [seen' all'].
      destruct IH as (H4 & H5 & H6). repeat split; auto.
      intros p Hp. destruct (H6 p Hp) as [Hin | (c & pt & o & Hpt & Hs & Hi)].
      * now left.
      * right. exists c, pt, o. repeat split; auto. now right.
Qed.

Lemma NoDup_firstn {A} (n : nat) (l : list A) : NoDup l -> NoDup (firstn n l).
Proof.
  intros H. rewrite <- (firstn_skipn n l) in H. now apply NoDup_app_remove_r in H.
Qed.

(** A search along a route of at least two points succeeds; it returns
    at most 20 POIs, no two with the same id, each taken from a
    successful answer of [searchAround] for a point of the route, and
    [count] is the number of POIs found before the cut to 20. *)
Theorem search_along_route_distinct (call : nat) (routePoints : list LngLat)
    (options : option AlongOptions) :
  (2 <= List.length routePoints)%nat ->
  let result := searchAlongRoute searchAround call routePoints options in
  poi_success result = true /\
  NoDup (map poi_id (pois result)) /\
  (List.length (pois result) <= 20)%nat /\
  (Z.of_nat (List.length (pois result)) <= count result)%Z /\
  Forall (found_near searchAround routePoints) (pois result).
Proof.
  intros Hn. unfold searchAlongRoute.
  assert (E : (List.length routePoints <? 2)%nat = false) by (apply Nat.ltb_ge; lia).
  rewrite E. cbv zeta. cbn [poi_success pois count].
  set (samplePoints := map _ (sampleOf (List.length routePoints))).
  pose proof (searchSamples_spec options samplePoints call [] [] eq_refl (NoDup_nil _)) as H.
  destruct (searchSamples searchAround call options [] [] samplePoints) as [seen allPois].
  destruct H as (H1 & H2 & H3). cbn [snd].
  set (cmp := fun a b : POIInfo => rating_or_0 b - rating_or_0 a).
  pose proof (sortBy_perm cmp allPois) as Hperm.
  assert (Hsub : forall point, In point samplePoints -> In point routePoints).
  { intros point Hin. subst samplePoints. apply in_map_iff in Hin.
    destruct Hin as (i & <- & Hi).
    pose proof (sampleOf_below (List.length routePoints) Hn) as Hall.
    rewrite Forall_forall in Hall. apply nth_In. now apply Hall. }
  split; [ reflexivity | ]. split; [ | split; [ | split ] ].
  - rewrite <- firstn_map. apply NoDup_firstn.
    eapply Permutation_NoDup; [ apply Permutation_map; exact Hperm | ]. now rewrite H1.
  - rewrite length_firstn. lia.
  - rewrite length_firstn, <- (Permutation_length Hperm). lia.
  - apply Forall_forall. intros poi Hin.
    assert (Hin' : In poi allPois).
    { eapply Permutation_in; [ apply Permutation_sym; exact Hperm | ].
      rewrite <- (firstn_skipn 20). apply in_or_app. now left. }
    destruct (H3 poi Hin') as [[] | (c & pt & o & Hpt & Hs & Hi)].
    exists c, pt, o. repeat split; auto.
Qed.

End POIFacts.

Lemma sample_covers_route_witness :
  hd_error (sampleOf 14) = Some 0%nat /\
  last (sampleOf 14) 0%nat = 13%nat /\
  Forall (fun i => i < 14)%nat (sampleOf 14) /\
  (List.length (sampleOf 14) <= 9)%nat.
Proof. apply (sample_covers_route 14). lia. Defined.

Lemma search_along_route_distinct_witness :
  let result := searchAlongRoute Sample.cafes 0 Sample.leg None in
  poi_success result = true /\
  NoDup (map poi_id (pois result)) /\
  (List.length (pois result) <= 20)%nat /\
  (Z.of_nat (List.length (pois result)) <= count result)%Z /\
  Forall (found_near Sample.cafes Sample.leg) (pois result).
Proof.
  apply (search_along_route_distinct Sample.cafes 0 Sample.leg None). cbn. lia.
Defined.

(* ================================================================== *)
(** * Properties of the dialog engine *)
(* ================================================================== *)

(** ** The history *)

Lemma slice_last_app {A} (k : nat) (l : list A) (x : A) :
  slice_last k (slice_last k l ++ [x]) = slice_last k (l ++ [x]).
Proof.
  unfold slice_last. rewrite !length_app, !length_skipn. cbn [List.length].
  destruct (Nat.le_gt_cases (List.length l) k) as [Hle | Hgt].
  - replace (List.length l - k)%nat with 0%nat by lia. cbn [skipn].
    now rewrite Nat.sub_0_r.
  - rewrite !skipn_app, !length_skipn, skipn_skipn.
    f_equal; f_equal; lia.
Qed.

Lemma slice_last_all {A} (k : nat) (l : list A) :
  (List.length l <= k)%nat -> slice_last k l = l.
Proof.
  intros H. unfold slice_last. now replace (List.length l - k)%nat with 0%nat by lia.
Qed.

Lemma addToHistory_window (h : list ChatMessage) (m : ChatMessage) :
  addToHistory h m = slice_last maxHistoryLength (h ++ [m]).
Proof.
  unfold addToHistory. destruct (_ <? _)%nat eqn:E; [ reflexivity | ].
  apply Nat.ltb_ge in E. now rewrite slice_last_all.
Qed.

Lemma fold_history (messages : list ChatMessage) (h all : list ChatMessage) :
  h = slice_last maxHistoryLength all ->
  fold_left addToHistory messages h = slice_last maxHistoryLength (all ++ messages).
Proof.
  revert h all. induction messages as [ | m ms IH]; intros h all ->; cbn [fold_left].
  - now rewrite app_nil_r.
  - rewrite (IH _ (all ++ [m])).
    + now rewrite <- app_assoc.
    + rewrite addToHistory_window. apply slice_last_app.
Qed.

Lemma slice_last_slice_last {A} (j k : nat) (l : list A) :
  (j <= k)%nat -> slice_last j (slice_last k l) = slice_last j l.
Proof.
  intros H. unfold slice_last. rewrite length_skipn, skipn_skipn. f_equal. lia.
Qed.

(** Whatever messages are added to an empty history, the history holds
    the last ten of them, in order, and the context handed to the model
    is the last four. *)
Theorem history_is_last_ten (messages : list ChatMessage) :
  let chatHistory := fold_left addToHistory messages [] in
  chatHistory = slice_last 10 messages /\
  (List.length chatHistory <= 10)%nat /\
  getRecentHistory chatHistory =
    map (fun msg => mkLLMMessage (role msg) (content msg)) (slice_last 4 messages).
Proof.
  cbv zeta. rewrite (fold_history messages [] [] eq_refl). cbn [app].
  unfold maxHistoryLength. repeat split.
  - unfold slice_last. rewrite length_skipn. lia.
  - unfold getRecentHistory. rewrite slice_last_slice_last by lia. reflexivity.
Qed.

(** ** The local parse and the model *)

Section DialogFacts.
Variable toLowerCase : string -> string.
Variable trim : string -> string.
Variable String_match : string -> string -> option (list (option string)).
Variable JSON_parse : string -> option ParsedIntent.
Variable SYSTEM_PROMPT : string.

Lemma localParse_confidence (input : string) :
  (0.9 <? confidence (localParse toLowerCase trim String_match input)) =
  asks_home_or_work (toLowerCase input).
Proof.
  unfold localParse, asks_home_or_work. cbv zeta.
  generalize (toLowerCase input). intros lower.
  destruct (str_includes lower "回家"); [ reflexivity | ].
  destruct (str_includes lower "去家"); [ reflexivity | ]. cbn [orb].
  destruct (str_includes lower "去公司"); [ reflexivity | ].
  destruct (str_includes lower "去上班"); [ reflexivity | ].
  destruct (str_includes lower "通勤"); [ reflexivity | ]. cbn [orb].
  destruct (first_some _ poiPatterns); [ reflexivity | ].
  destruct (_ || _ || _); [ reflexivity | ].
  destruct (_ || _ || _); [ reflexivity | ].
  destruct (first_some _ routePatterns); reflexivity.
Qed.

(** [parseIntent] answers with the local parse, whatever the model
    would say, exactly for the inputs that ask for the way home or to
    work; for every other input it answers with the local parse when no
    API key is configured.  In these cases one user message holding the
    input and the intent is added to the history. *)
Theorem local_parse_answers (callProvider : LLMConfig -> list LLMMessage -> option string)
    (config : LLMConfig) (prefs : Addresses) (now : N)
    (chatHistory : list ChatMessage) (userInput : string) :
  asks_home_or_work (toLowerCase userInput) = true \/ apiKey config = "" ->
  let localIntent := localParse toLowerCase trim String_match userInput in
  parseIntent toLowerCase trim String_match JSON_parse callProvider SYSTEM_PROMPT
    config prefs now chatHistory userInput =
  (localIntent,
   addToHistory chatHistory (mkChatMessage user userInput now (Some localIntent))).
Proof.
  intros H. cbv zeta. unfold parseIntent. cbv zeta.
  rewrite localParse_confidence.
  destruct (asks_home_or_work (toLowerCase userInput)); [ reflexivity | ].
  destruct H as [H | H]; [ discriminate | ].
  unfold chat. rewrite H. reflexivity.
Qed.

End DialogFacts.

Lemma local_parse_answers_witness :
  parseIntent Sample.toLowerCase Sample.toLowerCase Sample.noMatch Sample.noJSON
    Sample.noAnswer "" (mkLLMConfig "qianwen" "k" None None) (mkAddresses None None) 0 []
    "带我回家" =
  (localParse Sample.toLowerCase Sample.toLowerCase Sample.noMatch "带我回家",
   addToHistory []
     (mkChatMessage user "带我回家" 0
        (Some (localParse Sample.toLowerCase Sample.toLowerCase Sample.noMatch "带我回家")))).
Proof.
  apply (local_parse_answers Sample.toLowerCase Sample.toLowerCase Sample.noMatch
           Sample.noJSON "" Sample.noAnswer).
  left. vm_compute. reflexivity.
Defined.

(* ================================================================== *)
(** * Rounding and the order of numbers *)
(* ================================================================== *)

(** Sums, differences, products and quotients are rounded to the nearest
    number of the format, the even one on a tie.  The facts below read
    the rounding functions of [SpecFloat] on the integer scale of
    [scaled]: a number [m * 2^e] is the integer [m * 2^(e + 2148)]. *)

Lemma pow2_add (a b : Z) : (0 <= a -> 0 <= b -> 2 ^ (a + b) = 2 ^ a * 2 ^ b)%Z.
Proof. intros. now apply Z.pow_add_r. Qed.

Lemma pow2_pos (a : Z) : (0 <= a -> 0 < 2 ^ a)%Z.
Proof. intros. now apply Z.pow_pos_nonneg. Qed.

Lemma pow2_le (a b : Z) : (0 <= a <= b -> 2 ^ a <= 2 ^ b)%Z.
Proof. intros. apply Z.pow_le_mono_r; lia. Qed.

Lemma iter_pos_counted {A} (P : Z -> A -> Prop) (f : A -> A) :
  (forall k x, (0 <= k)%Z -> P k x -> P (k + 1)%Z (f x)) ->
  forall p k x, (0 <= k)%Z -> P k x -> P (k + Z.pos p)%Z (iter_pos f p x).
Proof.
  intros Hf. induction p as [p IH | p IH | ]; intros k x Hk Hx; simpl iter_pos.
  - replace (k + Z.pos p~1)%Z with ((k + 1 + Z.pos p) + Z.pos p)%Z by lia.
    apply IH; [ lia | ]. apply IH; [ lia | ]. now apply Hf.
  - replace (k + Z.pos p~0)%Z with ((k + Z.pos p) + Z.pos p)%Z by lia.
    apply IH; [ lia | ]. now apply IH.
  - now apply Hf.
Qed.

Lemma shr_1_spec (m : Z) (r s : bool) :
  (0 <= m)%Z ->
  shr_1 (Build_shr_record m r s) = Build_shr_record (m / 2) (Z.odd m) (r || s).
Proof.
  intros Hm. destruct m as [ | [p | p | ] | p]; cbn [shr_1 Z.odd]; try lia; f_equal.
  - apply Z.div_unique with 1%Z; lia.
  - apply Z.div_unique with 0%Z; lia.
Qed.

(** What is lost by shifting [p] bits out, against half of the last
    place kept. *)
Lemma shr_location (m0 : Z) (p : positive) :
  (0 <= m0)%Z ->
  loc_of_shr_record (iter_pos shr_1 p (Build_shr_record m0 false false)) =
  if (m0 mod 2 ^ Z.pos p =? 0)%Z then loc_Exact
  else loc_Inexact (2 * (m0 mod 2 ^ Z.pos p) ?= 2 ^ Z.pos p)%Z.
Proof.
  intros Hm.
  pose (P := fun (k : Z) (mrs : shr_record) =>
               shr_m mrs = (m0 / 2 ^ k)%Z /\
               shr_r mrs || shr_s mrs = negb (m0 mod 2 ^ k =? 0)%Z /\
               ((1 <= k)%Z ->
                shr_r mrs = Z.odd (m0 / 2 ^ (k - 1)) /\
                shr_s mrs = negb (m0 mod 2 ^ (k - 1) =? 0)%Z)).
  assert (H : P (0 + Z.pos p)%Z (iter_pos shr_1 p (Build_shr_record m0 false false))).
  { apply iter_pos_counted; [ | lia | ].
    - intros k [m r s] Hk (Hv & Hrs & _). cbn [shr_m shr_r shr_s] in Hv, Hrs.
      assert (Hk2 : (0 < 2 ^ k)%Z) by now apply pow2_pos.
      assert (Hm' : (0 <= m)%Z) by (subst m; apply Z.div_pos; lia).
      rewrite shr_1_spec by assumption. unfold P. cbn [shr_m shr_r shr_s].
      assert (E : (2 ^ (k + 1) = 2 ^ k * 2)%Z) by (rewrite pow2_add; lia).
      replace (k + 1 - 1)%Z with k by lia. rewrite <- Hv.
      split; [ | split ].
      + subst m. rewrite E, Z.div_div by lia. reflexivity.
      + rewrite Hrs, E, Z.rem_mul_r by lia. rewrite <- Hv.
        pose proof (Z.mod_pos_bound m0 (2 ^ k)%Z Hk2).
        pose proof (Zmod_odd m) as Ho.
        destruct (Z.odd m); rewrite Ho;
          destruct (Z.eqb_spec (m0 mod 2 ^ k) 0);
          destruct (Z.eqb_spec (m0 mod 2 ^ k + 2 ^ k * 1) 0);
          destruct (Z.eqb_spec (m0 mod 2 ^ k + 2 ^ k * 0) 0);
          cbn [negb orb]; try reflexivity; lia.
      + intros _. split; [ reflexivity | exact Hrs ].
    - unfold P. cbn [shr_m shr_r shr_s]. rewrite Z.pow_0_r, Z.div_1_r, Z.mod_1_r.
      split; [ reflexivity | ]. split; [ reflexivity | lia ]. }
  destruct H as (_ & _ & H). cbn [Z.add] in H. specialize (H ltac:(lia)).
  destruct (iter_pos shr_1 p _) as [m r s]. cbn [shr_r shr_s] in H. destruct H as [Hr Hs].
  set (h := (2 ^ (Z.pos p - 1))%Z) in *.
  assert (Hh : (0 < h)%Z) by (subst h; apply pow2_pos; lia).
  assert (E : (2 ^ Z.pos p = h * 2)%Z).
  { subst h. replace (Z.pos p) with (Z.pos p - 1 + 1)%Z at 1 by lia.
    rewrite pow2_add by lia. reflexivity. }
  rewrite E, Z.rem_mul_r by lia.
  pose proof (Z.mod_pos_bound m0 h Hh) as Hlow.
  pose proof (Zmod_odd (m0 / h)) as Ho.
  rewrite Ho. subst r s. cbn [loc_of_shr_record].
  destruct (Z.odd (m0 / h)); destruct (Z.eqb_spec (m0 mod h) 0) as [E0 | N0]; cbn [negb];
    match goal with
    | |- context [(?a =? 0)%Z] => destruct (Z.eqb_spec a 0); try lia
    end;
    try reflexivity; f_equal; symmetry;
    [ apply Z.compare_eq_iff | apply Z.compare_gt_iff | apply Z.compare_lt_iff ]; lia.
Qed.

Lemma digits2_pos_53 (r : positive) :
  (Z.pos r < 2 ^ 53)%Z -> (Z.pos (digits2_pos r) <= 53)%Z.
Proof.
  intros H. pose proof (digits2_pos_lower r) as Hl.
  destruct (Z_le_gt_dec (Z.pos (digits2_pos r)) 53) as [ | G]; [ assumption | ].
  assert (2 ^ 53 <= 2 ^ (Z.pos (digits2_pos r) - 1))%Z by (apply pow2_le; lia). lia.
Qed.

(** The second half of [binary_round_aux]: a mantissa of at most 53 bits
    is kept, 2^53 is renormalised, and the exponent is checked. *)
Lemma finish_round (s : bool) (r E1 : Z) :
  (-1074 <= E1)%Z -> (0 <= r <= 2 ^ 53)%Z ->
  (let '(mrs, e) := shr_fexp prec emax r E1 loc_Exact in
   match shr_m mrs with
   | Z0 => S754_zero s
   | Zpos m => if (e <=? emax - prec)%Z then S754_finite s m e else S754_infinity s
   | Zneg _ => S754_nan
   end) =
  if (r =? 0)%Z then S754_zero s
  else if (r =? 2 ^ 53)%Z then
    if (E1 + 1 <=? 971)%Z then S754_finite s (2 ^ 52)%positive (E1 + 1) else S754_infinity s
  else if (E1 <=? 971)%Z then S754_finite s (Z.to_pos r) E1 else S754_infinity s.
Proof.
  intros HE Hr. unfold shr_fexp, shr. rewrite fexp_value.
  destruct r as [ | r | r]; [ | | lia ].
  - cbn [Zdigits2 Z.eqb].
    destruct (Z.max (0 + E1 - 53) (-1074) - E1)%Z eqn:En; try lia; reflexivity.
  - cbn [Zdigits2].
    destruct (Z.eqb_spec (Z.pos r) (2 ^ 53)) as [E | N].
    + injection E as ->. cbn [Z.eqb digits2_pos Pos.succ].
      replace (Z.max (54 + E1 - 53) (-1074) - E1)%Z with 1%Z by lia.
      cbn. reflexivity.
    + pose proof (digits2_pos_53 r ltac:(lia)) as Hd.
      cbn [Z.eqb].
      destruct (Z.max (Z.pos (digits2_pos r) + E1 - 53) (-1074) - E1)%Z eqn:En; try lia;
        reflexivity.
Qed.


Lemma Zdigits2_upper (m : Z) : (0 <= m)%Z -> (m < 2 ^ Zdigits2 m)%Z.
Proof.
  destruct m as [ | m | m]; cbn [Zdigits2]; intros H; [ reflexivity | | lia ].
  apply digits2_pos_upper.
Qed.

(** The first half of [binary_round_aux]: the mantissa is cut to the
    working precision. *)
Lemma shr_fexp_first (m e : Z) (l : SpecFloat.location) :
  (0 <= m)%Z ->
  let E1 := Z.max (Zdigits2 m + e - 53) (-1074) in
  (e <= E1)%Z ->
  exists mrs,
    shr_fexp prec emax m e l = (mrs, E1) /\
    shr_m mrs = (m / 2 ^ (E1 - e))%Z /\
    (l = loc_Exact ->
     loc_of_shr_record mrs =
       if (m mod 2 ^ (E1 - e) =? 0)%Z then loc_Exact
       else loc_Inexact (2 * (m mod 2 ^ (E1 - e)) ?= 2 ^ (E1 - e))%Z).
Proof.
  intros Hm E1 He. unfold shr_fexp, shr. rewrite fexp_value. fold E1.
  destruct (E1 - e)%Z as [ | p | p] eqn:En; try lia.
  - eexists. split; [ f_equal; lia | ]. rewrite shr_m_of_loc.
    split; [ now rewrite Z.div_1_r | ]. intros ->. now rewrite Z.mod_1_r.
  - eexists. split; [ f_equal; lia | ]. split.
    + rewrite iter_shr_1_div by (rewrite shr_m_of_loc; lia). now rewrite shr_m_of_loc.
    + intros ->. apply shr_location; lia.
Qed.

Lemma round_nearest_even_le (m : Z) (l : SpecFloat.location) :
  (round_nearest_even m l <= m + 1)%Z.
Proof.
  unfold round_nearest_even. destruct l as [ | []]; try lia.
  destruct (Z.even m); lia.
Qed.

(** Rounding to nearest, ties to even, read on the remainder. *)
Lemma round_nearest_even_cases (q rho h : Z) :
  (0 <= rho < h)%Z ->
  let r := round_nearest_even q
             (if (rho =? 0)%Z then loc_Exact else loc_Inexact (2 * rho ?= h)%Z) in
  ((2 * rho < h)%Z -> r = q) /\
  ((2 * rho = h)%Z -> Z.even q = true -> r = q) /\
  (r = q -> (2 * rho <= h)%Z /\ ((2 * rho = h)%Z -> Z.even q = true)).
Proof.
  intros Hrho. cbv zeta.
  destruct (Z.eqb_spec rho 0) as [E0 | N0]; cbn [round_nearest_even].
  - repeat split; intros; try reflexivity; lia.
  - destruct (Z.compare_spec (2 * rho) h) as [E | L | G]; cbn [round_nearest_even].
    + destruct (Z.even q) eqn:Ev; repeat split; intros; try reflexivity; try lia;
        try congruence.
    + repeat split; intros; try reflexivity; lia.
    + repeat split; intros; lia.
Qed.

Lemma binary_round_aux_value (s : bool) (m e : Z) (l : SpecFloat.location) :
  (0 <= m)%Z ->
  let E1 := Z.max (Zdigits2 m + e - 53) (-1074) in
  let q := (m / 2 ^ (E1 - e))%Z in
  let rho := (m mod 2 ^ (E1 - e))%Z in
  let h := (2 ^ (E1 - e))%Z in
  (e <= E1)%Z ->
  exists r,
    (q <= r <= q + 1)%Z /\ (r <= 2 ^ 53)%Z /\
    (l = loc_Exact ->
     ((2 * rho < h)%Z -> r = q) /\
     ((2 * rho = h)%Z -> Z.even q = true -> r = q) /\
     (r = q -> (2 * rho <= h)%Z /\ ((2 * rho = h)%Z -> Z.even q = true))) /\
    binary_round_aux prec emax s m e l =
      if (r =? 0)%Z then S754_zero s
      else if (r =? 2 ^ 53)%Z then
        if (E1 + 1 <=? 971)%Z then S754_finite s (2 ^ 52)%positive (E1 + 1)
        else S754_infinity s
      else if (E1 <=? 971)%Z then S754_finite s (Z.to_pos r) E1 else S754_infinity s.
Proof.
  intros Hm0 E1 q rho h HE.
  destruct (shr_fexp_first m e l Hm0 HE) as (mrs & Hs & Hm & Hl). fold E1 in Hs, Hm, Hl.
  fold q in Hm. fold rho h in Hl.
  assert (Hh : (0 < h)%Z) by (subst h; apply pow2_pos; lia).
  exists (round_nearest_even (shr_m mrs) (loc_of_shr_record mrs)).
  pose proof (round_nearest_even_ge (shr_m mrs) (loc_of_shr_record mrs)) as Hge.
  pose proof (round_nearest_even_le (shr_m mrs) (loc_of_shr_record mrs)) as Hle.
  rewrite Hm in Hge, Hle |- *.
  assert (H0 : (0 <= q)%Z) by (apply Z.div_pos; lia).
  assert (H1 : (q < 2 ^ 53)%Z).
  { apply Z.div_lt_upper_bound; [ lia | ].
    pose proof (Zdigits2_upper m Hm0) as Hu.
    subst h. rewrite <- pow2_add by lia.
    assert (0 <= Zdigits2 m)%Z by (destruct m; cbn; lia).
    assert (2 ^ Zdigits2 m <= 2 ^ (E1 - e + 53))%Z by (apply pow2_le; lia).
    lia. }
  split; [ lia | ]. split; [ lia | ]. split.
  - intros El. rewrite (Hl El).
    apply round_nearest_even_cases. subst rho h. apply Z.mod_pos_bound. lia.
  - unfold binary_round_aux. rewrite Hs, Hm.
    apply finish_round; lia.
Qed.

Lemma digits2_pos_shift (m d : positive) :
  Z.pos (digits2_pos (Pos.iter xO m d)) = (Z.pos (digits2_pos m) + Z.pos d)%Z.
Proof.
  induction d as [ | d IH] using Pos.peano_ind.
  - cbn [Pos.iter digits2_pos]. lia.
  - rewrite Pos.iter_succ. cbn [digits2_pos]. rewrite Pos2Z.inj_succ, IH. lia.
Qed.

(** What [binary_round] gives, on the integer scale where the least
    positive number is 1: the quotient by the unit of the working
    exponent or the next integer, whichever is nearer, the even one on a
    tie. *)
Lemma binary_round_value (s : bool) (m : positive) (e : Z) :
  (-2148 <= e)%Z ->
  let E1 := Z.max (Z.pos (digits2_pos m) + e - 53) (-1074) in
  let W := (Z.pos m * 2 ^ (e + 2148))%Z in
  let U := (2 ^ (E1 + 2148))%Z in
  exists r,
    (W / U <= r <= W / U + 1)%Z /\
    ((2 * (W mod U) < U)%Z -> r = (W / U)%Z) /\
    ((2 * (W mod U) = U)%Z -> Z.even (W / U) = true -> r = (W / U)%Z) /\
    (r = (W / U)%Z ->
     (2 * (W mod U) <= U)%Z /\ ((2 * (W mod U) = U)%Z -> Z.even (W / U) = true)) /\
    binary_round prec emax s m e =
      if (r =? 0)%Z then S754_zero s
      else if (r =? 2 ^ 53)%Z then
        if (E1 + 1 <=? 971)%Z then S754_finite s (2 ^ 52)%positive (E1 + 1)
        else S754_infinity s
      else if (E1 <=? 971)%Z then S754_finite s (Z.to_pos r) E1 else S754_infinity s.
Proof.
  intros He E1 W U.
  assert (HE1 : (-1074 <= E1)%Z) by (subst E1; lia).
  assert (Hu : (0 < 2 ^ (e + 2148))%Z) by (apply pow2_pos; lia).
  destruct (Z_le_gt_dec e E1) as [HE | HE].
  - (* the mantissa is cut *)
    assert (Hh : (0 < 2 ^ (E1 - e))%Z) by (apply pow2_pos; lia).
    assert (EU : U = (2 ^ (E1 - e) * 2 ^ (e + 2148))%Z).
    { subst U. rewrite <- pow2_add by lia. f_equal. lia. }
    assert (Hq : (W / U = Z.pos m / 2 ^ (E1 - e))%Z).
    { rewrite EU. subst W. apply Z.div_mul_cancel_r; lia. }
    assert (Hr : (W mod U = (Z.pos m mod 2 ^ (E1 - e)) * 2 ^ (e + 2148))%Z).
    { rewrite EU. subst W. apply Z.mul_mod_distr_r; lia. }
    pose proof (binary_round_aux_value s (Z.pos m) e loc_Exact ltac:(lia)) as Haux.
    cbv zeta in Haux. cbn [Zdigits2] in Haux. fold E1 in Haux.
    destruct (Haux HE) as (r & H1 & _ & H2 & H3).
    destruct (H2 eq_refl) as (Ha & Hb & Hc).
    pose proof (Z.mod_pos_bound (Z.pos m) (2 ^ (E1 - e)) Hh) as Hrho.
    exists r. rewrite Hq, Hr, EU. split; [ exact H1 | ].
    split; [ intros Hz; apply Ha; nia | ].
    split; [ intros Hz; apply Hb; nia | ].
    split.
    + intros Er. destruct (Hc Er) as [Hc1 Hc2]. split; [ nia | ].
      intros Hz. apply Hc2. nia.
    + rewrite <- H3. unfold binary_round, shl_align. rewrite fexp_value. fold E1.
      destruct (E1 - e)%Z eqn:En; try lia; reflexivity.
  - (* the mantissa is widened *)
    unfold binary_round, shl_align. rewrite fexp_value. fold E1.
    destruct (E1 - e)%Z as [ | d | d] eqn:En; try lia.
    set (mz := Pos.iter xO m d).
    assert (Hd : Z.pos (digits2_pos mz) = (Z.pos (digits2_pos m) + Z.pos d)%Z)
      by apply digits2_pos_shift.
    assert (Hz : Z.pos mz = (Z.pos m * 2 ^ Z.pos d)%Z) by apply iter_xO_pow.
    assert (HE' : Z.max (Z.pos (digits2_pos mz) + E1 - 53) (-1074) = E1).
    { rewrite Hd. subst E1. lia. }
    pose proof (binary_round_aux_value s (Z.pos mz) E1 loc_Exact ltac:(lia)) as Haux.
    cbv zeta in Haux. cbn [Zdigits2] in Haux.
    rewrite HE' in Haux. destruct (Haux ltac:(lia)) as (r & H1 & _ & H2 & H3).
    destruct (H2 eq_refl) as (Ha & _ & _).
    replace (E1 - E1)%Z with 0%Z in * by lia.
    rewrite Z.pow_0_r, Z.div_1_r, Z.mod_1_r in *.
    assert (EW : W = (Z.pos mz * U)%Z).
    { subst W U. rewrite Hz. rewrite <- Z.mul_assoc, <- pow2_add by lia.
      do 2 f_equal. lia. }
    assert (HU : (0 < U)%Z) by (subst U; apply pow2_pos; lia).
    exists r. rewrite EW, Z.div_mul, Z.mod_mul by lia.
    specialize (Ha ltac:(lia)).
    split; [ exact H1 | ]. split; [ intros _; exact Ha | ].
    split; [ intros _ _; exact Ha | ]. split; [ intros _; lia | exact H3 ].
Qed.

Lemma digits_scaled_le (a b : positive) (ea eb : Z) :
  (-2148 <= ea)%Z -> (-2148 <= eb)%Z ->
  (Z.pos a * 2 ^ (ea + 2148) <= Z.pos b * 2 ^ (eb + 2148))%Z ->
  (Z.pos (digits2_pos a) + ea <= Z.pos (digits2_pos b) + eb)%Z.
Proof.
  intros Ha Hb H.
  pose proof (digits2_pos_lower a) as La. pose proof (digits2_pos_upper b) as Ub.
  set (da := Z.pos (digits2_pos a)) in *. set (db := Z.pos (digits2_pos b)) in *.
  assert (Hda : (1 <= da)%Z) by (subst da; lia).
  assert (Hdb : (1 <= db)%Z) by (subst db; lia).
  assert (H1 : (2 ^ (da - 1 + (ea + 2148)) < 2 ^ (db + (eb + 2148)))%Z).
  { rewrite (pow2_add (da - 1)), (pow2_add db) by lia.
    pose proof (pow2_pos (ea + 2148) ltac:(lia)) as Pa.
    pose proof (pow2_pos (eb + 2148) ltac:(lia)) as Pb.
    apply Z.le_lt_trans with (Z.pos a * 2 ^ (ea + 2148))%Z.
    - apply Z.mul_le_mono_nonneg_r; lia.
    - apply Z.le_lt_trans with (Z.pos b * 2 ^ (eb + 2148))%Z; [ exact H | ].
      apply Zmult_lt_compat_r; lia. }
  apply Z.pow_lt_mono_r_iff in H1; lia.
Qed.

Lemma bounded_canonical (m : positive) (e : Z) :
  bounded prec emax m e = true ->
  (e = Z.max (Z.pos (digits2_pos m) + e - 53) (-1074) /\ e <= 971 /\ Z.pos m < 2 ^ 53)%Z.
Proof.
  intros H. pose proof (bounded_inv m e H) as (H1 & H2 & H3).
  unfold bounded, canonical_mantissa in H. rewrite fexp_value in H.
  apply andb_prop in H. destruct H as [Hc Hb].
  apply Z.eqb_eq in Hc. apply Z.leb_le in Hb. change (emax - prec)%Z with 971%Z in Hb.
  split; [ lia | ]. split; [ exact Hb | ].
  pose proof (digits2_pos_upper m).
  assert (2 ^ Z.pos (digits2_pos m) <= 2 ^ 53)%Z by (apply pow2_le; lia). lia.
Qed.

(** Rounding an integer multiple of the least positive number that is
    not above a number of the format gives a result not above it. *)
Lemma round_below (s : bool) (m mx : positive) (e ex : Z) :
  (-2148 <= e)%Z -> bounded prec emax mx ex = true ->
  (Z.pos m * 2 ^ (e + 2148) <= Z.pos mx * 2 ^ (ex + 2148))%Z ->
  binary_round prec emax s m e = S754_zero s \/
  exists m' e',
    binary_round prec emax s m e = S754_finite s m' e' /\
    (Z.pos m' * 2 ^ (e' + 2148) <= Z.pos mx * 2 ^ (ex + 2148))%Z.
Proof.
  intros He Hb Hle.
  pose proof (bounded_inv mx ex Hb) as (Hex & _ & _).
  pose proof (bounded_canonical mx ex Hb) as (Hc & Hmax & Hmx).
  pose proof (digits_scaled_le m mx e ex He ltac:(lia) Hle) as Hd.
  destruct (binary_round_value s m e He) as (r & Hr & Hexact & _ & _ & ->).
  set (E1 := Z.max (Z.pos (digits2_pos m) + e - 53) (-1074)) in *.
  set (W := (Z.pos m * 2 ^ (e + 2148))%Z) in *.
  set (U := (2 ^ (E1 + 2148))%Z) in *.
  assert (HE : (-1074 <= E1 <= ex)%Z) by (subst E1; lia).
  assert (HU : (0 < U)%Z) by (subst U; apply pow2_pos; lia).
  set (K := (Z.pos mx * 2 ^ (ex - E1))%Z).
  assert (HX : (Z.pos mx * 2 ^ (ex + 2148) = K * U)%Z).
  { subst K U. rewrite <- Z.mul_assoc, <- pow2_add by lia. do 2 f_equal. lia. }
  rewrite HX in *.
  pose proof (Z.div_mod W U ltac:(lia)) as Hdm.
  pose proof (Z.mod_pos_bound W U HU) as Hrho.
  assert (Hq : (W / U <= K)%Z) by nia.
  assert (HrK : (r <= K)%Z).
  { destruct (Z.eq_dec (W / U) K) as [E | N]; [ | lia ].
    rewrite Hexact; [ lia | ]. nia. }
  assert (Hr0 : (0 <= r)%Z).
  { assert (0 <= W / U)%Z by (apply Z.div_pos; subst W; lia). lia. }
  destruct (Z.eqb_spec r 0) as [E0 | N0]; [ now left | right ].
  destruct (Z.eqb_spec r (2 ^ 53)) as [E53 | N53].
  - assert (Hstep : (E1 + 1 <= ex)%Z).
    { destruct (Z_le_gt_dec (E1 + 1) ex) as [ | G]; [ assumption | ].
      assert (EK : K = Z.pos mx).
      { subst K. replace (ex - E1)%Z with 0%Z by lia. rewrite Z.pow_0_r. lia. }
      lia. }
    rewrite (proj2 (Z.leb_le _ _)) by lia.
    eexists _, _. split; [ reflexivity | ].
    replace (E1 + 1 + 2148)%Z with (1 + (E1 + 2148))%Z by lia.
    rewrite pow2_add by lia. fold U.
    change (Z.pos (2 ^ 52)) with (2 ^ 52)%Z. change (2 ^ 1)%Z with 2%Z.
    assert (2 ^ 52 * 2 = 2 ^ 53)%Z by reflexivity. nia.
  - rewrite (proj2 (Z.leb_le _ _)) by lia.
    eexists _, _. split; [ reflexivity | ].
    rewrite Z2Pos.id by lia. fold U. nia.
Qed.

(** ... and one that is not below it gives a result not below it, or
    overflows. *)
Lemma round_above (s : bool) (m mx : positive) (e ex : Z) :
  (-2148 <= e)%Z -> bounded prec emax mx ex = true ->
  (Z.pos mx * 2 ^ (ex + 2148) <= Z.pos m * 2 ^ (e + 2148))%Z ->
  binary_round prec emax s m e = S754_infinity s \/
  exists m' e',
    binary_round prec emax s m e = S754_finite s m' e' /\
    (Z.pos mx * 2 ^ (ex + 2148) <= Z.pos m' * 2 ^ (e' + 2148))%Z.
Proof.
  intros He Hb Hle.
  pose proof (bounded_inv mx ex Hb) as (Hex & _ & _).
  pose proof (bounded_canonical mx ex Hb) as (Hc & Hmax & Hmx).
  pose proof (digits_scaled_le mx m ex e ltac:(lia) He Hle) as Hd.
  destruct (binary_round_value s m e He) as (r & Hr & _ & _ & _ & ->).
  set (E1 := Z.max (Z.pos (digits2_pos m) + e - 53) (-1074)) in *.
  set (W := (Z.pos m * 2 ^ (e + 2148))%Z) in *.
  set (U := (2 ^ (E1 + 2148))%Z) in *.
  assert (HE : (ex <= E1)%Z) by (subst E1; lia).
  assert (HU : (0 < U)%Z) by (subst U; apply pow2_pos; lia).
  pose proof (Z.div_mod W U ltac:(lia)) as Hdm.
  pose proof (Z.mod_pos_bound W U HU) as Hrho.
  set (X := (Z.pos mx * 2 ^ (ex + 2148))%Z) in *.
  assert (HX0 : (0 < X)%Z).
  { subst X. pose proof (pow2_pos (ex + 2148) ltac:(lia)). nia. }
  assert (Hq : (X <= W / U * U)%Z).
  { destruct (Z.eq_dec ex E1) as [E | N].
    - assert (EX : X = (Z.pos mx * U)%Z) by (subst X U; now rewrite E).
      assert (Hmq : (Z.pos mx <= W / U)%Z) by (apply Z.div_le_lower_bound; lia).
      rewrite EX. apply Z.mul_le_mono_nonneg_r; lia.
    - assert (ED : E1 = (Z.pos (digits2_pos m) + e - 53)%Z) by (subst E1; lia).
      pose proof (digits2_pos_lower m) as Lm.
      assert (HW : (2 ^ 52 * U <= W)%Z).
      { subst U W. rewrite <- pow2_add by lia.
        replace (52 + (E1 + 2148))%Z with (Z.pos (digits2_pos m) - 1 + (e + 2148))%Z by lia.
        rewrite pow2_add by lia.
        pose proof (pow2_pos (e + 2148) ltac:(lia)). nia. }
      assert (Hq52 : (2 ^ 52 <= W / U)%Z).
      { apply Z.div_le_lower_bound; lia. }
      assert (HXU : (X <= 2 ^ 52 * U)%Z).
      { subst X U. rewrite <- pow2_add by lia.
        assert (2 ^ (53 + (ex + 2148)) <= 2 ^ (52 + (E1 + 2148)))%Z by (apply pow2_le; lia).
        rewrite pow2_add in H by lia.
        pose proof (pow2_pos (ex + 2148) ltac:(lia)). nia. }
      nia. }
  assert (Hr1 : (0 < r)%Z) by nia.
  destruct (Z.eqb_spec r 0) as [E0 | N0]; [ lia | ].
  destruct (Z.eqb_spec r (2 ^ 53)) as [E53 | N53].
  - destruct (E1 + 1 <=? 971)%Z; [ right | now left ].
    eexists _, _. split; [ reflexivity | ].
    replace (E1 + 1 + 2148)%Z with (1 + (E1 + 2148))%Z by lia.
    rewrite pow2_add by lia. fold U.
    change (Z.pos (2 ^ 52)) with (2 ^ 52)%Z. change (2 ^ 1)%Z with 2%Z.
    assert (2 ^ 52 * 2 = 2 ^ 53)%Z by reflexivity. nia.
  - destruct (E1 <=? 971)%Z; [ right | now left ].
    eexists _, _. split; [ reflexivity | ].
    rewrite Z2Pos.id by lia. fold U. nia.
Qed.

(** Numbers of the format compare on the integer scale as their
    (exponent, mantissa) pairs do. *)
Lemma scaled_le_key (m1 m2 : positive) (e1 e2 : Z) :
  bounded prec emax m1 e1 = true -> bounded prec emax m2 e2 = true ->
  (Z.pos m1 * 2 ^ (e1 + 2148) <= Z.pos m2 * 2 ^ (e2 + 2148))%Z ->
  (e1 < e2 \/ (e1 = e2 /\ Z.pos m1 <= Z.pos m2))%Z.
Proof.
  intros B1 B2 H.
  pose proof (aligned_magnitudes m1 m2 e1 e2 B1 B2) as (_ & Hgt & _). cbv zeta in Hgt.
  apply bounded_inv in B1, B2.
  destruct (Z.lt_trichotomy e1 e2) as [L | [E | G]]; [ now left | right | exfalso ].
  - subst e2. split; [ reflexivity | ].
    pose proof (pow2_pos (e1 + 2148) ltac:(lia)).
    apply Z.mul_le_mono_pos_r in H; lia.
  - specialize (Hgt G). rewrite !shl_align_fst in Hgt by lia.
    replace (Z.min e2 e1) with e2 in Hgt by lia.
    replace (e2 - e2)%Z with 0%Z in Hgt by lia. rewrite Z.pow_0_r, Z.mul_1_r in Hgt.
    replace (e1 + 2148)%Z with (e1 - e2 + (e2 + 2148))%Z in H by lia.
    rewrite (pow2_add (e1 - e2) (e2 + 2148)), Z.mul_assoc in H by lia.
    pose proof (pow2_pos (e2 + 2148) ltac:(lia)).
    apply Z.mul_le_mono_pos_r in H; lia.
Qed.

Lemma scale_up (a b : Z) (e ez : Z) :
  (-1074 <= ez <= e)%Z -> (a <= b * 2 ^ (e - ez))%Z ->
  (a * 2 ^ (ez + 2148) <= b * 2 ^ (e + 2148))%Z.
Proof.
  intros He H.
  replace (e + 2148)%Z with (e - ez + (ez + 2148))%Z by lia.
  rewrite (pow2_add (e - ez) (ez + 2148)), Z.mul_assoc by lia.
  apply Z.mul_le_mono_nonneg_r; [ | exact H ].
  pose proof (pow2_pos (ez + 2148) ltac:(lia)). lia.
Qed.

Lemma scale_up_ge (a b : Z) (e ez : Z) :
  (-1074 <= ez <= e)%Z -> (b * 2 ^ (e - ez) <= a)%Z ->
  (b * 2 ^ (e + 2148) <= a * 2 ^ (ez + 2148))%Z.
Proof.
  intros He H.
  replace (e + 2148)%Z with (e - ez + (ez + 2148))%Z by lia.
  rewrite (pow2_add (e - ez) (ez + 2148)), Z.mul_assoc by lia.
  apply Z.mul_le_mono_nonneg_r; [ | exact H ].
  pose proof (pow2_pos (ez + 2148) ltac:(lia)). lia.
Qed.

Ltac pair_order :=
  cbn [sf_key]; unfold key_compare;
  repeat match goal with
    | |- context [(?a ?= ?b)%Z] => destruct (Z.compare_spec a b)
    end; try reflexivity; try lia.

(** An integer not above a number of the format is rounded to a number
    not above it. *)
Lemma normalize_le (z ez : Z) (sx : bool) (mx : positive) (ex : Z) :
  bounded prec emax mx ex = true -> (-1074 <= ez <= ex)%Z ->
  (z <= cond_Zopp sx (Z.pos mx * 2 ^ (ex - ez)))%Z ->
  valid_binary (binary_normalize prec emax z ez false) = true ->
  SFleb (binary_normalize prec emax z ez false) (S754_finite sx mx ex) = true.
Proof.
  intros Hb He Hz Hv. unfold SFleb. rewrite SFcompare_key.
  pose proof (pow2_pos (ex - ez) ltac:(lia)) as Hp.
  destruct z as [ | m | m]; cbn [binary_normalize] in *.
  - destruct sx; cbn [cond_Zopp] in Hz; [ nia | reflexivity ].
  - destruct sx; cbn [cond_Zopp] in Hz; [ nia | ].
    pose proof (scale_up _ _ _ _ He Hz) as Hs.
    destruct (round_below false m mx ez ex ltac:(lia) Hb Hs) as [E | (m' & e' & E & Hle)];
      rewrite E in *; [ reflexivity | ].
    cbn [valid_binary] in Hv.
    destruct (scaled_le_key _ _ _ _ Hv Hb Hle) as [L | [L1 L2]]; pair_order.
  - pose proof (binary_round_sign true m ez ltac:(lia)) as Hsg.
    destruct sx; cbn [cond_Zopp] in Hz.
    + assert (Hz' : (Z.pos mx * 2 ^ (ex - ez) <= Z.pos m)%Z) by lia.
      pose proof (scale_up_ge _ _ _ _ He Hz') as Hs.
      destruct (round_above true m mx ez ex ltac:(lia) Hb Hs) as [E | (m' & e' & E & Hle)];
        rewrite E in *; [ reflexivity | ].
      cbn [valid_binary] in Hv.
      destruct (scaled_le_key _ _ _ _ Hb Hv Hle) as [L | [L1 L2]]; pair_order.
    + destruct (binary_round prec emax true m ez) as [ | s | | s m' e']; try tauto;
        subst s; reflexivity.
Qed.

(** ... and an integer not below it to a number not below it. *)
Lemma normalize_ge (z ez : Z) (sx : bool) (mx : positive) (ex : Z) :
  bounded prec emax mx ex = true -> (-1074 <= ez <= ex)%Z ->
  (cond_Zopp sx (Z.pos mx * 2 ^ (ex - ez)) <= z)%Z ->
  valid_binary (binary_normalize prec emax z ez false) = true ->
  SFleb (S754_finite sx mx ex) (binary_normalize prec emax z ez false) = true.
Proof.
  intros Hb He Hz Hv. unfold SFleb. rewrite SFcompare_key.
  pose proof (pow2_pos (ex - ez) ltac:(lia)) as Hp.
  destruct z as [ | m | m]; cbn [binary_normalize] in *.
  - destruct sx; cbn [cond_Zopp] in Hz; [ reflexivity | nia ].
  - pose proof (binary_round_sign false m ez ltac:(lia)) as Hsg.
    destruct sx; cbn [cond_Zopp] in Hz.
    + destruct (binary_round prec emax false m ez) as [ | s | | s m' e']; try tauto;
        subst s; reflexivity.
    + pose proof (scale_up_ge _ _ _ _ He Hz) as Hs.
      destruct (round_above false m mx ez ex ltac:(lia) Hb Hs) as [E | (m' & e' & E & Hle)];
        rewrite E in *; [ reflexivity | ].
      cbn [valid_binary] in Hv.
      destruct (scaled_le_key _ _ _ _ Hb Hv Hle) as [L | [L1 L2]]; pair_order.
  - destruct sx; cbn [cond_Zopp] in Hz; [ | nia ].
    assert (Hz' : (Z.pos m <= Z.pos mx * 2 ^ (ex - ez))%Z) by lia.
    pose proof (scale_up _ _ _ _ He Hz') as Hs.
    destruct (round_below true m mx ez ex ltac:(lia) Hb Hs) as [E | (m' & e' & E & Hle)];
      rewrite E in *; [ reflexivity | ].
    cbn [valid_binary] in Hv.
    destruct (scaled_le_key _ _ _ _ Hv Hb Hle) as [L | [L1 L2]]; pair_order.
Qed.

Lemma SFleb_refl (x : spec_float) : x <> S754_nan -> SFleb x x = true.
Proof.
  intros H. unfold SFleb. rewrite SFcompare_key.
  destruct (sf_key x) eqn:E; [ now rewrite key_compare_refl | ].
  now destruct x as [ | [] | | [] ? ?].
Qed.

(** Taking a non-negative finite number away from a finite number never
    gives more, and adding one never gives less, whatever the rounding. *)
Lemma sub_le (x c : float) :
  isFinite x = true -> isFinite c = true -> (0 <=? c) = true -> (x - c <=? x) = true.
Proof.
  intros Fx Fc Hc. rewrite leb_spec in *.
  pose proof (Prim2SF_valid x) as Vx. pose proof (Prim2SF_valid c) as Vc.
  pose proof (Prim2SF_valid (x - c)) as Vr. rewrite sub_spec in *.
  unfold isFinite in *. change (Prim2SF 0) with (S754_zero false) in Hc.
  destruct (Prim2SF x) as [sx | | | sx mx ex]; try discriminate;
    destruct (Prim2SF c) as [sc | | | sc mc ec]; try discriminate.
  - now destruct sx, sc.
  - now destruct sc.
  - now apply SFleb_refl.
  - destruct sc; [ discriminate | ].
    cbn [valid_binary] in Vx, Vc. unfold SF64sub, SFsub in *.
    pose proof (bounded_inv _ _ Vx) as (Hx & _). pose proof (bounded_inv _ _ Vc) as (Hcc & _).
    apply normalize_le; try assumption; [ lia | ].
    rewrite <- (shl_align_fst mx ex (Z.min ex ec)) by lia.
    cbn [cond_Zopp]. lia.
Qed.

Lemma add_ge (x c : float) :
  isFinite x = true -> isFinite c = true -> (0 <=? c) = true -> (x <=? x + c) = true.
Proof.
  intros Fx Fc Hc. rewrite leb_spec in *.
  pose proof (Prim2SF_valid x) as Vx. pose proof (Prim2SF_valid c) as Vc.
  pose proof (Prim2SF_valid (x + c)) as Vr. rewrite add_spec in *.
  unfold isFinite in *. change (Prim2SF 0) with (S754_zero false) in Hc.
  destruct (Prim2SF x) as [sx | | | sx mx ex]; try discriminate;
    destruct (Prim2SF c) as [sc | | | sc mc ec]; try discriminate.
  - now destruct sx, sc.
  - now destruct sc.
  - now apply SFleb_refl.
  - destruct sc; [ discriminate | ].
    cbn [valid_binary] in Vx, Vc. unfold SF64add, SFadd in *.
    pose proof (bounded_inv _ _ Vx) as (Hx & _). pose proof (bounded_inv _ _ Vc) as (Hcc & _).
    apply normalize_ge; try assumption; [ lia | ].
    rewrite <- (shl_align_fst mx ex (Z.min ex ec)) by lia.
    cbn [cond_Zopp]. lia.
Qed.

(** ** Rounding keeps the order *)

Lemma scaled_pos (m : positive) (e : Z) : (-1074 <= e)%Z -> (0 < Z.pos m * 2 ^ (e + 2148))%Z.
Proof. intros H. apply Z.mul_pos_pos; [ lia | apply pow2_pos; lia ]. Qed.

Lemma scaled_digits_lower (m : positive) (e : Z) :
  (-1074 <= e)%Z ->
  (2 ^ (Z.pos (digits2_pos m) + e - 1 + 2148) <= Z.pos m * 2 ^ (e + 2148))%Z.
Proof.
  intros He. pose proof (digits2_pos_lower m) as Hl.
  replace (Z.pos (digits2_pos m) + e - 1 + 2148)%Z
    with (Z.pos (digits2_pos m) - 1 + (e + 2148))%Z by lia.
  rewrite (pow2_add (Z.pos (digits2_pos m) - 1) (e + 2148)) by lia.
  apply Z.mul_le_mono_nonneg_r; [ | exact Hl ].
  pose proof (pow2_pos (e + 2148) ltac:(lia)). lia.
Qed.

Lemma scaled_digits_upper (m : positive) (e : Z) :
  (-1074 <= e)%Z ->
  (Z.pos m * 2 ^ (e + 2148) < 2 ^ (Z.pos (digits2_pos m) + e + 2148))%Z.
Proof.
  intros He. pose proof (digits2_pos_upper m) as Hu.
  replace (Z.pos (digits2_pos m) + e + 2148)%Z
    with (Z.pos (digits2_pos m) + (e + 2148))%Z by lia.
  rewrite (pow2_add (Z.pos (digits2_pos m)) (e + 2148)) by lia.
  apply Zmult_lt_compat_r; [ | exact Hu ].
  apply pow2_pos. lia.
Qed.


Lemma SFleb_infinity (x : spec_float) : x <> S754_nan -> SFleb x (S754_infinity false) = true.
Proof. intros Hx. now destruct x as [ [] | [] | | [] ? ? ]. Qed.

(** Rounding is monotone on positive integers. *)
Lemma round_mono (m1 m2 : positive) (e1 e2 : Z) :
  (-1074 <= e1)%Z -> (-1074 <= e2)%Z ->
  (Z.pos m1 * 2 ^ (e1 + 2148) <= Z.pos m2 * 2 ^ (e2 + 2148))%Z ->
  valid_binary (binary_round prec emax false m1 e1) = true ->
  valid_binary (binary_round prec emax false m2 e2) = true ->
  SFleb (binary_round prec emax false m1 e1) (binary_round prec emax false m2 e2) = true.
Proof.
  intros He1 He2 Hle Hv1 Hv2.
  pose proof (binary_round_sign false m1 e1 He1) as Hs1.
  pose proof (binary_round_sign false m2 e2 He2) as Hs2.
  destruct (binary_round_value false m2 e2 ltac:(lia)) as (r2 & Hr2 & _ & _ & HC & Eq2).
  set (W1 := (Z.pos m1 * 2 ^ (e1 + 2148))%Z) in *.
  set (W2 := (Z.pos m2 * 2 ^ (e2 + 2148))%Z) in *.
  set (D1 := (Z.pos (digits2_pos m1) + e1)%Z) in *.
  set (D2 := (Z.pos (digits2_pos m2) + e2)%Z) in *.
  set (E2 := Z.max (D2 - 53) (-1074)) in *.
  set (U2 := (2 ^ (E2 + 2148))%Z) in *.
  assert (HU2 : (0 < U2)%Z) by (subst U2; apply pow2_pos; lia).
  assert (HW1 : (0 < W1)%Z) by (subst W1; now apply scaled_pos).
  pose proof (Z.div_mod W2 U2 ltac:(lia)) as Hdm2.
  pose proof (Z.mod_pos_bound W2 U2 HU2) as Hrho2.
  destruct (Z_lt_le_dec (r2 * U2) W1) as [Hgap | Hpivot].
  - (* nothing of the format lies between the two integers *)
    assert (Er2 : r2 = (W2 / U2)%Z) by nia.
    destruct (HC Er2) as [HC1 HC2]. rewrite Er2 in *.
    destruct (binary_round_value false m1 e1 ltac:(lia)) as (r1 & Hr1 & HA & HB & _ & Eq1).
    fold D1 W1 in Hr1, HA, HB, Eq1.
    set (E1 := Z.max (D1 - 53) (-1074)) in *.
    set (U1 := (2 ^ (E1 + 2148))%Z) in *.
    pose proof (digits_scaled_le m1 m2 e1 e2 ltac:(lia) ltac:(lia) Hle) as HD12. fold D1 D2 in HD12.
    assert (HD21 : (D2 <= D1)%Z).
    { pose proof (scaled_digits_lower m2 e2 He2) as L2. fold D2 W2 in L2.
      pose proof (scaled_digits_upper m1 e1 He1) as U1'. fold D1 W1 in U1'.
      assert (Hq : (2 ^ (D2 - 1 - E2) <= W2 / U2)%Z).
      { apply Z.div_le_lower_bound; [ lia | ].
        subst U2. rewrite <- pow2_add by lia.
        replace (E2 + 2148 + (D2 - 1 - E2))%Z with (D2 - 1 + 2148)%Z by lia. exact L2. }
      assert (Hq' : (2 ^ (D2 - 1 + 2148) <= W2 / U2 * U2)%Z).
      { replace (D2 - 1 + 2148)%Z with (D2 - 1 - E2 + (E2 + 2148))%Z by lia.
        rewrite pow2_add by lia. fold U2.
        apply Z.mul_le_mono_nonneg_r; lia. }
      assert (Hlt : (2 ^ (D2 - 1 + 2148) < 2 ^ (D1 + 2148))%Z) by lia.
      apply Z.pow_lt_mono_r_iff in Hlt; lia. }
    assert (ED : D1 = D2) by lia.
    assert (EE : E1 = E2) by (subst E1 E2; now rewrite ED).
    assert (EU : U1 = U2) by (subst U1 U2; now rewrite EE).
    rewrite EU, EE in *. clear EU.
    pose proof (Z.div_mod W1 U2 ltac:(lia)) as Hdm1.
    pose proof (Z.mod_pos_bound W1 U2 HU2) as Hrho1.
    assert (Eq : (W1 / U2 = W2 / U2)%Z).
    { apply Z.le_antisymm.
      - apply Z.div_le_mono; lia.
      - apply Z.div_le_lower_bound; lia. }
    assert (Er1 : r1 = (W2 / U2)%Z).
    { rewrite <- Eq.
      destruct (Z_lt_le_dec (2 * (W1 mod U2)) U2) as [L | G].
      - now apply HA.
      - apply HB; [ nia | ]. rewrite Eq. apply HC2. nia. }
    rewrite Eq1, Eq2, Er1. apply SFleb_refl.
    rewrite <- Eq2. now destruct (binary_round prec emax false m2 e2).
  - (* the result for the greater integer lies between them *)
    assert (Hr0 : (0 < r2)%Z) by nia.
    assert (Hfin : forall m' e',
               binary_round prec emax false m2 e2 = S754_finite false m' e' ->
               (Z.pos m' * 2 ^ (e' + 2148) = r2 * U2)%Z ->
               SFleb (binary_round prec emax false m1 e1)
                     (binary_round prec emax false m2 e2) = true).
    { intros m' e' E2' Hval. rewrite E2' in Hv2 |- *. cbn [valid_binary] in Hv2.
      destruct (round_below false m1 m' e1 e' ltac:(lia) Hv2 ltac:(fold W1; lia))
        as [E | (m'' & e'' & E & Hle')]; rewrite E in *; [ reflexivity | ].
      cbn [valid_binary] in Hv1. unfold SFleb. rewrite SFcompare_key.
      destruct (scaled_le_key _ _ _ _ Hv1 Hv2 Hle') as [L | [L1 L2]]; pair_order. }
    assert (Hinf : binary_round prec emax false m2 e2 = S754_infinity false ->
                   SFleb (binary_round prec emax false m1 e1)
                         (binary_round prec emax false m2 e2) = true).
    { intros ->. apply SFleb_infinity.
      now destruct (binary_round prec emax false m1 e1). }
    destruct (Z.eqb_spec r2 0) as [E0 | N0]; [ lia | ].
    destruct (Z.eqb_spec r2 (2 ^ 53)) as [E53 | N53].
    + destruct (E2 + 1 <=? 971)%Z; [ | now apply Hinf ].
      apply (Hfin _ _ Eq2).
      replace (E2 + 1 + 2148)%Z with (1 + (E2 + 2148))%Z by lia.
      rewrite (pow2_add 1 (E2 + 2148)) by lia. fold U2. rewrite E53.
      change (Z.pos (2 ^ 52)) with (2 ^ 52)%Z. change (2 ^ 1)%Z with 2%Z.
      assert (2 ^ 52 * 2 = 2 ^ 53)%Z by reflexivity. lia.
    + destruct (E2 <=? 971)%Z; [ | now apply Hinf ].
      apply (Hfin _ _ Eq2). rewrite Z2Pos.id by lia. reflexivity.
Qed.

(** Rounding is monotone from zero on. *)
Lemma normalize_mono (z1 z2 ez1 ez2 : Z) :
  (-1074 <= ez1)%Z -> (-1074 <= ez2)%Z -> (0 <= z1)%Z ->
  (z1 * 2 ^ (ez1 + 2148) <= z2 * 2 ^ (ez2 + 2148))%Z ->
  valid_binary (binary_normalize prec emax z1 ez1 false) = true ->
  valid_binary (binary_normalize prec emax z2 ez2 false) = true ->
  SFleb (binary_normalize prec emax z1 ez1 false)
        (binary_normalize prec emax z2 ez2 false) = true.
Proof.
  intros He1 He2 Hz1 Hle Hv1 Hv2.
  pose proof (pow2_pos (ez1 + 2148) ltac:(lia)) as P1.
  pose proof (pow2_pos (ez2 + 2148) ltac:(lia)) as P2.
  destruct z1 as [ | m1 | m1]; [ | | lia ]; destruct z2 as [ | m2 | m2];
    cbn [binary_normalize] in *; try reflexivity; try nia.
  - pose proof (binary_round_sign false m2 ez2 He2) as Hs.
    destruct (binary_round prec emax false m2 ez2) as [ | s | | s m' e']; try tauto;
      subst s; reflexivity.
  - now apply round_mono.
Qed.

(** ** Differences and quotients of ordered numbers *)

Lemma leb_scaled (m1 m2 : positive) (e1 e2 : Z) :
  bounded prec emax m1 e1 = true -> bounded prec emax m2 e2 = true ->
  SFleb (S754_finite false m1 e1) (S754_finite false m2 e2) = true ->
  (Z.pos m1 * 2 ^ (e1 + 2148) <= Z.pos m2 * 2 ^ (e2 + 2148))%Z.
Proof.
  intros B1 B2 H.
  destruct (Z_le_gt_dec (Z.pos m1 * 2 ^ (e1 + 2148)) (Z.pos m2 * 2 ^ (e2 + 2148)))
    as [ | G]; [ assumption | exfalso ].
  destruct (scaled_le_key m2 m1 e2 e1 B2 B1 ltac:(lia)) as [L | [L1 L2]].
  - revert H. unfold SFleb. rewrite SFcompare_key. pair_order; discriminate.
  - subst e2.
    assert (Z.pos m1 <= Z.pos m2)%Z.
    { revert H. unfold SFleb. rewrite SFcompare_key. pair_order; try discriminate. }
    assert (Z.pos m1 = Z.pos m2) by lia. rewrite H1 in G. lia.
Qed.

Lemma aligned_scaled (m : positive) (e ez : Z) :
  (-1074 <= ez <= e)%Z ->
  (Z.pos (fst (shl_align m e ez)) * 2 ^ (ez + 2148) = Z.pos m * 2 ^ (e + 2148))%Z.
Proof.
  intros H. rewrite shl_align_fst by lia.
  rewrite <- Z.mul_assoc, <- pow2_add by lia. do 2 f_equal. lia.
Qed.

(** Taking the same number away from two ordered numbers keeps their
    order, for numbers from zero on. *)
Lemma sub_mono (c x y : float) :
  isFinite c = true -> isFinite x = true -> isFinite y = true ->
  (0 <=? c) = true -> (c <=? x) = true -> (x <=? y) = true ->
  (x - c <=? y - c) = true.
Proof.
  intros Fc Fx Fy Hc Hcx Hxy. rewrite leb_spec in *.
  pose proof (Prim2SF_valid c) as Vc. pose proof (Prim2SF_valid x) as Vx.
  pose proof (Prim2SF_valid y) as Vy.
  pose proof (Prim2SF_valid (x - c)) as Vxc. pose proof (Prim2SF_valid (y - c)) as Vyc.
  rewrite (sub_spec x c) in *. rewrite (sub_spec y c) in *.
  unfold isFinite in *. change (Prim2SF 0) with (S754_zero false) in Hc.
  destruct (Prim2SF c) as [sc | | | sc mc ec]; try discriminate;
    destruct (Prim2SF x) as [sx | | | sx mx ex]; try discriminate;
    destruct (Prim2SF y) as [sy | | | sy my ey]; try discriminate;
    try (destruct sc; discriminate);
    try (destruct sc, sx; discriminate);
    try (destruct sx, sy; discriminate);
    try (now destruct sc, sx, sy);
    try assumption.
  - destruct sc; [ discriminate | ].
    destruct sx; [ discriminate | ].
    destruct sy; [ discriminate | ].
    cbn [valid_binary] in Vc, Vx, Vy.
    pose proof (leb_scaled _ _ _ _ Vc Vx Hcx) as Lcx.
    pose proof (leb_scaled _ _ _ _ Vx Vy Hxy) as Lxy.
    pose proof (bounded_inv _ _ Vc) as (Bc & _).
    pose proof (bounded_inv _ _ Vx) as (Bx & _).
    pose proof (bounded_inv _ _ Vy) as (By & _).
    unfold SF64sub, SFsub in *. cbn [cond_Zopp] in *.
    pose proof (aligned_scaled mx ex (Z.min ex ec) ltac:(lia)) as Ax.
    pose proof (aligned_scaled mc ec (Z.min ex ec) ltac:(lia)) as Acx.
    pose proof (aligned_scaled my ey (Z.min ey ec) ltac:(lia)) as Ay.
    pose proof (aligned_scaled mc ec (Z.min ey ec) ltac:(lia)) as Acy.
    pose proof (pow2_pos (Z.min ex ec + 2148) ltac:(lia)) as Px.
    apply normalize_mono; try assumption; try lia.
    nia.
Qed.

Lemma Zdigits2_le (q t : Z) : (0 <= q)%Z -> (0 <= t)%Z -> (q < 2 ^ t)%Z -> (Zdigits2 q <= t)%Z.
Proof.
  intros Hq Ht H. destruct q as [ | p | p]; cbn [Zdigits2]; try lia.
  pose proof (digits2_pos_lower p) as Hl.
  assert (Hlt : (2 ^ (Z.pos (digits2_pos p) - 1) < 2 ^ t)%Z) by lia.
  apply Z.pow_lt_mono_r_iff in Hlt; lia.
Qed.

Lemma Zdigits2_gt (q k : Z) : (0 <= k)%Z -> (2 ^ k <= q)%Z -> (k < Zdigits2 q)%Z.
Proof.
  intros Hk H. pose proof (pow2_pos k Hk) as Hp.
  pose proof (Zdigits2_upper q ltac:(lia)) as Hu.
  assert (Hd : (0 <= Zdigits2 q)%Z) by (destruct q; cbn; lia).
  assert (Hlt : (2 ^ k < 2 ^ Zdigits2 q)%Z) by lia.
  apply Z.pow_lt_mono_r_iff in Hlt; lia.
Qed.

Lemma new_location_exact (n : Z) : new_location n 0 = loc_Exact.
Proof. unfold new_location. now destruct (Z.even n). Qed.

(** The integer quotient that a division rounds. *)
Lemma SFdiv_core_value (ma mb : positive) (ea eb : Z) :
  let e' := Z.min (Z.max (Z.pos (digits2_pos ma) + ea - (Z.pos (digits2_pos mb) + eb) - 53)
                         (-1074)) (ea - eb) in
  let m' := (Z.pos ma * 2 ^ (ea - eb - e'))%Z in
  SFdiv_core_binary prec emax (Z.pos ma) ea (Z.pos mb) eb =
  (m' / Z.pos mb, e', new_location (Z.pos mb) (m' mod Z.pos mb))%Z.
Proof.
  intros e' m'. unfold SFdiv_core_binary. rewrite fexp_value. cbn [Zdigits2]. fold e'.
  assert (Em : match (ea - eb - e')%Z with
               | 0%Z => Z.pos ma
               | Z.pos _ => Z.shiftl (Z.pos ma) (ea - eb - e')
               | Z.neg _ => 0%Z
               end = m').
  { subst m'. destruct (ea - eb - e')%Z eqn:Es.
    - rewrite Z.pow_0_r. lia.
    - now rewrite Z.shiftl_mul_pow2 by lia.
    - subst e'. lia. }
  rewrite Em. unfold Z.div, Z.modulo.
  now destruct (Z.div_eucl m' (Z.pos mb)).
Qed.

Lemma SFdiv_unit (ma mb : positive) (ea eb : Z) :
  bounded prec emax ma ea = true -> bounded prec emax mb eb = true ->
  (Z.pos ma * 2 ^ (ea + 2148) <= Z.pos mb * 2 ^ (eb + 2148))%Z ->
  valid_binary (SF64div (S754_finite false ma ea) (S754_finite false mb eb)) = true ->
  SFleb (S754_zero false)
        (SF64div (S754_finite false ma ea) (S754_finite false mb eb)) = true /\
  SFleb (SF64div (S754_finite false ma ea) (S754_finite false mb eb))
        (S754_finite false (2 ^ 52) (-52)) = true.
Proof.
  intros Ba Bb Hle Hv.
  pose proof (bounded_inv _ _ Ba) as (Hea & _). pose proof (bounded_inv _ _ Bb) as (Heb & _).
  pose proof (digits_scaled_le ma mb ea eb ltac:(lia) ltac:(lia) Hle) as Hd.
  unfold SF64div, SFdiv in *. rewrite SFdiv_core_value in *. cbn [xorb] in *.
  set (d1 := Z.pos (digits2_pos ma)) in *. set (d2 := Z.pos (digits2_pos mb)) in *.
  set (e' := Z.min (Z.max (d1 + ea - (d2 + eb) - 53) (-1074)) (ea - eb)) in *.
  set (s := (ea - eb - e')%Z) in *.
  set (m' := (Z.pos ma * 2 ^ s)%Z) in *.
  set (q := (m' / Z.pos mb)%Z) in *.
  set (rem := (m' mod Z.pos mb)%Z) in *.
  set (t := (- e')%Z).
  assert (Hs : (0 <= s)%Z) by (subst s e'; lia).
  assert (Ht : (53 <= t)%Z) by (subst t e'; lia).
  assert (Hm' : (0 < m')%Z) by (subst m'; pose proof (pow2_pos s Hs); nia).
  pose proof (Z.div_mod m' (Z.pos mb) ltac:(lia)) as Hdm. fold q rem in Hdm.
  pose proof (Z.mod_pos_bound m' (Z.pos mb) ltac:(lia)) as Hrem. fold rem in Hrem.
  assert (Hq0 : (0 <= q)%Z) by (subst q; apply Z.div_pos; lia).
  (* the quotient is at most one *)
  assert (Hmt : (m' <= Z.pos mb * 2 ^ t)%Z).
  { subst m'. destruct (Z_le_gt_dec eb ea) as [L | G].
    - replace (ea + 2148)%Z with (ea - eb + (eb + 2148))%Z in Hle by lia.
      rewrite (pow2_add (ea - eb) (eb + 2148)), Z.mul_assoc in Hle by lia.
      apply Z.mul_le_mono_pos_r in Hle; [ | apply pow2_pos; lia ].
      replace s with (ea - eb + t)%Z by (subst s t; lia).
      rewrite (pow2_add (ea - eb) t), Z.mul_assoc by lia.
      apply Z.mul_le_mono_nonneg_r; [ | exact Hle ].
      pose proof (pow2_pos t ltac:(lia)). lia.
    - replace (eb + 2148)%Z with (eb - ea + (ea + 2148))%Z in Hle by lia.
      rewrite (pow2_add (eb - ea) (ea + 2148)), Z.mul_assoc in Hle by lia.
      apply Z.mul_le_mono_pos_r in Hle; [ | apply pow2_pos; lia ].
      replace t with (eb - ea + s)%Z by (subst s t; lia).
      rewrite (pow2_add (eb - ea) s), Z.mul_assoc by lia.
      apply Z.mul_le_mono_nonneg_r; [ | exact Hle ].
      pose proof (pow2_pos s ltac:(lia)). lia. }
  pose proof (pow2_pos t ltac:(lia)) as Hpt.
  assert (Hqt : (q <= 2 ^ t)%Z).
  { subst q. apply Z.div_le_upper_bound; lia. }
  (* the working exponent is not below the exponent of the quotient *)
  set (E1 := Z.max (Zdigits2 q + e' - 53) (-1074)).
  assert (HE : (e' <= E1)%Z).
  { destruct (Z_le_gt_dec e' (-1074)) as [L | G]; [ subst E1; lia | ].
    assert (Hs' : (d2 - d1 + 53 <= s)%Z) by (subst s e'; lia).
    pose proof (digits2_pos_lower ma) as La. pose proof (digits2_pos_upper mb) as Ub.
    fold d1 in La. fold d2 in Ub.
    assert (Hd1 : (1 <= d1)%Z) by (subst d1; lia).
    assert (Hd2 : (1 <= d2)%Z) by (subst d2; lia).
    assert (H52 : (2 ^ 52 <= q)%Z).
    { subst q. apply Z.div_le_lower_bound; [ lia | ].
      apply Z.le_trans with (2 ^ d2 * 2 ^ 52)%Z.
      - apply Z.mul_le_mono_nonneg_r; lia.
      - rewrite <- pow2_add by lia.
        apply Z.le_trans with (2 ^ (d1 - 1) * 2 ^ s)%Z.
        + rewrite <- pow2_add by lia. apply pow2_le. lia.
        + subst m'. apply Z.mul_le_mono_nonneg_r; [ | exact La ].
          pose proof (pow2_pos s Hs). lia. }
    pose proof (Zdigits2_gt q 52 ltac:(lia) H52). subst E1. lia. }
  pose proof (binary_round_aux_value false q e' (new_location (Z.pos mb) rem) Hq0) as Haux.
  cbv zeta in Haux. fold E1 in Haux.
  destruct (Haux HE) as (r & Hr & Hr53 & Hex & Eq). clear Haux.
  rewrite Eq in *.
  assert (Hr0 : (0 <= r)%Z).
  { assert (0 <= q / 2 ^ (E1 - e'))%Z by (apply Z.div_pos; [ lia | apply pow2_pos; lia ]).
    lia. }
  split.
  { destruct (r =? 0)%Z; [ reflexivity | ].
    destruct (r =? 2 ^ 53)%Z; [ now destruct (E1 + 1 <=? 971)%Z | now destruct (E1 <=? 971)%Z ]. }
  assert (Hone : bounded prec emax (2 ^ 52) (-52) = true) by reflexivity.
  assert (Hfin : forall m'' e'',
             bounded prec emax m'' e'' = true ->
             (Z.pos m'' * 2 ^ (e'' + 2148) <= 2 ^ 2148)%Z ->
             SFleb (S754_finite false m'' e'') (S754_finite false (2 ^ 52) (-52)) = true).
  { intros m'' e'' Hb Hval. unfold SFleb. rewrite SFcompare_key.
    destruct (scaled_le_key _ _ _ _ Hb Hone Hval) as [L | [L1 L2]]; pair_order. }
  destruct (Z.eq_dec q (2 ^ t)) as [Eqt | Nqt].
  - (* the quotient is exactly one *)
    assert (Erem : rem = 0%Z) by nia.
    rewrite Erem, new_location_exact in Hex.
    destruct (Hex eq_refl) as (Ha & _ & _).
    assert (Ed : Zdigits2 q = (t + 1)%Z).
    { pose proof (Zdigits2_gt q t ltac:(lia) ltac:(lia)).
      pose proof (Zdigits2_le q (t + 1) Hq0 ltac:(lia)
                    ltac:(rewrite Eqt, pow2_add by lia; change (2 ^ 1)%Z with 2%Z; lia)).
      lia. }
    assert (EE : E1 = (-52)%Z) by (subst E1 t; lia).
    assert (Eh : (E1 - e' = t - 52)%Z) by (subst t; lia).
    rewrite Eh in *.
    assert (Eq1 : (q = 2 ^ 52 * 2 ^ (t - 52))%Z).
    { rewrite Eqt, <- pow2_add by lia. f_equal. lia. }
    pose proof (pow2_pos (t - 52) ltac:(lia)) as Hp.
    assert (Er : r = (2 ^ 52)%Z).
    { rewrite Ha.
      - rewrite Eq1. apply Z.div_mul. lia.
      - rewrite Eq1, Z.mod_mul by lia. lia. }
    rewrite Er, EE. reflexivity.
  - (* the quotient is below one *)
    assert (Hlt : (q < 2 ^ t)%Z) by lia.
    pose proof (Zdigits2_le q t Hq0 ltac:(lia) Hlt) as Hdq.
    assert (HE53 : (-1074 <= E1 <= -53)%Z) by (subst E1 t; lia).
    assert (Eh : (t = E1 - e' + - E1)%Z) by (subst t; lia).
    assert (Hq1 : (q / 2 ^ (E1 - e') < 2 ^ (- E1))%Z).
    { apply Z.div_lt_upper_bound; [ apply pow2_pos; lia | ].
      rewrite <- pow2_add by lia. now rewrite <- Eh. }
    assert (Hval : (r * 2 ^ (E1 + 2148) <= 2 ^ 2148)%Z).
    { replace 2148%Z with (- E1 + (E1 + 2148))%Z at 2 by lia.
      rewrite (pow2_add (- E1) (E1 + 2148)) by lia.
      apply Z.mul_le_mono_nonneg_r; [ | lia ].
      pose proof (pow2_pos (E1 + 2148) ltac:(lia)). lia. }
    destruct (Z.eqb_spec r 0) as [E0 | N0]; [ reflexivity | ].
    destruct (Z.eqb_spec r (2 ^ 53)) as [E53 | N53].
    + rewrite (proj2 (Z.leb_le (E1 + 1) 971)) in * by lia.
      cbn [valid_binary] in Hv. apply Hfin; [ exact Hv | ].
      replace (E1 + 1 + 2148)%Z with (1 + (E1 + 2148))%Z by lia.
      rewrite (pow2_add 1 (E1 + 2148)) by lia. rewrite E53 in Hval.
      change (Z.pos (2 ^ 52)) with (2 ^ 52)%Z. change (2 ^ 1)%Z with 2%Z.
      assert (2 ^ 52 * 2 = 2 ^ 53)%Z by reflexivity. lia.
    + rewrite (proj2 (Z.leb_le E1 971)) in * by lia.
      cbn [valid_binary] in Hv. apply Hfin; [ exact Hv | ].
      rewrite Z2Pos.id by lia. exact Hval.
Qed.

(** For finite numbers from zero on, a quotient whose dividend is not
    above its divisor lies between 0 and 1. *)
Lemma div_unit (a b : float) :
  isFinite a = true -> isFinite b = true ->
  (0 <=? a) = true -> (a <=? b) = true -> (0 <? b) = true ->
  (0 <=? a / b) = true /\ (a / b <=? 1) = true.
Proof.
  intros Fa Fb Ha Hab Hb. rewrite !leb_spec, ltb_spec in *.
  pose proof (Prim2SF_valid a) as Va. pose proof (Prim2SF_valid b) as Vb.
  pose proof (Prim2SF_valid (a / b)) as Vq.
  rewrite div_spec in *. unfold isFinite in *.
  change (Prim2SF 0) with (S754_zero false) in *.
  change (Prim2SF 1) with (S754_finite false (2 ^ 52) (-52)).
  destruct (Prim2SF a) as [sa | | | sa ma ea]; try discriminate;
    destruct (Prim2SF b) as [sb | | | sb mb eb]; try discriminate;
    try (destruct sb; discriminate).
  - destruct sb; [ discriminate | ]. now destruct sa.
  - destruct sa; [ discriminate | ]. destruct sb; [ discriminate | ].
    cbn [valid_binary] in Va, Vb.
    apply SFdiv_unit; try assumption.
    now apply leb_scaled.
Qed.

(** ** Sums and products of numbers from zero on *)

(** A number of the format is rounded to itself. *)
Lemma round_id (s : bool) (m : positive) (e : Z) :
  bounded prec emax m e = true -> binary_round prec emax s m e = S754_finite s m e.
Proof.
  intros Hb.
  pose proof (bounded_inv m e Hb) as (He & _).
  pose proof (bounded_canonical m e Hb) as (Hc & Hmax & Hm).
  destruct (binary_round_value s m e ltac:(lia)) as (r & _ & Hexact & _ & _ & ->).
  rewrite <- Hc in *.
  assert (HU : (0 < 2 ^ (e + 2148))%Z) by (apply pow2_pos; lia).
  rewrite Z.mod_mul, Z.div_mul in Hexact by lia.
  rewrite (Hexact ltac:(lia)).
  destruct (Z.eqb_spec (Z.pos m) 0) as [E0 | _]; [ lia | ].
  destruct (Z.eqb_spec (Z.pos m) (2 ^ 53)) as [E53 | _]; [ lia | ].
  rewrite (proj2 (Z.leb_le e 971)) by lia. reflexivity.
Qed.

Lemma counts_of_float (x : float) :
  isFinite x = true -> (0 <=? x) = true -> counts (Prim2SF x).
Proof.
  intros F H. rewrite leb_spec in H. pose proof (Prim2SF_valid x) as V.
  unfold isFinite in F. change (Prim2SF 0) with (S754_zero false) in H.
  destruct (Prim2SF x) as [ | | | [] m e]; try discriminate; cbn; auto.
Qed.

Lemma scaled_nonneg (x : spec_float) : counts x -> (0 <= scaled x)%Z.
Proof.
  destruct x as [ | | | [] m e]; cbn [counts scaled]; lia.
Qed.

Lemma SFleb_scaled (x y : spec_float) :
  counts x -> counts y -> SFleb x y = true -> (scaled x <= scaled y)%Z.
Proof.
  intros Cx Cy H.
  destruct x as [sx | | | [] mx ex]; try contradiction;
    destruct y as [sy | | | [] my ey]; try contradiction; cbn [scaled counts] in *.
  - lia.
  - lia.
  - discriminate.
  - now apply leb_scaled.
Qed.

Lemma SFleb_keys (x x' y y' : spec_float) :
  sf_key x = sf_key x' -> sf_key y = sf_key y' -> SFleb x y = SFleb x' y'.
Proof. intros Hx Hy. unfold SFleb. rewrite !SFcompare_key, Hx, Hy. reflexivity. Qed.

(** The sum of two numbers from zero on is the rounding of the sum of
    their integers. *)
Lemma add_as_rounding (x y : float) :
  counts (Prim2SF x) -> counts (Prim2SF y) ->
  exists z ez,
    (-1074 <= ez)%Z /\ (0 <= z)%Z /\
    (z * 2 ^ (ez + 2148) = scaled (Prim2SF x) + scaled (Prim2SF y))%Z /\
    valid_binary (binary_normalize prec emax z ez false) = true /\
    sf_key (Prim2SF (x + y)) = sf_key (binary_normalize prec emax z ez false).
Proof.
  intros Cx Cy. pose proof (Prim2SF_valid (x + y)) as V. rewrite add_spec in *.
  destruct (Prim2SF x) as [sx | | | [] mx ex]; try contradiction;
    destruct (Prim2SF y) as [sy | | | [] my ey]; try contradiction; cbn [scaled counts] in *.
  - exists 0%Z, 0%Z. repeat split; try lia. now destruct sx, sy.
  - pose proof (bounded_inv _ _ Cy) as (He & _).
    exists (Z.pos my), ey. cbn [binary_normalize]. rewrite round_id by assumption.
    repeat split; try lia. exact Cy.
  - pose proof (bounded_inv _ _ Cx) as (He & _).
    exists (Z.pos mx), ex. cbn [binary_normalize]. rewrite round_id by assumption.
    repeat split; try lia. exact Cx.
  - pose proof (bounded_inv _ _ Cx) as (Hx & _). pose proof (bounded_inv _ _ Cy) as (Hy & _).
    unfold SF64add, SFadd in *. cbn [cond_Zopp] in *.
    eexists _, _. split; [ | split; [ | split; [ | split; [ exact V | reflexivity ] ] ] ].
    + lia.
    + lia.
    + rewrite Z.mul_add_distr_r.
      rewrite (aligned_scaled mx ex (Z.min ex ey)) by lia.
      rewrite (aligned_scaled my ey (Z.min ex ey)) by lia. reflexivity.
Qed.

Lemma normalize_nonneg (z ez : Z) :
  (-1074 <= ez)%Z -> (0 <= z)%Z ->
  SFleb (S754_zero false) (binary_normalize prec emax z ez false) = true.
Proof.
  intros He Hz. destruct z as [ | m | m]; [ reflexivity | | lia ].
  cbn [binary_normalize]. pose proof (binary_round_sign false m ez He) as Hs.
  destruct (binary_round prec emax false m ez) as [ | s | | s m' e']; try tauto;
    subst s; reflexivity.
Qed.

(** Addition is monotone from zero on, and its result is not below
    zero. *)
Lemma add_mono (a a' b b' : float) :
  isFinite a = true -> isFinite a' = true -> isFinite b = true -> isFinite b' = true ->
  (0 <=? a) = true -> (0 <=? b) = true -> (a <=? a') = true -> (b <=? b') = true ->
  (0 <=? a + b) = true /\ (a + b <=? a' + b') = true.
Proof.
  intros Fa Fa' Fb Fb' Ha Hb Haa Hbb.
  pose proof (leb_trans _ _ _ Ha Haa) as Ha'. pose proof (leb_trans _ _ _ Hb Hbb) as Hb'.
  pose proof (counts_of_float a Fa Ha) as Ca. pose proof (counts_of_float a' Fa' Ha') as Ca'.
  pose proof (counts_of_float b Fb Hb) as Cb. pose proof (counts_of_float b' Fb' Hb') as Cb'.
  destruct (add_as_rounding a b Ca Cb) as (z1 & e1 & He1 & Hz1 & Ez1 & V1 & K1).
  destruct (add_as_rounding a' b' Ca' Cb') as (z2 & e2 & He2 & Hz2 & Ez2 & V2 & K2).
  rewrite !leb_spec in *.
  change (Prim2SF 0) with (S754_zero false) in *.
  split.
  - rewrite (SFleb_keys _ (S754_zero false) _ _ eq_refl K1). now apply normalize_nonneg.
  - rewrite (SFleb_keys _ _ _ _ K1 K2).
    apply normalize_mono; try assumption.
    rewrite Ez1, Ez2.
    pose proof (SFleb_scaled _ _ Ca Ca' Haa). pose proof (SFleb_scaled _ _ Cb Cb' Hbb). lia.
Qed.

Lemma digits2_pos_mul (a b : positive) :
  (Z.pos (digits2_pos a) + Z.pos (digits2_pos b) - 1 <= Z.pos (digits2_pos (a * b)))%Z.
Proof.
  pose proof (digits2_pos_lower a) as La. pose proof (digits2_pos_lower b) as Lb.
  pose proof (digits2_pos_upper (a * b)) as U.
  set (da := Z.pos (digits2_pos a)) in *. set (db := Z.pos (digits2_pos b)) in *.
  assert (Hda : (1 <= da)%Z) by (subst da; lia).
  assert (Hdb : (1 <= db)%Z) by (subst db; lia).
  assert (H : (2 ^ (da - 1 + (db - 1)) < 2 ^ Z.pos (digits2_pos (a * b)))%Z).
  { rewrite pow2_add by lia. rewrite Pos2Z.inj_mul in U.
    pose proof (pow2_pos (da - 1) ltac:(lia)). pose proof (pow2_pos (db - 1) ltac:(lia)).
    nia. }
  apply Z.pow_lt_mono_r_iff in H; lia.
Qed.

(** A number between two finite numbers is finite. *)
Lemma between_finite (x lo hi : float) :
  isFinite lo = true -> isFinite hi = true ->
  (lo <=? x) = true -> (x <=? hi) = true -> isFinite x = true.
Proof.
  rewrite !leb_spec. unfold isFinite.
  destruct (Prim2SF x) as [ | [] | | ]; try reflexivity;
    destruct (Prim2SF lo) as [ | | | [] ? ?]; try discriminate;
    destruct (Prim2SF hi) as [ | | | [] ? ?]; try discriminate.
Qed.

(** A part of a number from zero on is not above the number: multiplying
    by a factor between 0 and 1 never gives more, nor less than zero. *)
Lemma mul_part (s w : float) :
  (0 <=? s) = true -> (s <=? 1) = true -> isFinite w = true -> (0 <=? w) = true ->
  (0 <=? s * w) = true /\ (s * w <=? w) = true.
Proof.
  intros Hs0 Hs1 Fw Hw.
  assert (Fs : isFinite s = true) by exact (between_finite s 0 1 eq_refl eq_refl Hs0 Hs1).
  pose proof (counts_of_float s Fs Hs0) as Cs. pose proof (counts_of_float w Fw Hw) as Cw.
  pose proof (Prim2SF_valid (s * w)) as V.
  rewrite !leb_spec in *. rewrite mul_spec in *.
  change (Prim2SF 0) with (S754_zero false) in *.
  change (Prim2SF 1) with (S754_finite false (2 ^ 52) (-52)) in *.
  destruct (Prim2SF s) as [ss | | | [] ms es]; try contradiction;
    destruct (Prim2SF w) as [sw | | | [] mw ew]; try contradiction; cbn [counts] in *.
  - now destruct ss, sw.
  - now destruct ss.
  - now split.
  - pose proof (bounded_inv _ _ Cs) as (Hes & Hds & Hcs).
    pose proof (bounded_inv _ _ Cw) as (Hew & Hdw & Hcw).
    assert (Hone : bounded prec emax (2 ^ 52) (-52) = true) by reflexivity.
    pose proof (leb_scaled _ _ _ _ Cs Hone Hs1) as H1.
    unfold SF64mul, SFmul in *. cbn [xorb] in *.
    (* the exponent of the product is not above the working exponent *)
    assert (Eround : binary_round_aux prec emax false (Z.pos (ms * mw)) (es + ew) loc_Exact =
                     binary_round prec emax false (ms * mw) (es + ew)).
    { unfold binary_round, shl_align. rewrite fexp_value.
      pose proof (digits2_pos_mul ms mw) as Hd.
      destruct (Z.max (Z.pos (digits2_pos (ms * mw)) + (es + ew) - 53) (-1074) - (es + ew))%Z
        eqn:En; try reflexivity. lia. }
    rewrite Eround in *.
    assert (Hle : (Z.pos (ms * mw) * 2 ^ (es + ew + 2148) <= Z.pos mw * 2 ^ (ew + 2148))%Z).
    { replace (es + ew + 2148)%Z with ((es + 1074) + (ew + 1074))%Z by lia.
      rewrite (pow2_add (es + 1074) (ew + 1074)) by lia.
      replace (ew + 2148)%Z with (1074 + (ew + 1074))%Z by lia.
      rewrite (pow2_add 1074 (ew + 1074)) by lia.
      replace (es + 2148)%Z with ((es + 1074) + 1074)%Z in H1 by lia.
      rewrite (pow2_add (es + 1074) 1074) in H1 by lia.
      replace (-52 + 2148)%Z with (1022 + 1074)%Z in H1 by lia.
      rewrite (pow2_add 1022 1074) in H1 by lia.
      assert (E52 : (Z.pos (2 ^ 52) * 2 ^ 1022 = 2 ^ 1074)%Z) by reflexivity.
      pose proof (pow2_pos 1074 ltac:(lia)) as P.
      pose proof (pow2_pos (ew + 1074) ltac:(lia)) as Pw.
      pose proof (pow2_pos (es + 1074) ltac:(lia)) as Ps.
      assert (H2 : (Z.pos ms * 2 ^ (es + 1074) <= 2 ^ 1074)%Z) by nia.
      rewrite Pos2Z.inj_mul.
      replace (Z.pos ms * Z.pos mw * (2 ^ (es + 1074) * 2 ^ (ew + 1074)))%Z
        with ((Z.pos ms * 2 ^ (es + 1074)) * (Z.pos mw * 2 ^ (ew + 1074)))%Z by ring.
      replace (Z.pos mw * (2 ^ 1074 * 2 ^ (ew + 1074)))%Z
        with (2 ^ 1074 * (Z.pos mw * 2 ^ (ew + 1074)))%Z by ring.
      apply Z.mul_le_mono_nonneg_r; [ nia | exact H2 ]. }
    destruct (round_below false (ms * mw) mw (es + ew) ew ltac:(lia) Cw Hle)
      as [E | (m' & e' & E & Hle')]; rewrite E in *; [ now split | ].
    split; [ reflexivity | ].
    cbn [valid_binary] in V. unfold SFleb. rewrite SFcompare_key.
    destruct (scaled_le_key _ _ _ _ V Cw Hle') as [L | [L1 L2]]; pair_order.
Qed.

(* ================================================================== *)
(** * Properties of the rectangles *)
(* ================================================================== *)

(** ** The least and the greatest of a scan *)

Lemma leb_refl (x : float) : isNaN x = false -> (x <=? x) = true.
Proof. intros H. apply eqb_leb. now apply eqb_refl. Qed.

Lemma max_step_ge (highest x : float) :
  isNaN highest = false -> isNaN x = false ->
  (highest <=? max_step highest x) = true /\ (x <=? max_step highest x) = true.
Proof.
  intros Hh Hx. unfold max_step.
  destruct (is_pos_zero x && is_neg_zero highest) eqn:Ez.
  - apply andb_true_iff in Ez. destruct Ez as [Ex Eh].
    unfold is_neg_zero, is_pos_zero in *. split; [ | now apply leb_refl ].
    rewrite leb_spec. destruct (Prim2SF x) as [[] | | | ]; try discriminate.
    now destruct (Prim2SF highest) as [[] | | | ].
  - destruct (highest <? x) eqn:E.
    + split; [ now apply ltb_leb | now apply leb_refl ].
    + split; [ now apply leb_refl | now apply not_ltb_leb ].
Qed.

Lemma Math_min_pair (m v : float) :
  isFinite m = true -> isFinite v = true ->
  isFinite (Math_min [m; v]) = true /\
  (Math_min [m; v] <=? m) = true /\ (Math_min [m; v] <=? v) = true.
Proof.
  intros Hm Hv.
  assert (Hfin : Forall (fun v => isFinite v = true) [m; v]) by (repeat constructor; assumption).
  pose proof (Math_min_in [m; v] Hfin ltac:(discriminate)) as Hin.
  pose proof (Math_min_le [m; v] Hfin) as Hle.
  inversion Hle as [ | ? ? H1 Hle']; subst. inversion Hle' as [ | ? ? H2 _]; subst.
  split; [ | split; assumption ].
  destruct Hin as [<- | [<- | []]]; assumption.
Qed.

Lemma Math_max_pair (m v : float) :
  isFinite m = true -> isFinite v = true ->
  isFinite (Math_max [m; v]) = true /\
  (m <=? Math_max [m; v]) = true /\ (v <=? Math_max [m; v]) = true.
Proof.
  intros Hm Hv.
  assert (Hfin : Forall (fun v => isFinite v = true) [m; v]) by (repeat constructor; assumption).
  pose proof (Math_max_in [m; v] Hfin ltac:(discriminate)) as Hin.
  split; [ destruct Hin as [<- | [<- | []]]; assumption | ].
  unfold Math_max. rewrite (finite_no_nan _ Hfin). cbn [fold_left].
  rewrite (max_step_finite_first m Hm).
  apply max_step_ge; now apply finite_not_nan.
Qed.

Section Scan.

Context {A : Type}.
Variable f : A -> float.

(** The running minimum of a scan over finite values is finite, not
    above its start and not above any value scanned. *)
Lemma scan_min (pts : list A) (start : float) :
  isFinite start = true -> Forall (fun p => isFinite (f p) = true) pts ->
  let lowest := fold_left (fun m p => Math_min [m; f p]) pts start in
  isFinite lowest = true /\ (lowest <=? start) = true /\
  Forall (fun p => (lowest <=? f p) = true) pts.
Proof.
  intros Hs Hpts. revert start Hs.
  induction Hpts as [ | p pts Hp _ IH]; intros start Hs; cbn [fold_left].
  - split; [ assumption | ]. split; [ now apply leb_refl, finite_not_nan | constructor ].
  - destruct (Math_min_pair start (f p) Hs Hp) as (F & L1 & L2).
    destruct (IH _ F) as (F' & L & Hall).
    split; [ exact F' | ]. split; [ exact (leb_trans _ _ _ L L1) | ].
    constructor; [ exact (leb_trans _ _ _ L L2) | exact Hall ].
Qed.

Lemma scan_max (pts : list A) (start : float) :
  isFinite start = true -> Forall (fun p => isFinite (f p) = true) pts ->
  let highest := fold_left (fun m p => Math_max [m; f p]) pts start in
  isFinite highest = true /\ (start <=? highest) = true /\
  Forall (fun p => (f p <=? highest) = true) pts.
Proof.
  intros Hs Hpts. revert start Hs.
  induction Hpts as [ | p pts Hp _ IH]; intros start Hs; cbn [fold_left].
  - split; [ assumption | ]. split; [ now apply leb_refl, finite_not_nan | constructor ].
  - destruct (Math_max_pair start (f p) Hs Hp) as (F & L1 & L2).
    destruct (IH _ F) as (F' & L & Hall).
    split; [ exact F' | ]. split; [ exact (leb_trans _ _ _ L1 L) | ].
    constructor; [ exact (leb_trans _ _ _ L2 L) | exact Hall ].
Qed.

(** The padded interval of a scan holds every value scanned. *)
Lemma padded_scan (pts : list A) (start padding : float) :
  isFinite start = true -> Forall (fun p => isFinite (f p) = true) pts ->
  isFinite padding = true -> (0 <=? padding) = true ->
  Forall (fun p =>
            (fold_left (fun m p => Math_min [m; f p]) pts start - padding <=? f p) = true /\
            (f p <=? fold_left (fun m p => Math_max [m; f p]) pts start + padding) = true)
         pts.
Proof.
  intros Hs Hpts Hpad Hpos.
  destruct (scan_min pts start Hs Hpts) as (Flo & _ & Hlo).
  destruct (scan_max pts start Hs Hpts) as (Fhi & _ & Hhi).
  cbv zeta in *.
  pose proof (sub_le _ padding Flo Hpad Hpos) as Hsub.
  pose proof (add_ge _ padding Fhi Hpad Hpos) as Hadd.
  rewrite Forall_forall in *. intros p Hp. split.
  - exact (leb_trans _ _ _ Hsub (Hlo p Hp)).
  - exact (leb_trans _ _ _ (Hhi p Hp) Hadd).
Qed.

End Scan.

Lemma finite_points_split (pts : list LngLat) :
  Forall finite_point pts ->
  Forall (fun p => isFinite (lng p) = true) pts /\
  Forall (fun p => isFinite (lat p) = true) pts.
Proof.
  intros H. split; (eapply Forall_impl; [ | exact H ]); now intros p [H1 H2].
Qed.

Lemma padded_rectangle (pts : list LngLat) (p0 : LngLat) (padding : float) :
  finite_point p0 -> Forall finite_point pts ->
  isFinite padding = true -> (0 <=? padding) = true ->
  Forall (fun p =>
    inside p
      (fold_left (fun m p => Math_min [m; lng p]) pts (lng p0) - padding)
      (fold_left (fun m p => Math_min [m; lat p]) pts (lat p0) - padding)
      (fold_left (fun m p => Math_max [m; lng p]) pts (lng p0) + padding)
      (fold_left (fun m p => Math_max [m; lat p]) pts (lat p0) + padding)) pts.
Proof.
  intros [H0 H0'] Hpts Hpad Hpos.
  destruct (finite_points_split pts Hpts) as [Hlng Hlat].
  pose proof (padded_scan lng pts (lng p0) padding H0 Hlng Hpad Hpos) as H1.
  pose proof (padded_scan lat pts (lat p0) padding H0' Hlat Hpad Hpos) as H2.
  rewrite Forall_forall in *. intros p Hp.
  destruct (H1 p Hp) as [A1 A2]. destruct (H2 p Hp) as [B1 B2].
  repeat split; assumption.
Qed.

(** The rectangle that the monitor asks events for holds every point of
    a route whose coordinates are finite numbers; only the empty route
    has no rectangle. *)
Theorem bounds_hold_route (pts : list LngLat) :
  Forall finite_point pts ->
  match calculateBounds pts with
  | Some b => Forall (fun p => inside p (minLng b) (minLat b) (maxLng b) (maxLat b)) pts
  | None => pts = []
  end.
Proof.
  intros Hpts. unfold calculateBounds.
  destruct pts as [ | p0 rest] eqn:E; [ reflexivity | ].
  rewrite <- E in *. cbn [minLng minLat maxLng maxLat].
  apply padded_rectangle; try reflexivity; try assumption.
  rewrite E in Hpts. now inversion Hpts.
Qed.

Lemma bounds_hold_route_witness :
  match calculateBounds Sample.leg with
  | Some b =>
      Forall (fun p => inside p (minLng b) (minLat b) (maxLng b) (maxLat b)) Sample.leg
  | None => Sample.leg = []
  end.
Proof. apply (bounds_hold_route Sample.leg). repeat constructor. Defined.

(** The traffic snapshot of a route is the snapshot of one rectangle,
    whatever the snapshot source answers, and that rectangle holds every
    point of a route whose coordinates are finite numbers. *)
Theorem traffic_rectangle_holds_route (pts : list LngLat) :
  Forall finite_point pts ->
  exists west south east north,
    Forall (fun p => inside p west south east north) pts /\
    forall getTrafficByRectangle,
      evaluateRouteTraffic getTrafficByRectangle pts =
      evaluateRouteTraffic (fun _ _ _ _ => getTrafficByRectangle west south east north) pts.
Proof.
  intros Hpts.
  destruct pts as [ | p0 rest] eqn:E.
  - exists 0, 0, 0, 0. split; [ constructor | reflexivity ].
  - rewrite <- E in *.
    exists (fold_left (fun m p => Math_min [m; lng p]) pts (lng p0) - 0.01),
           (fold_left (fun m p => Math_min [m; lat p]) pts (lat p0) - 0.01),
           (fold_left (fun m p => Math_max [m; lng p]) pts (lng p0) + 0.01),
           (fold_left (fun m p => Math_max [m; lat p]) pts (lat p0) + 0.01).
    split.
    + apply padded_rectangle; try reflexivity; try assumption.
      rewrite E in Hpts. now inversion Hpts.
    + intros g. rewrite E. unfold evaluateRouteTraffic.
      destruct rest; reflexivity.
Qed.

Lemma traffic_rectangle_holds_route_witness :
  exists west south east north,
    Forall (fun p => inside p west south east north) Sample.leg /\
    forall getTrafficByRectangle,
      evaluateRouteTraffic getTrafficByRectangle Sample.leg =
      evaluateRouteTraffic (fun _ _ _ _ => getTrafficByRectangle west south east north)
        Sample.leg.
Proof. apply (traffic_rectangle_holds_route Sample.leg). repeat constructor. Defined.

(* ================================================================== *)
(** * The range of the scores *)
(* ================================================================== *)

Lemma fold_max_ge (values : list float) (acc : float) :
  isNaN acc = false -> Forall (fun v => isNaN v = false) values ->
  (acc <=? fold_left max_step values acc) = true /\
  Forall (fun v => (v <=? fold_left max_step values acc) = true) values.
Proof.
  intros Hacc Hvs. revert acc Hacc.
  induction Hvs as [ | v vs Hv Hvs IH]; intros acc Hacc; cbn [fold_left].
  - split; [ now apply leb_refl | constructor ].
  - destruct (max_step_ge acc v Hacc Hv) as (H1 & H2).
    assert (H3 : isNaN (max_step acc v) = false).
    { destruct (max_step_choice acc v) as [-> | ->]; assumption. }
    destruct (IH (max_step acc v) H3) as [H4 H5].
    split; [ exact (leb_trans _ _ _ H1 H4) | ].
    constructor; [ exact (leb_trans _ _ _ H2 H4) | exact H5 ].
Qed.

Lemma Math_max_ge (values : list float) :
  Forall (fun v => isFinite v = true) values ->
  Forall (fun v => (v <=? Math_max values) = true) values.
Proof.
  intros Hfin. unfold Math_max. rewrite (finite_no_nan values Hfin).
  apply fold_max_ge; [ reflexivity | ].
  eapply Forall_impl; [ | exact Hfin ]. intros v. apply finite_not_nan.
Qed.

Lemma sub_nonneg (a b : float) :
  isFinite a = true -> isFinite b = true -> (a <=? b) = true -> (0 <=? b - a) = true.
Proof.
  intros Fa Fb H.
  destruct (sub_compare a b Fa Fb) as (ka & kb & k & Ha & Hb & Hk & Hc).
  rewrite leb_fkey in *. rewrite Ha, Hb in H. rewrite fkey_zero, Hk, Hc.
  exact H.
Qed.

Lemma in_unit_finite (x : float) : in_unit x -> isFinite x = true.
Proof. intros [H0 H1]. exact (between_finite x 0 1 eq_refl eq_refl H0 H1). Qed.

Lemma one_minus_unit (x : float) : in_unit x -> in_unit (1 - x).
Proof.
  intros Hx. pose proof (in_unit_finite x Hx) as Fx. destruct Hx as [H0 H1]. split.
  - now apply sub_nonneg.
  - now apply sub_le.
Qed.

(** ** The time and the distance score *)

(** For a batch of finite values from zero on, the normalised value of a
    member lies between 0 and 1. *)
Lemma normalizeScore_range (routes : list Route) (field : Route -> float)
    (value : float) (lowerIsBetter : bool) :
  Forall (fun r => isFinite (field r) = true /\ (0 <=? field r) = true) routes ->
  In value (map field routes) ->
  in_unit (normalizeScore routes field value lowerIsBetter).
Proof.
  intros Hall Hin. unfold normalizeScore.
  set (values := map field routes) in *.
  assert (Hfin : Forall (fun v => isFinite v = true) values).
  { apply (proj2 (Forall_map _ _ _)). eapply Forall_impl; [ | exact Hall ]. now intros r [? ?]. }
  assert (Hpos : Forall (fun v => (0 <=? v) = true) values).
  { apply (proj2 (Forall_map _ _ _)). eapply Forall_impl; [ | exact Hall ]. now intros r [? ?]. }
  assert (Hne : values <> []) by (intros E; rewrite E in Hin; inversion Hin).
  pose proof (Math_min_in values Hfin Hne) as Imin.
  pose proof (Math_max_in values Hfin Hne) as Imax.
  pose proof (Math_min_le values Hfin) as Lmin.
  pose proof (Math_max_ge values Hfin) as Lmax.
  set (lo := Math_min values) in *. set (hi := Math_max values) in *.
  rewrite Forall_forall in Hfin, Hpos, Lmin, Lmax.
  pose proof (Hfin _ Imin) as Flo. pose proof (Hfin _ Imax) as Fhi.
  pose proof (Hfin _ Hin) as Fv.
  pose proof (Hpos _ Imin) as Plo.
  pose proof (Lmin _ Hin) as Hlv. pose proof (Lmax _ Hin) as Hvh.
  destruct (hi =? lo) eqn:Eeq; [ now split | ].
  assert (Hlh : (lo <? hi) = true).
  { pose proof (leb_trans _ _ _ Hlv Hvh) as Hle. revert Eeq Hle. clear. by_keys. }
  (* the dividend *)
  pose proof (sub_nonneg lo value Flo Fv Hlv) as Ha0.
  pose proof (sub_le value lo Fv Flo Plo) as Hav.
  pose proof (between_finite _ 0 value eq_refl Fv Ha0 Hav) as Fa.
  (* the divisor *)
  assert (Hb0 : (0 <? hi - lo) = true) by now rewrite sub_sign.
  pose proof (sub_le hi lo Fhi Flo Plo) as Hbh.
  pose proof (between_finite _ 0 hi eq_refl Fhi (ltb_leb _ _ Hb0) Hbh) as Fb.
  pose proof (sub_mono lo value hi Flo Fv Fhi Plo Hlv Hvh) as Hab.
  pose proof (div_unit _ _ Fa Fb Ha0 Hab Hb0) as Hn.
  destruct lowerIsBetter; [ now apply one_minus_unit | exact Hn ].
Qed.

(** ** The composite score *)

(** A sum of five parts of five weights is not above the sum of the
    weights, nor below zero. *)
Lemma weighted_sum_range (s1 s2 s3 s4 s5 w1 w2 w3 w4 w5 : float) :
  in_unit s1 -> in_unit s2 -> in_unit s3 -> in_unit s4 -> in_unit s5 ->
  isFinite w1 = true -> isFinite w2 = true -> isFinite w3 = true ->
  isFinite w4 = true -> isFinite w5 = true ->
  (0 <=? w1) = true -> (0 <=? w2) = true -> (0 <=? w3) = true ->
  (0 <=? w4) = true -> (0 <=? w5) = true ->
  isFinite (w1 + w2) = true -> isFinite (w1 + w2 + w3) = true ->
  isFinite (w1 + w2 + w3 + w4) = true ->
  (0 <=? s1 * w1 + s2 * w2 + s3 * w3 + s4 * w4 + s5 * w5) = true /\
  (s1 * w1 + s2 * w2 + s3 * w3 + s4 * w4 + s5 * w5 <=? w1 + w2 + w3 + w4 + w5) = true.
Proof.
  intros [A1 B1] [A2 B2] [A3 B3] [A4 B4] [A5 B5] F1 F2 F3 F4 F5 P1 P2 P3 P4 P5 G2 G3 G4.
  destruct (mul_part s1 w1 A1 B1 F1 P1) as [L1 U1].
  destruct (mul_part s2 w2 A2 B2 F2 P2) as [L2 U2].
  destruct (mul_part s3 w3 A3 B3 F3 P3) as [L3 U3].
  destruct (mul_part s4 w4 A4 B4 F4 P4) as [L4 U4].
  destruct (mul_part s5 w5 A5 B5 F5 P5) as [L5 U5].
  pose proof (between_finite _ 0 w1 eq_refl F1 L1 U1) as T1.
  pose proof (between_finite _ 0 w2 eq_refl F2 L2 U2) as T2.
  pose proof (between_finite _ 0 w3 eq_refl F3 L3 U3) as T3.
  pose proof (between_finite _ 0 w4 eq_refl F4 L4 U4) as T4.
  pose proof (between_finite _ 0 w5 eq_refl F5 L5 U5) as T5.
  destruct (add_mono _ w1 _ w2 T1 F1 T2 F2 L1 L2 U1 U2) as [M2 N2].
  pose proof (between_finite _ 0 _ eq_refl G2 M2 N2) as S2.
  destruct (add_mono _ (w1 + w2) _ w3 S2 G2 T3 F3 M2 L3 N2 U3) as [M3 N3].
  pose proof (between_finite _ 0 _ eq_refl G3 M3 N3) as S3.
  destruct (add_mono _ (w1 + w2 + w3) _ w4 S3 G3 T4 F4 M3 L4 N3 U4) as [M4 N4].
  pose proof (between_finite _ 0 _ eq_refl G4 M4 N4) as S4.
  exact (add_mono _ (w1 + w2 + w3 + w4) _ w5 S4 G4 T5 F5 M4 L5 N4 U5).
Qed.

(** Whatever the sub-scores between 0 and 1, the composite score lies
    between 0 and 1, for each of the three weight profiles: the weights
    of a profile add up to 1 in the order of the code. *)
Lemma calculateFinalScore_range (details : ScoreDetails) (prefs : list string) :
  in_unit (timeScore details) -> in_unit (distanceScore details) ->
  in_unit (trafficScore details) -> in_unit (weatherScore details) ->
  in_unit (preferenceScore details) ->
  in_unit (calculateFinalScore details prefs).
Proof.
  intros H1 H2 H3 H4 H5. unfold calculateFinalScore, weightProfile.
  destruct (includes prefs "fastest"); [ | destruct (includes prefs "shortest") ];
    cbn [w_time w_distance w_traffic w_weather w_preference];
    match goal with
    | |- in_unit (_ * ?w1 + _ * ?w2 + _ * ?w3 + _ * ?w4 + _ * ?w5) =>
        destruct (weighted_sum_range _ _ _ _ _ w1 w2 w3 w4 w5 H1 H2 H3 H4 H5)
          as [L U]; try reflexivity;
        split; [ exact L | refine (leb_trans _ _ _ U _); reflexivity ]
    end.
Qed.

Lemma preference_range (route : Route) (prefs : list string) :
  isNaN (timeScore (scoreDetails route)) = false ->
  in_unit (calculatePreferenceScore route prefs).
Proof.
  intros Htime. unfold calculatePreferenceScore.
  set (s := if includes prefs "fastest" then _ else _).
  assert (Hs : isNaN s = false).
  { subst s. destruct (includes prefs "avoid_toll" && tolls_positive route).
    - eapply unclamped_not_nan; [ vm_compute; reflexivity | exact Htime ].
    - eapply unclamped_not_nan; [ vm_compute; reflexivity | exact Htime ]. }
  destruct (clamp_code s Hs) as (_ & _ & H2 & H3). now split.
Qed.

Section ScoreRange.

Variable getTrafficByRectangle : nat -> float -> float -> float -> float -> TrafficResult.

Lemma scoreRoute_scores idx params wth prefs batch (route : Route) :
  let scored := scoreRoute getTrafficByRectangle idx params wth prefs batch route in
  score scored = calculateFinalScore (scoreDetails scored) prefs /\
  (trafficScore (scoreDetails scored) = 0.8 \/
   trafficScore (scoreDetails scored) =
     1 - congestionRate
           (evaluateRouteTraffic (getTrafficByRectangle idx) (points route)) / 100) /\
  exists r',
    preferenceScore (scoreDetails scored) = calculatePreferenceScore r' prefs /\
    timeScore (scoreDetails r') = timeScore (scoreDetails scored).
Proof.
  unfold scoreRoute. destruct (_ && _); destruct wth; cbn;
    (split; [ reflexivity | split; [ auto | eexists; split; reflexivity ] ]).
Qed.

(** A route of a batch with finite durations and distances from zero
    on is scored for time and distance between 0 and 1. *)
Lemma scoreRoute_time_distance (idx : nat) (params : RoutePlanParams)
    (wth : option WeatherInfo) (prefs : list string) (paths : list RawPath) (r : Route) :
  Forall (fun p => (isFinite (p_duration p) = true /\ (0 <=? p_duration p) = true) /\
                   (isFinite (p_distance p) = true /\ (0 <=? p_distance p) = true)) paths ->
  In r (parseRoutes paths) ->
  let scored := scoreRoute getTrafficByRectangle idx params wth prefs (parseRoutes paths) r in
  in_unit (timeScore (scoreDetails scored)) /\
  in_unit (distanceScore (scoreDetails scored)).
Proof.
  intros Hpaths Hr.
  set (batch := parseRoutes paths) in *.
  destruct (parseRoutes_fields paths) as [Ed Em]. fold batch in Ed, Em.
  assert (Hf3 : Forall (fun p => (isFinite (p_duration p) = true /\
                                  (0 <=? p_duration p) = true) /\
                                 (isFinite (p_distance p) = true /\
                                  (0 <=? p_distance p) = true)) (firstn 3 paths)).
  { rewrite Forall_forall in *. intros p Hp. apply Hpaths.
    rewrite <- (firstn_skipn 3 paths). apply in_or_app. now left. }
  assert (Hd : Forall (fun r => isFinite (durationSeconds r) = true /\
                                (0 <=? durationSeconds r) = true) batch).
  { apply (proj1 (Forall_map durationSeconds
                    (fun v => isFinite v = true /\ (0 <=? v) = true) batch)).
    rewrite Ed. apply (proj2 (Forall_map _ _ _)).
    eapply Forall_impl; [ | exact Hf3 ]. now intros p [? ?]. }
  assert (Hm : Forall (fun r => isFinite (distanceMeters r) = true /\
                                (0 <=? distanceMeters r) = true) batch).
  { apply (proj1 (Forall_map distanceMeters
                    (fun v => isFinite v = true /\ (0 <=? v) = true) batch)).
    rewrite Em. apply (proj2 (Forall_map _ _ _)).
    eapply Forall_impl; [ | exact Hf3 ]. now intros p [? ?]. }
  pose proof (scoreRoute_fields getTrafficByRectangle idx params wth prefs batch r) as H.
  cbv zeta in *. destruct H as (_ & _ & -> & -> & _).
  split; apply normalizeScore_range; try assumption; now apply in_map.
Qed.

(** The routes of such a batch are scored for time and distance between
    0 and 1. *)
Lemma scoreBatch_time_distance (userPrefs : UserPreferences) (params : RoutePlanParams)
    (paths : list RawPath) (weatherResult : WeatherResult) :
  Forall (fun p => (isFinite (p_duration p) = true /\ (0 <=? p_duration p) = true) /\
                   (isFinite (p_distance p) = true /\ (0 <=? p_distance p) = true)) paths ->
  Forall (fun r => in_unit (timeScore (scoreDetails r)) /\
                   in_unit (distanceScore (scoreDetails r)))
         (scoreBatch getTrafficByRectangle userPrefs params paths weatherResult).
Proof.
  intros Hpaths. unfold scoreBatch, mapi. apply mapi_from_Forall. intros r idx Hr.
  now apply scoreRoute_time_distance.
Qed.

(** When the path source reports finite durations and distances from
    zero on, the time and the distance sub-score of every route
    [planRoute] returns lie between 0 and 1. *)
Theorem time_and_distance_scores_range (key : string) (userPrefs : UserPreferences)
    (params : RoutePlanParams) (paths : list RawPath) (weatherResult : WeatherResult) :
  Forall (fun p => (isFinite (p_duration p) = true /\ (0 <=? p_duration p) = true) /\
                   (isFinite (p_distance p) = true /\ (0 <=? p_distance p) = true)) paths ->
  exists res,
    planRoute getTrafficByRectangle key userPrefs params (Some paths) weatherResult
      = Fulfilled res /\
    Forall (fun r => in_unit (timeScore (scoreDetails r)) /\
                     in_unit (distanceScore (scoreDetails r))) (routes res).
Proof.
  intros Hpaths.
  assert (Hmock : exists res,
             Fulfilled getMockResult = Fulfilled res /\
             Forall (fun r => in_unit (timeScore (scoreDetails r)) /\
                              in_unit (distanceScore (scoreDetails r))) (routes res)).
  { eexists. split; [ reflexivity | ]. cbn. repeat constructor. }
  unfold planRoute.
  destruct (truthy key); [ | exact Hmock ].
  destruct (List.length (parseRoutes paths) =? 0)%nat; [ exact Hmock | ].
  eexists. split; [ reflexivity | ]. cbn [routes].
  eapply Permutation_Forall; [ apply sort_perm | ].
  now apply scoreBatch_time_distance.
Qed.

Section Percentages.

(** The snapshot source reports congestion rates between 0 and 100. *)
Hypothesis rates_are_percentages :
  forall idx a b c d status,
    t_status (getTrafficByRectangle idx a b c d) = Some status ->
    (0 <=? congested status + blocked status) = true /\
    (congested status + blocked status <=? 100) = true.

Lemma congestion_rate_range (idx : nat) (pts : list LngLat) :
  let rate := congestionRate (evaluateRouteTraffic (getTrafficByRectangle idx) pts) in
  (0 <=? rate) = true /\ (rate <=? 100) = true.
Proof.
  unfold evaluateRouteTraffic.
  destruct pts as [ | p0 [ | p1 rest]]; [ now split | now split | ].
  cbv zeta.
  match goal with
  | |- context [t_success (getTrafficByRectangle idx ?a ?b ?c ?d)] =>
      pose proof (rates_are_percentages idx a b c d) as H;
      destruct (t_success (getTrafficByRectangle idx a b c d)); [ | now split ];
      destruct (t_status (getTrafficByRectangle idx a b c d)) as [status | ]; [ | now split ]
  end.
  exact (H status eq_refl).
Qed.

Lemma traffic_score_range (idx : nat) (pts : list LngLat) :
  in_unit (1 - congestionRate (evaluateRouteTraffic (getTrafficByRectangle idx) pts) / 100).
Proof.
  destruct (congestion_rate_range idx pts) as [H0 H1]. cbv zeta in H0, H1.
  apply one_minus_unit.
  pose proof (between_finite _ 0 100 eq_refl eq_refl H0 H1) as F.
  exact (div_unit _ 100 F eq_refl H0 H1 eq_refl).
Qed.

(** Under these conditions every route of the scored batch has its five
    sub-scores and its composite score between 0 and 1. *)
Lemma scoreBatch_scores (userPrefs : UserPreferences) (params : RoutePlanParams)
    (paths : list RawPath) (weatherResult : WeatherResult) :
  Forall (fun p => (isFinite (p_duration p) = true /\ (0 <=? p_duration p) = true) /\
                   (isFinite (p_distance p) = true /\ (0 <=? p_distance p) = true)) paths ->
  Forall (fun r =>
            in_unit (timeScore (scoreDetails r)) /\
            in_unit (distanceScore (scoreDetails r)) /\
            in_unit (trafficScore (scoreDetails r)) /\
            in_unit (weatherScore (scoreDetails r)) /\
            in_unit (preferenceScore (scoreDetails r)) /\
            in_unit (score r))
         (scoreBatch getTrafficByRectangle userPrefs params paths weatherResult).
Proof.
  intros Hpaths. unfold scoreBatch, mapi. apply mapi_from_Forall. intros r idx Hr.
  set (wth := weatherFor params weatherResult) in *.
  set (prefs := mergePreferences userPrefs params) in *.
  pose proof (scoreRoute_time_distance idx params wth prefs paths r Hpaths Hr) as Htd.
  set (batch := parseRoutes paths) in *.
  pose proof (scoreRoute_fields getTrafficByRectangle idx params wth prefs batch r) as Hf.
  pose proof (scoreRoute_scores idx params wth prefs batch r) as Hs.
  cbv zeta in Htd, Hf, Hs.
  destruct Htd as [HT HD].
  destruct Hf as (_ & _ & _ & _ & Ew).
  destruct Hs as (Es & Et & r' & Ep & Er').
  set (scored := scoreRoute getTrafficByRectangle idx params wth prefs batch r) in *.
  assert (HR : in_unit (trafficScore (scoreDetails scored))).
  { destruct Et as [-> | ->]; [ now split | ].
    now apply traffic_score_range. }
  assert (HW : in_unit (weatherScore (scoreDetails scored))).
  { rewrite Ew. destruct wth as [w | ]; [ | now split ].
    pose proof (weather_impact_values w) as Hv. cbv zeta in Hv.
    repeat (apply andb_true_iff in Hv; destruct Hv as [Hv ?]). now split. }
  assert (HP : in_unit (preferenceScore (scoreDetails scored))).
  { rewrite Ep. apply preference_range. rewrite Er'.
    apply finite_not_nan. now apply in_unit_finite. }
  repeat (split; [ assumption | ]).
  rewrite Es. now apply calculateFinalScore_range.
Qed.

(** When the path source reports finite durations and distances from
    zero on and the snapshot source reports congestion rates between 0
    and 100, the five sub-scores and the composite score of every route
    [planRoute] returns lie between 0 and 1. *)
Theorem scores_in_unit_interval (key : string) (userPrefs : UserPreferences)
    (params : RoutePlanParams) (paths : list RawPath) (weatherResult : WeatherResult) :
  Forall (fun p => (isFinite (p_duration p) = true /\ (0 <=? p_duration p) = true) /\
                   (isFinite (p_distance p) = true /\ (0 <=? p_distance p) = true)) paths ->
  exists res,
    planRoute getTrafficByRectangle key userPrefs params (Some paths) weatherResult
      = Fulfilled res /\
    Forall (fun r =>
              in_unit (timeScore (scoreDetails r)) /\
              in_unit (distanceScore (scoreDetails r)) /\
              in_unit (trafficScore (scoreDetails r)) /\
              in_unit (weatherScore (scoreDetails r)) /\
              in_unit (preferenceScore (scoreDetails r)) /\
              in_unit (score r)) (routes res).
Proof.
  intros Hpaths.
  assert (Hmock : exists res,
             Fulfilled getMockResult = Fulfilled res /\
             Forall (fun r =>
                       in_unit (timeScore (scoreDetails r)) /\
                       in_unit (distanceScore (scoreDetails r)) /\
                       in_unit (trafficScore (scoreDetails r)) /\
                       in_unit (weatherScore (scoreDetails r)) /\
                       in_unit (preferenceScore (scoreDetails r)) /\
                       in_unit (score r)) (routes res)).
  { eexists. split; [ reflexivity | ]. cbn. repeat constructor. }
  unfold planRoute.
  destruct (truthy key); [ | exact Hmock ].
  destruct (List.length (parseRoutes paths) =? 0)%nat; [ exact Hmock | ].
  eexists. split; [ reflexivity | ]. cbn [routes].
  eapply Permutation_Forall; [ apply sort_perm | ].
  now apply scoreBatch_scores.
Qed.

(** With a credential, at least one path, finite durations and distances
    from zero on and congestion rates between 0 and 100, the routes
    [planRoute] returns are in descending order of composite score, and
    the recommended route is the first of them, which no route
    outscores. *)
Theorem measured_inputs_are_ranked (key : string) (userPrefs : UserPreferences)
    (params : RoutePlanParams) (paths : list RawPath) (weatherResult : WeatherResult) :
  truthy key = true -> paths <> [] ->
  Forall (fun p => (isFinite (p_duration p) = true /\ (0 <=? p_duration p) = true) /\
                   (isFinite (p_distance p) = true /\ (0 <=? p_distance p) = true)) paths ->
  exists res best,
    planRoute getTrafficByRectangle key userPrefs params (Some paths) weatherResult
      = Fulfilled res /\
    Sorted descending (routes res) /\
    hd_error (routes res) = Some best /\
    recommendedRouteId res = id best /\
    Forall (fun r => (score r <=? score best) = true) (routes res).
Proof.
  intros Hkey Hne Hpaths.
  set (scored := scoreBatch getTrafficByRectangle userPrefs params paths weatherResult).
  assert (Hfin : Forall (fun r => isFinite (score r) = true) scored).
  { eapply Forall_impl; [ | exact (scoreBatch_scores userPrefs params paths weatherResult Hpaths) ].
    intros r (_ & _ & _ & _ & _ & H). now apply in_unit_finite. }
  assert (Hscored : scored <> []).
  { subst scored. unfold scoreBatch, parseRoutes, mapi.
    destruct paths as [ | p ps]; [ congruence | discriminate ]. }
  destruct (sort_head scored Hscored Hfin) as (pre & best & post & E & Hhd & Hpre & Hpost).
  pose proof (sort_perm scored) as Hperm.
  assert (Hbest : In best scored) by (rewrite E; apply in_elt).
  assert (Hrec : recommendedId (sort scored) = id best).
  { unfold recommendedId. destruct (sort scored) as [ | r rest]; [ discriminate | ].
    injection Hhd as ->.
    rewrite (ids_truthy (List.length paths)); [ reflexivity | ].
    subst scored.
    rewrite <- (scoreBatch_ids getTrafficByRectangle userPrefs params paths weatherResult).
    now apply in_map. }
  assert (Hbb : (score best <=? score best) = true).
  { apply leb_refl, finite_not_nan. rewrite Forall_forall in Hfin. now apply Hfin. }
  exists (mkRoutePlanResult (recommendedId (sort scored)) (sort scored)
            (weatherFor params weatherResult)), best.
  cbn [routes recommendedRouteId]. split; [ | split; [ | split; [ | split ] ] ].
  - unfold planRoute. rewrite Hkey.
    destruct (List.length (parseRoutes paths) =? 0)%nat eqn:El; [ | reflexivity ].
    apply Nat.eqb_eq, List.length_zero_iff_nil in El.
    exfalso. apply Hscored. subst scored. unfold scoreBatch. now rewrite El.
  - now apply sort_descending.
  - exact Hhd.
  - exact Hrec.
  - apply Forall_forall. intros r Hr. apply Permutation_sym in Hperm.
    pose proof (Permutation_in _ Hperm Hr) as Hin. rewrite E in Hin.
    apply in_app_or in Hin. destruct Hin as [Hin | [<- | Hin]].
    + apply ltb_leb. rewrite Forall_forall in Hpre. now apply Hpre.
    + exact Hbb.
    + rewrite Forall_forall in Hpost. now apply Hpost.
Qed.

End Percentages.

End ScoreRange.

Lemma time_and_distance_scores_range_witness :
  exists res,
    planRoute Sample.someTraffic "key" Sample.users Sample.defaults
      (Some Sample.threePaths) Sample.noWeather = Fulfilled res /\
    Forall (fun r => in_unit (timeScore (scoreDetails r)) /\
                     in_unit (distanceScore (scoreDetails r))) (routes res).
Proof.
  apply (time_and_distance_scores_range Sample.someTraffic "key" Sample.users
           Sample.defaults Sample.threePaths Sample.noWeather).
  repeat constructor.
Defined.

Lemma scores_in_unit_interval_witness :
  exists res,
    planRoute Sample.someTraffic "key" Sample.users Sample.defaults
      (Some Sample.threePaths) Sample.noWeather = Fulfilled res /\
    Forall (fun r =>
              in_unit (timeScore (scoreDetails r)) /\
              in_unit (distanceScore (scoreDetails r)) /\
              in_unit (trafficScore (scoreDetails r)) /\
              in_unit (weatherScore (scoreDetails r)) /\
              in_unit (preferenceScore (scoreDetails r)) /\
              in_unit (score r)) (routes res).
Proof.
  apply (scores_in_unit_interval Sample.someTraffic).
  - intros idx a b c d status [= <-]. split; reflexivity.
  - repeat constructor.
Defined.

Lemma measured_inputs_are_ranked_witness :
  exists res best,
    planRoute Sample.someTraffic "key" Sample.users Sample.defaults
      (Some Sample.threePaths) Sample.noWeather = Fulfilled res /\
    Sorted descending (routes res) /\
    hd_error (routes res) = Some best /\
    recommendedRouteId res = id best /\
    Forall (fun r => (score r <=? score best) = true) (routes res).
Proof.
  apply (measured_inputs_are_ranked Sample.someTraffic).
  - intros idx a b c d status [= <-]. split; reflexivity.
  - reflexivity.
  - discriminate.
  - repeat constructor.
Defined.

(* ================================================================== *)
(** * The order of the POIs *)
(* ================================================================== *)

Section SortedBy.
Context {A : Type}.
Variable rank : A -> float.

Lemma insertBy_best_first (x : A) (sorted : list A) :
  isFinite (rank x) = true ->
  Forall (fun a => isFinite (rank a) = true) sorted ->
  Sorted (fun a b => (rank b <=? rank a) = true) sorted ->
  Sorted (fun a b => (rank b <=? rank a) = true)
         (insertBy (fun a b => rank b - rank a) x sorted).
Proof.
  intros Hx Hfin Hs. induction sorted as [ | y rest IH]; cbn [insertBy].
  - repeat constructor.
  - inversion Hfin as [ | ? ? Hy Hrest]; subst.
    inversion Hs as [ | ? ? Hs' Hhd]; subst.
    rewrite (sub_sign _ _ Hy Hx).
    destruct (rank y <? rank x) eqn:E.
    + constructor; [ exact Hs | ]. constructor. now apply ltb_leb.
    + constructor; [ now apply IH | ].
      assert (Hxy : (rank x <=? rank y) = true).
      { apply not_ltb_leb; auto using finite_not_nan. }
      destruct rest as [ | z rest]; cbn [insertBy].
      * now constructor.
      * destruct (0 <? rank x - rank z); constructor; [ exact Hxy | ].
        now inversion Hhd.
Qed.

Lemma sortBy_best_first (l : list A) :
  Forall (fun a => isFinite (rank a) = true) l ->
  Sorted (fun a b => (rank b <=? rank a) = true) (sortBy (fun a b => rank b - rank a) l).
Proof.
  intros Hfin. unfold sortBy.
  assert (H : forall acc,
             Forall (fun a => isFinite (rank a) = true) acc ->
             Sorted (fun a b => (rank b <=? rank a) = true) acc ->
             Sorted (fun a b => (rank b <=? rank a) = true)
                    (fold_left (fun sorted x => insertBy (fun a b => rank b - rank a) x sorted)
                       l acc)).
  { induction Hfin as [ | x l Hx Hl IH]; intros acc Hacc Hs; cbn [fold_left]; [ exact Hs | ].
    apply IH; [ | now apply insertBy_best_first ].
    eapply Permutation_Forall; [ apply insertBy_perm | ]. now constructor. }
  apply H; constructor.
Qed.

Lemma Sorted_firstn (R : A -> A -> Prop) (n : nat) (l : list A) :
  Sorted R l -> Sorted R (firstn n l).
Proof.
  intros H. revert n. induction H as [ | a l Hs IH Hhd]; intros n.
  - rewrite firstn_nil. constructor.
  - destruct n as [ | n]; cbn [firstn]; [ constructor | ].
    constructor; [ apply IH | ].
    destruct Hhd as [ | b l' Hab]; [ rewrite firstn_nil; constructor | ].
    destruct n; cbn [firstn]; now constructor.
Qed.

End SortedBy.

Section BestFirst.
Variable searchAround : nat -> float -> float -> AroundOptions -> POISearchResult.

(** When the ratings that [searchAround] reports are finite numbers (an
    absent rating and a rating that is not a number count as 0), the
    POIs of a search along a route come in descending order of rating. *)
Theorem search_along_route_best_first (call : nat) (routePoints : list LngLat)
    (options : option AlongOptions) :
  (forall n x y o,
     Forall (fun poi => isFinite (rating_or_0 poi) = true) (pois (searchAround n x y o))) ->
  Sorted (fun a b => (rating_or_0 b <=? rating_or_0 a) = true)
         (pois (searchAlongRoute searchAround call routePoints options)).
Proof.
  intros Hratings. unfold searchAlongRoute.
  destruct (List.length routePoints <? 2)%nat; [ constructor | ].
  cbv zeta. cbn [pois].
  set (samplePoints := map _ (sampleOf (List.length routePoints))).
  pose proof (searchSamples_spec searchAround options samplePoints call [] [] eq_refl
                (NoDup_nil _)) as H.
  destruct (searchSamples searchAround call options [] [] samplePoints) as [seen allPois].
  destruct H as (_ & _ & H3). cbn [snd].
  apply Sorted_firstn. apply (sortBy_best_first rating_or_0).
  apply Forall_forall. intros poi Hin.
  destruct (H3 poi Hin) as [[] | (c & pt & o & _ & _ & Hi)].
  specialize (Hratings c (lng pt) (lat pt) o).
  rewrite Forall_forall in Hratings. now apply Hratings.
Qed.

End BestFirst.

Lemma search_along_route_best_first_witness :
  Sorted (fun a b => (rating_or_0 b <=? rating_or_0 a) = true)
         (pois (searchAlongRoute Sample.cafes 0 Sample.leg None)).
Proof.
  apply (search_along_route_best_first Sample.cafes 0 Sample.leg None).
  intros n x y o. unfold Sample.cafes. repeat constructor.
Defined.
